(** * vue-ip-mac-mask: the mask handlers for IPv4, IPv6 and MAC input fields

    A shallow embedding of the plugin (the helper functions, the three
    [maskHandlers] and the three listeners of the directive) together with
    the properties its specification states about them, and with further
    properties of the code.

    Strings are lists of characters.  Every regular expression of the source
    is written without the [i] and [u] flags and only names ASCII characters,
    so a character outside the ASCII range behaves like any other character
    that is neither a digit, a hex letter, a dot nor a colon.  Cursor
    positions and selection ends are natural numbers, as the input element
    reports them; a selection end that is no number is [None].  Delimiters
    and the counted character are single characters, as at every call. *)

From Stdlib Require Import String Ascii List Bool Arith ZArith Lia Setoid.
Import ListNotations.

Local Open Scope char_scope.
Local Open Scope list_scope.

(** ** Characters and strings *)

Definition jsstring := list ascii.

(** String literals of the source, as character lists. *)
Definition str (s : string) : jsstring := list_ascii_of_string s.

Definition code (c : ascii) : nat := nat_of_ascii c.

(** A character range [lo-hi] of a character class. *)
Definition in_range (lo hi c : ascii) : bool :=
  (code lo <=? code c)%nat && (code c <=? code hi)%nat.

Definition is_dot (c : ascii) : bool := Ascii.eqb c ".".
Definition is_colon (c : ascii) : bool := Ascii.eqb c ":".

(** [\d] *)
Definition cls_digit (c : ascii) : bool := in_range "0" "9" c.
(** [[0-9a-fA-F]] *)
Definition cls_hex (c : ascii) : bool :=
  in_range "0" "9" c || in_range "a" "f" c || in_range "A" "F" c.
(** [[\d.]] *)
Definition cls_digit_dot (c : ascii) : bool := cls_digit c || is_dot c.
(** [[0-9a-fA-F:]] *)
Definition cls_hex_colon (c : ascii) : bool := cls_hex c || is_colon c.

(** ** The string methods the source calls *)

Module JS.

(** [String.prototype.slice]: a negative index counts from the end, every
    index is clamped to the string. *)
Definition rel_index (len i : Z) : Z :=
  if (i <? 0)%Z then Z.max (len + i) 0 else Z.min i len.

Definition slice (value : jsstring) (start finish : Z) : jsstring :=
  let len := Z.of_nat (length value) in
  let from := rel_index len start in
  let to := rel_index len finish in
  firstn (Z.to_nat (to - from)) (skipn (Z.to_nat from) value).

(** [value.slice(start)] *)
Definition slice_from (value : jsstring) (start : Z) : jsstring :=
  slice value start (Z.of_nat (length value)).

Fixpoint starts_with (value pat : jsstring) {struct pat} : bool :=
  match pat, value with
  | [], _ => true
  | _ :: _, [] => false
  | p :: pat', c :: value' => Ascii.eqb c p && starts_with value' pat'
  end.

Definition endsWith (value pat : jsstring) : bool :=
  starts_with (rev value) (rev pat).

Definition startsWith (value pat : jsstring) : bool := starts_with value pat.

(** [value.includes(pat)] *)
Fixpoint includes (value pat : jsstring) : bool :=
  starts_with value pat ||
  match value with
  | [] => false
  | _ :: value' => includes value' pat
  end.

(** Index of the first, respectively the last, occurrence of a character. *)
Fixpoint first_index (d : ascii) (s : jsstring) : option nat :=
  match s with
  | [] => None
  | c :: t => if Ascii.eqb c d then Some 0 else option_map S (first_index d t)
  end.

Fixpoint last_index (d : ascii) (s : jsstring) : option nat :=
  match s with
  | [] => None
  | c :: t =>
      match last_index d t with
      | Some j => Some (S j)
      | None => if Ascii.eqb c d then Some 0 else None
      end
  end.

(** [value.indexOf(d, position)] for a one-character search string: the
    search starts at [position] clamped to the string; [-1] when absent. *)
Definition indexOf (value : jsstring) (d : ascii) (position : Z) : Z :=
  let k := Z.to_nat (Z.max position 0) in
  match first_index d (skipn k value) with
  | Some j => Z.of_nat (k + j)
  | None => (-1)%Z
  end.

(** [value.lastIndexOf(d, position)] for a one-character search string: the
    last occurrence at an index not above [position] (clamped at 0). *)
Definition lastIndexOf (value : jsstring) (d : ascii) (position : Z) : Z :=
  let k := Z.to_nat (Z.max position 0) in
  match last_index d (firstn (S k) value) with
  | Some j => Z.of_nat j
  | None => (-1)%Z
  end.

(** [value.split(d)] for a one-character separator: never the empty list. *)
Fixpoint split (d : ascii) (value : jsstring) : list jsstring :=
  match value with
  | [] => [[]]
  | c :: t =>
      if Ascii.eqb c d then [] :: split d t
      else match split d t with
           | seg :: rest => (c :: seg) :: rest
           | [] => [[c]]
           end
  end.

(** [segments.join(d)] *)
Fixpoint join (d : ascii) (segments : list jsstring) : jsstring :=
  match segments with
  | [] => []
  | [seg] => seg
  | seg :: rest => seg ++ d :: join d rest
  end.

(** White space that [parseInt] skips. *)
Definition is_space (c : ascii) : bool :=
  in_range "009" "013" c || Ascii.eqb c " " || Ascii.eqb c "160".

Fixpoint drop_while (f : ascii -> bool) (s : jsstring) : jsstring :=
  match s with
  | c :: t => if f c then drop_while f t else s
  | [] => []
  end.

Fixpoint take_while (f : ascii -> bool) (s : jsstring) : jsstring :=
  match s with
  | c :: t => if f c then c :: take_while f t else []
  | [] => []
  end.

Definition digit_value (c : ascii) : Z := Z.of_nat (code c - code "0").

(** Value of a string of decimal digits, most significant first. *)
Definition decimal (ds : jsstring) : Z :=
  fold_left (fun acc c => (10 * acc + digit_value c)%Z) ds 0%Z.

(** [parseInt(s, 10)]: leading white space and one sign are skipped, the
    longest prefix of decimal digits is read; [None] stands for [NaN].  The
    strings the handlers pass hold at most a few digits, so the number is
    exact. *)
Definition parseInt (s : jsstring) : option Z :=
  let s1 := drop_while is_space s in
  let neg := starts_with s1 (str "-") in
  let signed := neg || starts_with s1 (str "+") in
  let s2 := if signed then skipn 1 s1 else s1 in
  let ds := take_while cls_digit s2 in
  if (length ds =? 0)%nat then None
  else Some (if neg then (- decimal ds)%Z else decimal ds).

(** [num > bound], false for [NaN]. *)
Definition gt (num : option Z) (bound : Z) : bool :=
  match num with
  | Some n => (bound <? n)%Z
  | None => false
  end.

End JS.

(** ** Regular expressions

    The patterns the handlers test have neither back-references nor
    look-around, so [RegExp.prototype.test] decides membership in the
    language of the pattern.  [lang] is that language; [matches] decides it
    with derivatives. *)

Module Regex.

Inductive regex : Type :=
| Void : regex
| Eps : regex
| Cls : (ascii -> bool) -> regex
| Seq : regex -> regex -> regex
| Alt : regex -> regex -> regex
| Star : regex -> regex.

(** A literal character. *)
Definition Chr (c : ascii) : regex := Cls (fun x => Ascii.eqb x c).

(** [r?] *)
Definition Opt (r : regex) : regex := Alt r Eps.

(** [r{n}] *)
Fixpoint Pow (n : nat) (r : regex) : regex :=
  match n with
  | O => Eps
  | S n' => Seq r (Pow n' r)
  end.

(** [r{0,n}] *)
Fixpoint UpTo (n : nat) (r : regex) : regex :=
  match n with
  | O => Eps
  | S n' => Opt (Seq r (UpTo n' r))
  end.

(** [r{lo,hi}] *)
Definition Rep (lo hi : nat) (r : regex) : regex :=
  Seq (Pow lo r) (UpTo (hi - lo) r).

(** [r{lo,}] *)
Definition AtLeast (lo : nat) (r : regex) : regex :=
  Seq (Pow lo r) (Star r).

Fixpoint lang (r : regex) (s : jsstring) : Prop :=
  match r with
  | Void => False
  | Eps => s = []
  | Cls f => exists c, s = [c] /\ f c = true
  | Seq a b => exists s1 s2, s = s1 ++ s2 /\ lang a s1 /\ lang b s2
  | Alt a b => lang a s \/ lang b s
  | Star a => exists ss, s = concat ss /\ Forall (lang a) ss
  end.

Fixpoint nullable (r : regex) : bool :=
  match r with
  | Void => false
  | Eps => true
  | Cls _ => false
  | Seq a b => nullable a && nullable b
  | Alt a b => nullable a || nullable b
  | Star _ => true
  end.

(** Constructors that drop the empty language, to keep derivatives small. *)
Definition mk_seq (a b : regex) : regex :=
  match a, b with
  | Void, _ => Void
  | _, Void => Void
  | Eps, _ => b
  | _, _ => Seq a b
  end.

Definition mk_alt (a b : regex) : regex :=
  match a, b with
  | Void, _ => b
  | _, Void => a
  | _, _ => Alt a b
  end.

Fixpoint deriv (c : ascii) (r : regex) : regex :=
  match r with
  | Void => Void
  | Eps => Void
  | Cls f => if f c then Eps else Void
  | Seq a b =>
      if nullable a
      then mk_alt (mk_seq (deriv c a) b) (deriv c b)
      else mk_seq (deriv c a) b
  | Alt a b => mk_alt (deriv c a) (deriv c b)
  | Star a => mk_seq (deriv c a) (Star a)
  end.

Fixpoint matches (r : regex) (s : jsstring) : bool :=
  match s with
  | [] => nullable r
  | c :: t => matches (deriv c r) t
  end.

(** [/^r$/.test(s)] *)
Definition test_anchored (r : regex) (s : jsstring) : bool := matches r s.

(** [/r/.test(s)]: some substring of [s] is in the language of [r]. *)
Definition any_char : regex := Cls (fun _ => true).

Definition test (r : regex) (s : jsstring) : bool :=
  matches (Seq (Star any_char) (Seq r (Star any_char))) s.

(** [[^...]]: the complement of a character class. *)
Definition NotCls (f : ascii -> bool) : regex := Cls (fun c => negb (f c)).

(** The length of the longest prefix of [s] in the language of [r].  The
    patterns that the handlers replace or list are one character class, one
    literal and one greedy repetition of a character: for them the match
    that JavaScript finds at a position is the longest one there. *)
Fixpoint longest_prefix (r : regex) (s : jsstring) : option nat :=
  match s with
  | [] => if nullable r then Some 0 else None
  | c :: t =>
      match longest_prefix (deriv c r) t with
      | Some n => Some (S n)
      | None => if nullable r then Some 0 else None
      end
  end.

(** [s.replace(/r/g, repl)] for a pattern that matches no empty text: the
    text is scanned from the left, every match is replaced and the scan
    goes on behind it.  [fuel] bounds the number of steps. *)
Fixpoint replace_from (fuel : nat) (r : regex) (repl s : jsstring)
    : jsstring :=
  match fuel with
  | O => s
  | S fuel' =>
      match s with
      | [] => []
      | c :: t =>
          match longest_prefix r s with
          | Some (S n) => repl ++ replace_from fuel' r repl (skipn n t)
          | _ => c :: replace_from fuel' r repl t
          end
      end
  end.

Definition replace_all (r : regex) (repl s : jsstring) : jsstring :=
  replace_from (length s) r repl s.

(** [s.match(/r/g) || []], for a pattern that matches no empty text. *)
Fixpoint match_from (fuel : nat) (r : regex) (s : jsstring) : list jsstring :=
  match fuel with
  | O => []
  | S fuel' =>
      match s with
      | [] => []
      | c :: t =>
          match longest_prefix r s with
          | Some (S n) => (c :: firstn n t) :: match_from fuel' r (skipn n t)
          | _ => match_from fuel' r t
          end
      end
  end.

Definition match_all (r : regex) (s : jsstring) : list jsstring :=
  match_from (length s) r s.

End Regex.

(** ** Helper functions of the directive *)

Import Regex.

Local Coercion Z.of_nat : nat >-> Z.

Fixpoint jsstring_eqb (a b : jsstring) : bool :=
  match a, b with
  | [], [] => true
  | x :: a', y :: b' => Ascii.eqb x y && jsstring_eqb a' b'
  | _, _ => false
  end.

(** [selectionEnd] is [None] when the caller passes no number. *)
Definition simulateInsert (value char : jsstring) (cursorPos : nat)
    (selectionEnd : option nat) : jsstring :=
  let selEnd := match selectionEnd with Some e => e | None => cursorPos end in
  JS.slice value 0 cursorPos ++ char ++ JS.slice_from value selEnd.

Definition getSegmentBounds (value : jsstring) (index : nat)
    (delimiter : ascii) : Z * Z :=
  let start := (JS.lastIndexOf value delimiter (index - 1) + 1)%Z in
  let end_ := JS.indexOf value delimiter index in
  let end_ := if (end_ =? -1)%Z then Z.of_nat (length value) else end_ in
  (start, end_).

Definition getSegmentTextAt (value : jsstring) (index : nat)
    (delimiter : ascii) : jsstring :=
  let '(start, end_) := getSegmentBounds value index delimiter in
  JS.slice value start end_.

(** For the dot and the colon, the two characters that the handlers pass,
    [new RegExp('\\' + ch, 'g')] is an escaped, hence literal, character
    (for a letter such as [d] it would be a class, which no call asks for);
    without a match [m] is [null] and the count is 0. *)
Definition countChar (value : jsstring) (ch : ascii) : nat :=
  let m := Regex.match_all (Chr ch) value in
  length m.

Definition isHexChar (ch : jsstring) : bool := Regex.test (Cls cls_hex) ch.

Definition isDigit (ch : jsstring) : bool := Regex.test (Cls cls_digit) ch.

Definition computeNewCursorPosition (oldValue newValue : jsstring)
    (oldCursor : Z) : Z :=
  let pos := oldCursor in
  if (length newValue <? length oldValue)%nat then
    Z.min oldCursor (length newValue)
  else if (length oldValue <? length newValue)%nat then
    (oldCursor + (length newValue - length oldValue))%Z
  else pos.

(** ** [maskHandlers.ipv4] *)

Module ipv4.

(** One round of the loop of [format], at index [i].  [segments] comes from
    [split] and is never empty, so [segments.length - 1] is a natural
    number. *)
Definition format_step (segments validSegments : list jsstring) (i : nat)
    : list jsstring :=
  let segment := nth i segments [] in
  let segment :=
    if (3 <? length segment)%nat then JS.slice segment 0 3 else segment in
  let num := JS.parseInt segment in
  let segment :=
    match num with
    | None => segment
    | Some n => if (255 <? n)%Z then str "255" else segment
    end in
  let validSegments := validSegments ++ [segment] in
  if (i <? 3)%nat && (i =? length segments - 1)%nat
     && (0 <? length segment)%nat
  then
    if (length segment =? 3)%nat then validSegments ++ [[]]
    else if (length segment =? 2)%nat
            && JS.gt (JS.parseInt (segment ++ str "0")) 255
    then validSegments ++ [[]]
    else validSegments
  else validSegments.

(** [rounds] more rounds of the loop, from index [i]. *)
Fixpoint format_loop (rounds i : nat) (segments validSegments : list jsstring)
    : list jsstring :=
  match rounds with
  | O => validSegments
  | S rounds' =>
      format_loop rounds' (S i) segments (format_step segments validSegments i)
  end.

Definition format (value : jsstring) : jsstring :=
  let cleaned := Regex.replace_all (NotCls cls_digit_dot) [] value in
  let segments := JS.split "." cleaned in
  let validSegments :=
    format_loop (Nat.min (length segments) 4) 0 segments [] in
  JS.join "." validSegments.

(** [[01]] *)
Definition cls_01 (c : ascii) : bool := Ascii.eqb c "0" || Ascii.eqb c "1".

(** [(25[0-5]|2[0-4]\d|[01]?\d\d?)] *)
Definition octet : regex :=
  Alt (Seq (Chr "2") (Seq (Chr "5") (Cls (in_range "0" "5"))))
 (Alt (Seq (Chr "2") (Seq (Cls (in_range "0" "4")) (Cls cls_digit)))
      (Seq (Opt (Cls cls_01))
           (Seq (Cls cls_digit) (Opt (Cls cls_digit))))).

Definition ipv4Regex : regex :=
  Seq octet (Seq (Chr ".") (Seq octet (Seq (Chr ".")
 (Seq octet (Seq (Chr ".") octet))))).

Definition validate (value : jsstring) : bool :=
  Regex.test_anchored ipv4Regex value.

Definition isValidChar (char currentValue : jsstring) (cursorPos : nat)
    (selectionEnd : option nat) : bool :=
  if negb (Regex.test (Cls cls_digit_dot) char) then false else
  let left := JS.slice currentValue 0 cursorPos in
  let right := JS.slice_from currentValue cursorPos in
  if jsstring_eqb char (str ".") then
    let after := simulateInsert currentValue char cursorPos selectionEnd in
    if (3 <? countChar after ".")%nat then false else
    if (length left =? 0)%nat || JS.endsWith left (str ".") then false else
    let '(start, end_) := getSegmentBounds currentValue cursorPos "." in
    let currentSeg := JS.slice currentValue start end_ in
    if (length currentSeg =? 0)%nat then false else
    if JS.startsWith right (str ".") then false else
    true
  else if isDigit char then
    let after := simulateInsert currentValue char cursorPos selectionEnd in
    let newIndex := cursorPos + 1 in
    let segAfter := getSegmentTextAt after newIndex "." in
    if (3 <? length segAfter)%nat then false else
    if (1 <? length segAfter)%nat && JS.startsWith segAfter (str "0")
    then false else
    let num := JS.parseInt segAfter in
    if JS.gt num 255 then false else
    true
  else false.

End ipv4.

(** ** [maskHandlers.ipv6] *)

Module ipv6.

Definition format (value : jsstring) : jsstring :=
  let cleaned := Regex.replace_all (NotCls cls_hex_colon) [] value in
  Regex.replace_all (AtLeast 3 (Chr ":")) (str "::") cleaned.

(** [[0-9a-fA-F]{1,4}], then the same followed, or preceded, by a colon. *)
Definition hextet : regex := Rep 1 4 (Cls cls_hex).
Definition hextet_colon : regex := Seq hextet (Chr ":").
Definition colon_hextet : regex := Seq (Chr ":") hextet.

Definition ipv6Regex : regex :=
  Alt (Seq (Rep 7 7 hextet_colon) hextet)
 (Alt (Seq (Rep 1 7 hextet_colon) (Chr ":"))
 (Alt (Seq (Rep 1 6 hextet_colon) (Seq (Chr ":") hextet))
 (Alt (Seq (Rep 1 5 hextet_colon) (Rep 1 2 colon_hextet))
 (Alt (Seq (Rep 1 4 hextet_colon) (Rep 1 3 colon_hextet))
 (Alt (Seq (Rep 1 3 hextet_colon) (Rep 1 4 colon_hextet))
 (Alt (Seq (Rep 1 2 hextet_colon) (Rep 1 5 colon_hextet))
 (Alt (Seq hextet (Seq (Chr ":") (Rep 1 6 colon_hextet)))
 (Alt (Seq (Chr ":") (Alt (Rep 1 7 colon_hextet) (Chr ":")))
      (Seq (Chr ":") (Chr ":")))))))))).

Definition validate (value : jsstring) : bool :=
  Regex.test_anchored ipv6Regex value.

Definition isValidChar (char currentValue : jsstring) (cursorPos : nat)
    (selectionEnd : option nat) : bool :=
  if negb (Regex.test (Cls cls_hex_colon) char) then false else
  let left := JS.slice currentValue 0 cursorPos in
  let right := JS.slice_from currentValue cursorPos in
  if jsstring_eqb char (str ":") then
    let after := simulateInsert currentValue char cursorPos selectionEnd in
    if Regex.test (AtLeast 3 (Chr ":")) after then false else
    if (1 <? length (Regex.match_all (Seq (Chr ":") (Chr ":")) after))%nat
    then false else
    let hasDoubleColon := JS.includes after (str "::") in
    let colonCount := countChar after ":" in
    if negb hasDoubleColon && (7 <? colonCount)%nat then false else
    let isFormingDouble :=
      JS.endsWith left (str ":") || JS.startsWith right (str ":") in
    let currentSeg := getSegmentTextAt currentValue cursorPos ":" in
    if negb isFormingDouble && (length currentSeg =? 0)%nat then false else
    true
  else if isHexChar char then
    let after := simulateInsert currentValue char cursorPos selectionEnd in
    let newIndex := cursorPos + 1 in
    let segAfter := getSegmentTextAt after newIndex ":" in
    if (4 <? length segAfter)%nat then false else
    true
  else false.

End ipv6.

(** ** [maskHandlers.mac] *)

Module mac.

(** The loop [for (i = 0; i < hexOnly.length; i += 2)] of [format], with
    [rounds] rounds left. *)
Fixpoint pairs_loop (rounds i : nat) (hexOnly : jsstring)
    (pairs : list jsstring) : list jsstring :=
  match rounds with
  | O => pairs
  | S rounds' =>
      if (i <? length hexOnly)%nat
      then pairs_loop rounds' (i + 2) hexOnly
             (pairs ++ [JS.slice hexOnly i (i + 2)%nat])
      else pairs
  end.

(** The branch [if (hasColon) { ... }] of [format]: [Some] of the value it
    returns, [None] when control falls through to the lines behind it. *)
Definition colon_aware (value : jsstring) : option jsstring :=
  let cleanedAll := Regex.replace_all (NotCls cls_hex_colon) [] value in
  let hasColon := JS.includes cleanedAll (str ":") in
  if hasColon then
    let rawSegments :=
      map (fun seg => Regex.replace_all (NotCls cls_hex) [] seg)
          (firstn 6 (JS.split ":" cleanedAll)) in
    if forallb (fun seg => (length seg <=? 2)%nat) rawSegments then
      let normalized := map (fun seg => JS.slice seg 0 2) rawSegments in
      Some (JS.join ":" normalized)
    else None
  else None.

(** The lines of [format] behind that branch. *)
Definition colon_free (value : jsstring) : jsstring :=
  let hexOnly :=
    JS.slice (Regex.replace_all (NotCls cls_hex) [] value) 0 12 in
  let pairs := pairs_loop (length hexOnly) 0 hexOnly [] in
  JS.join ":" pairs.

Definition format (value : jsstring) : jsstring :=
  match colon_aware value with
  | Some result => result
  | None => colon_free value
  end.

(** [^([0-9a-fA-F]{2}:){5}[0-9a-fA-F]{2}$] *)
Definition macRegex : regex :=
  Seq (Pow 5 (Seq (Pow 2 (Cls cls_hex)) (Chr ":"))) (Pow 2 (Cls cls_hex)).

Definition validate (value : jsstring) : bool :=
  Regex.test_anchored macRegex value.

Definition isValidChar (char currentValue : jsstring) (cursorPos : nat)
    (selectionEnd : option nat) : bool :=
  if negb (Regex.test (Cls cls_hex_colon) char) then false else
  let selEnd := match selectionEnd with Some e => e | None => cursorPos end in
  let left := JS.slice currentValue 0 cursorPos in
  let right := JS.slice_from currentValue selEnd in
  if jsstring_eqb char (str ":") then
    let currentSeg :=
      Regex.replace_all (NotCls cls_hex) []
        (getSegmentTextAt currentValue cursorPos ":") in
    let totalHex :=
      length (Regex.replace_all (NotCls cls_hex) [] currentValue) in
    let colonCount := countChar currentValue ":" in
    if negb (length currentSeg =? 2)%nat then false else
    if (5 <=? colonCount)%nat then false else
    if (12 <=? totalHex)%nat then false else
    if JS.endsWith left (str ":") || JS.startsWith right (str ":")
    then false else
    true
  else if isHexChar char then
    let after := simulateInsert currentValue char cursorPos selectionEnd in
    let totalHexAfter :=
      length (Regex.replace_all (NotCls cls_hex) [] after) in
    if (12 <? totalHexAfter)%nat then false else
    true
  else false.

End mac.

(** ** The directive [v-mask]

    The three listeners that [mounted] puts on the input element, for the
    handler of the mask.  Of the element they read and write [value],
    [selectionStart] and [selectionEnd]: the element is a text field, where
    both selection ends are numbers.  [dispatchEvent] runs the listeners of
    the [input] event before it returns, [handleInput] among them; the
    listeners of other code are taken to leave the element alone.  [fuel]
    bounds the depth of these nested calls, and [None] is a run that needs
    more. *)

Module Directive.

Record handler : Type := {
  format : jsstring -> jsstring;
  validate : jsstring -> bool;
  isValidChar : jsstring -> jsstring -> nat -> option nat -> bool
}.

(** The keys of [maskHandlers]. *)
Inductive mask : Type := Ipv4 | Ipv6 | Mac.

Definition maskHandlers (maskType : mask) : handler :=
  match maskType with
  | Ipv4 => {| format := ipv4.format; validate := ipv4.validate;
               isValidChar := ipv4.isValidChar |}
  | Ipv6 => {| format := ipv6.format; validate := ipv6.validate;
               isValidChar := ipv6.isValidChar |}
  | Mac => {| format := mac.format; validate := mac.validate;
              isValidChar := mac.isValidChar |}
  end.

Record input : Type := {
  value : jsstring;
  selectionStart : nat;
  selectionEnd : nat
}.

(** [input.value = v]: a value that differs from the old one moves the
    cursor behind the text and drops the selection. *)
Definition set_value (el : input) (v : jsstring) : input :=
  if jsstring_eqb (value el) v then el
  else {| value := v; selectionStart := length v; selectionEnd := length v |}.

(** [input.setSelectionRange(start, end)]: both positions are unsigned, so
    that a negative number lies above every length; they are cut to the
    length of the value, and [start] to [end]. *)
Definition setSelectionRange (el : input) (start end_ : Z) : input :=
  let len := length (value el) in
  let cut (z : Z) := if (z <? 0)%Z then len else Nat.min (Z.to_nat z) len in
  {| value := value el;
     selectionStart := Nat.min (cut start) (cut end_);
     selectionEnd := cut end_ |}.

Fixpoint handleInput (fuel : nat) (handler : handler) (el : input)
    : option input :=
  match fuel with
  | O => None
  | S fuel' =>
      let cursorPosition := selectionStart el in
      let oldValue := value el in
      let newValue := format handler oldValue in
      if negb (jsstring_eqb oldValue newValue) then
        let el := set_value el newValue in
        match handleInput fuel' handler el with
        | None => None
        | Some el =>
            let newCursorPos :=
              computeNewCursorPosition oldValue newValue cursorPosition in
            Some (setSelectionRange el newCursorPos newCursorPos)
        end
      else Some el
  end.

(** [e.preventDefault()] keeps the browser from inserting the clipboard
    text itself. *)
Definition handlePaste (fuel : nat) (handler : handler)
    (pastedText : jsstring) (el : input) : option input :=
  let formatted := format handler pastedText in
  let el := set_value el formatted in
  handleInput fuel handler el.

Record keyboard_event : Type := {
  key : jsstring;
  ctrlKey : bool;
  metaKey : bool
}.

(** [handleKeydown] answers whether it calls [e.preventDefault()]. *)
Definition handleKeydown (handler : handler) (e : keyboard_event)
    (el : input) : bool :=
  if jsstring_eqb (key e) (str "Backspace") || jsstring_eqb (key e) (str "Delete")
     || jsstring_eqb (key e) (str "Tab") || jsstring_eqb (key e) (str "Enter")
     || jsstring_eqb (key e) (str "ArrowLeft")
     || jsstring_eqb (key e) (str "ArrowRight")
     || jsstring_eqb (key e) (str "ArrowUp")
     || jsstring_eqb (key e) (str "ArrowDown")
     || ctrlKey e || metaKey e
     || jsstring_eqb (key e) (str "Home") || jsstring_eqb (key e) (str "End")
  then false
  else
    let currentValue := value el in
    let cursorPos := selectionStart el in
    if negb (isValidChar handler (key e) currentValue cursorPos
               (Some (selectionEnd el)))
    then true
    else false.

End Directive.

(** ** Notions of the specification *)

(** The segment around an index: the piece of [value], cut at every
    delimiter, that follows as many delimiters as stand left of the index. *)
Definition segment_at (value : jsstring) (index : nat) (delimiter : ascii)
    : jsstring :=
  nth (countChar (firstn index value) delimiter) (JS.split delimiter value) [].

(** The character left of a caret, and the character right of it. *)
Definition char_left (value : jsstring) (pos : nat) : option ascii :=
  hd_error (rev (firstn pos value)).

Definition char_right (value : jsstring) (pos : nat) : option ascii :=
  hd_error (skipn pos value).

(** Colon patterns in an IPv6 text: a run of three colons, an occurrence of
    [::], and two occurrences of [::] that do not overlap. *)
Definition has_colon_run3 (s : jsstring) : Prop :=
  exists l r, s = l ++ str ":::" ++ r.



(** Typing the characters of [keys] one at a time at the end of the field,
    [format] rewriting the field after each of them: the value reached, and
    the values the field went through. *)
Definition type_keys (format : jsstring -> jsstring) (keys : jsstring)
    : jsstring :=
  fold_left (fun value c => format (value ++ [c])) keys [].

Fixpoint type_trace (format : jsstring -> jsstring) (value keys : jsstring)
    : list (jsstring * jsstring) :=
  match keys with
  | [] => []
  | c :: keys' =>
      (value ++ [c], format (value ++ [c]))
        :: type_trace format (format (value ++ [c])) keys'
  end.

(** The cleanup of one IPv4 segment: cut to three characters, then replaced
    by "255" when it reads as a number over 255. *)
Definition ipv4_cleanup (segment : jsstring) : jsstring :=
  let cut := firstn 3 segment in
  if JS.gt (JS.parseInt cut) 255 then str "255" else cut.

(** A cleaned segment is complete when no further digit fits: it has three
    characters, or two and a further "0" would take it over 255. *)
Definition ipv4_complete (segment : jsstring) : bool :=
  (length segment =? 3)%nat ||
  ((length segment =? 2)%nat && JS.gt (JS.parseInt (segment ++ str "0")) 255).

(** The text of an IPv4 octet: one to three decimal digits that read as a
    number up to 255.  The canonical ones have no leading zero. *)
Definition octet_text (s : jsstring) : Prop :=
  1 <= length s <= 3 /\ Forall (fun c => cls_digit c = true) s /\
  (JS.decimal s <= 255)%Z.

Definition canonical_octet (s : jsstring) : Prop :=
  octet_text s /\ (1 < length s -> hd_error s <> Some "0"%char).

Definition dotted_quad (octet_ok : jsstring -> Prop) (v : jsstring) : Prop :=
  exists a b c d, JS.split "." v = [a; b; c; d] /\
                  octet_ok a /\ octet_ok b /\ octet_ok c /\ octet_ok d.

(** [Subseq a b]: [a] is [b] with some characters left out, the others in
    their order. *)
Inductive Subseq : jsstring -> jsstring -> Prop :=
| Subseq_nil : Subseq [] []
| Subseq_keep : forall c a b, Subseq a b -> Subseq (c :: a) (c :: b)
| Subseq_drop : forall c a b, Subseq a b -> Subseq a (c :: b).

(** ** Auxiliary notions of the proofs *)

(** The number of occurrences of a character. *)
Definition count_char (value : jsstring) (ch : ascii) : nat :=
  length (filter (fun c => Ascii.eqb c ch) value).

(** Replacing the runs of three or more colons by [::] in one pass: [run]
    counts the colons read since the last other character, and [flush]
    writes that run out. *)
Definition flush (run : nat) : jsstring :=
  if (3 <=? run)%nat then str "::" else repeat ":" run.

Fixpoint replace_runs (run : nat) (s : jsstring) : jsstring :=
  match s with
  | [] => flush run
  | c :: t =>
      if is_colon c then replace_runs (S run) t
      else flush run ++ c :: replace_runs 0 t
  end.


(** The text of [l] behind its last delimiter, and the text of [r] in front
    of its first one. *)
Definition after_last (d : ascii) (l : jsstring) : jsstring :=
  match JS.last_index d l with
  | Some j => skipn (S j) l
  | None => l
  end.

Definition before_first (d : ascii) (r : jsstring) : jsstring :=
  match JS.first_index d r with
  | Some j => firstn j r
  | None => r
  end.

(** Cutting a text into pairs, the last one possibly a single character. *)
Fixpoint chunk2 (s : jsstring) : list jsstring :=
  match s with
  | [] => []
  | [a] => [[a]]
  | a :: b :: t => [a; b] :: chunk2 t
  end.

(** A group of at most two hex digits. *)
Definition short_hex (seg : jsstring) : Prop :=
  length seg <= 2 /\ Forall (fun c => cls_hex c = true) seg.

(** A group of exactly two hex digits. *)
Definition hex_pair (seg : jsstring) : Prop :=
  length seg = 2 /\ Forall (fun c => cls_hex c = true) seg.

(** A text of decimal digits. *)
Definition digits (s : jsstring) : Prop :=
  Forall (fun c => cls_digit c = true) s.

(** The bounds [getSegmentBounds] computes, as natural numbers. *)
Definition bound_start (value : jsstring) (index : nat) (d : ascii) : nat :=
  match JS.last_index d (firstn (S (index - 1)) value) with
  | Some j => S j
  | None => 0
  end.

Definition bound_end (value : jsstring) (index : nat) (d : ascii) : nat :=
  match JS.first_index d (skipn index value) with
  | Some j => index + j
  | None => length value
  end.

(** ** An automaton for colon runs

    The automaton reads a text of hex digits and colons and remembers how
    many colons it has just read; it falls into [Bad] at a third colon in a
    row and at any other character.  [reach r S] bounds the states in which
    it can be after reading a word of [r] from a state of [S]. *)

Inductive colon_state : Type := Run0 | Run1 | Run2 | Bad.

Definition colon_step (q : colon_state) (c : ascii) : colon_state :=
  match q with
  | Bad => Bad
  | Run0 => if is_colon c then Run1 else if cls_hex c then Run0 else Bad
  | Run1 => if is_colon c then Run2 else if cls_hex c then Run0 else Bad
  | Run2 => if is_colon c then Bad else if cls_hex c then Run0 else Bad
  end.

Definition colon_run (q : colon_state) (s : jsstring) : colon_state :=
  fold_left colon_step s q.

Definition run_length (q : colon_state) : nat :=
  match q with
  | Run0 => 0
  | Run1 => 1
  | Run2 => 2
  | Bad => 3
  end.

Record state_set : Type :=
  StateSet { in0 : bool; in1 : bool; in2 : bool; inBad : bool }.

Definition mem (q : colon_state) (S : state_set) : bool :=
  match q with
  | Run0 => in0 S
  | Run1 => in1 S
  | Run2 => in2 S
  | Bad => inBad S
  end.

Definition no_state : state_set := StateSet false false false false.
Definition every_state : state_set := StateSet true true true true.

Definition only (q : colon_state) : state_set :=
  match q with
  | Run0 => StateSet true false false false
  | Run1 => StateSet false true false false
  | Run2 => StateSet false false true false
  | Bad => StateSet false false false true
  end.

Definition union (S T : state_set) : state_set :=
  StateSet (in0 S || in0 T) (in1 S || in1 T) (in2 S || in2 T)
           (inBad S || inBad T).

Definition subset (S T : state_set) : bool :=
  implb (in0 S) (in0 T) && implb (in1 S) (in1 T) && implb (in2 S) (in2 T)
  && implb (inBad S) (inBad T).

(** The states reached from [S] by the one character [c]. *)
Definition step_set (S : state_set) (c : ascii) : state_set :=
  fold_left
    (fun acc q => if mem q S then union acc (only (colon_step q c)) else acc)
    [Run0; Run1; Run2; Bad] no_state.

Definition all_chars : list ascii := map ascii_of_nat (seq 0 256).

Fixpoint iterate (n : nat) (f : state_set -> state_set) (S : state_set)
    : state_set :=
  match n with
  | O => S
  | S n' => iterate n' f (union S (f S))
  end.

Fixpoint reach (r : Regex.regex) (S : state_set) : state_set :=
  match r with
  | Void => no_state
  | Eps => S
  | Cls f =>
      fold_left (fun acc c => if f c then union acc (step_set S c) else acc)
                all_chars no_state
  | Seq a b => reach b (reach a S)
  | Alt a b => union (reach a S) (reach b S)
  | Star a =>
      let T := iterate 4 (reach a) S in
      if subset (reach a T) T then T else every_state
  end.

(** ** Typing into a masked field

    What the browser does with the key of a character: [keydown] goes to
    [handleKeydown]; unless that prevented it, the character replaces the
    selection, the cursor moves behind it, and the [input] event goes to
    [handleInput]. *)

Definition insert_key (el : Directive.input) (c : ascii) : Directive.input :=
  let v := Directive.value el in
  {| Directive.value :=
       firstn (Directive.selectionStart el) v ++ [c] ++
       skipn (Directive.selectionEnd el) v;
     Directive.selectionStart := Directive.selectionStart el + 1;
     Directive.selectionEnd := Directive.selectionStart el + 1 |}.

Definition press (fuel : nat) (handler : Directive.handler) (c : ascii)
    (el : Directive.input) : option Directive.input :=
  if Directive.handleKeydown handler
       {| Directive.key := [c]; Directive.ctrlKey := false;
          Directive.metaKey := false |} el
  then Some el
  else Directive.handleInput fuel handler (insert_key el c).

Fixpoint type_text (fuel : nat) (handler : Directive.handler)
    (keys : jsstring) (el : Directive.input) : option Directive.input :=
  match keys with
  | [] => Some el
  | c :: keys' =>
      match press fuel handler c el with
      | Some el' => type_text fuel handler keys' el'
      | None => None
      end
  end.

(** A field that holds [v], the cursor behind the text. *)
Definition at_end (v : jsstring) : Directive.input :=
  {| Directive.value := v; Directive.selectionStart := length v;
     Directive.selectionEnd := length v |}.

(** The value that typing at the end of the text leads to: a key that
    [isValidChar] accepts is appended and the text formatted, any other key
    is dropped. *)
Definition type_step (handler : Directive.handler) (v : jsstring) (c : ascii)
    : jsstring :=
  if Directive.isValidChar handler [c] v (length v) (Some (length v))
  then Directive.format handler (v ++ [c])
  else v.

Definition type_value (handler : Directive.handler) (keys v : jsstring)
    : jsstring :=
  fold_left (type_step handler) keys v.

(** Every key of [keys], typed one after the other behind [v], is accepted,
    and [format] leaves the text with the key behind it as it is. *)
Definition keys_kept (handler : Directive.handler) (keys v : jsstring)
    : Prop :=
  forall pre c suf, keys = pre ++ c :: suf ->
    Directive.isValidChar handler [c] (v ++ pre) (length (v ++ pre))
      (Some (length (v ++ pre))) = true /\
    Directive.format handler ((v ++ pre) ++ [c]) = (v ++ pre) ++ [c].

(** An IPv4 address in the making: up to three octets without leading
    zeros, each followed by a dot, then nothing or one more such octet. *)
Definition ipv4_partial (v : jsstring) : Prop :=
  exists done last,
    JS.split "." v = done ++ [last] /\ length done <= 3 /\
    Forall canonical_octet done /\ (last = [] \/ canonical_octet last).

(** A MAC address in the making: up to five pairs of hex digits, each
    followed by a colon, then at most two more hex digits. *)
Definition mac_partial (v : jsstring) : Prop :=
  exists done last,
    v = JS.join ":" (done ++ [last]) /\ length done <= 5 /\
    Forall hex_pair done /\ short_hex last.


(** ** The texts of IPv6 addresses

    A group of one to four hex digits; groups with a colon behind each, and
    with a colon in front of each; and the two shapes of an address: eight
    groups joined by colons, or [::] between two lists of groups, seven
    groups at most in all. *)
Definition hextet_text (s : jsstring) : Prop :=
  1 <= length s <= 4 /\ Forall (fun c => cls_hex c = true) s.

Definition colon_after (hs : list jsstring) : jsstring :=
  concat (map (fun h => h ++ [":"%char]) hs).

Definition colon_before (hs : list jsstring) : jsstring :=
  concat (map (fun h => ":"%char :: h) hs).

Definition ipv6_text (v : jsstring) : Prop :=
  (exists hs, v = JS.join ":" hs /\ length hs = 8 /\
              Forall hextet_text hs) \/
  (exists A B, v = JS.join ":" A ++ str "::" ++ JS.join ":" B /\
               length A + length B <= 7 /\
               Forall hextet_text A /\ Forall hextet_text B).

(** * Properties *)

(** ** The handlers on the sample values of the specification *)

Module Samples.

Example ipv4_format_samples :
  ipv4.format (str "192.168.1.1") = str "192.168.1.1" /\
  ipv4.format (str "192168") = str "192." /\
  ipv4.format (str "26") = str "26." /\
  ipv4.format (str "25") = str "25" /\
  ipv4.format (str "1.2.3.4.5") = str "1.2.3.4" /\
  ipv4.format (str "300.a1b.2") = str "255.1.2" /\
  type_keys ipv4.format (str "192168001001") = str "192.168.001.001".
Proof. repeat split; vm_compute; reflexivity. Qed.

Example ipv4_validate_samples :
  ipv4.validate (str "192.168.1.1") = true /\
  ipv4.validate (str "256.1.1.1") = false /\
  ipv4.validate (str "1.2.3") = false /\
  ipv4.validate [] = false.
Proof. repeat split; vm_compute; reflexivity. Qed.

Example ipv4_isValidChar_samples :
  ipv4.isValidChar (str ".") (str "192") 3 None = true /\
  ipv4.isValidChar (str ".") (str "192.") 4 None = false /\
  ipv4.isValidChar (str ".") (str "1.2.3.4") 1 None = false /\
  ipv4.isValidChar (str "1") (str "0") 1 None = false /\
  ipv4.isValidChar (str "6") (str "25") 2 None = false /\
  ipv4.isValidChar (str "5") (str "25") 2 None = true /\
  ipv4.isValidChar (str "x") (str "25") 2 None = false.
Proof. repeat split; vm_compute; reflexivity. Qed.

Example ipv6_samples :
  ipv6.format (str "2001:0db8:::1") = str "2001:0db8::1" /\
  ipv6.format (str "20g01:::::") = str "2001::" /\
  ipv6.validate (str "::1") = true /\
  ipv6.validate (str ":::") = false /\
  ipv6.validate (str "2001:0db8:85a3:0000:0000:8a2e:0370:7334") = true /\
  ipv6.validate (str "2001:0db8::1") = true /\
  ipv6.isValidChar (str "G") (str "2001") 4 None = false /\
  ipv6.isValidChar (str ":") (str "2001::0db8") 5 None = false /\
  ipv6.isValidChar (str ":") (str "2001:0db8") 4 None = true /\
  ipv6.isValidChar (str "a") (str "2001") 4 None = false.
Proof. repeat split; vm_compute; reflexivity. Qed.

Example mac_samples :
  mac.format (str "001A2B3C4D5E") = str "00:1A:2B:3C:4D:5E" /\
  mac.format (str "00-1A-2B") = str "00:1A:2B" /\
  mac.format (str "0:1A2") = str "01:A2" /\
  mac.format (str "00:1A:2B:3C:4D:5E:6F") = str "00:1A:2B:3C:4D:5E" /\
  mac.validate (str "00:1A:2B:3C:4D:5E") = true /\
  mac.validate (str "00:1A:2B:3C:4D") = false /\
  mac.isValidChar (str ":") (str "00") 2 None = true /\
  mac.isValidChar (str ":") (str "0") 1 None = false /\
  mac.isValidChar (str "G") (str "00") 2 None = false.
Proof. repeat split; vm_compute; reflexivity. Qed.

Example segment_samples :
  getSegmentBounds (str "192.168.1") 5 "." = (4%Z, 7%Z) /\
  getSegmentTextAt (str "192.168.1") 5 "." = str "168" /\
  getSegmentTextAt (str "192.168.1") 4 "." = str "168" /\
  getSegmentTextAt (str "192.168.1") 3 "." = str "192" /\
  getSegmentTextAt (str "192.168.1") 9 "." = str "1" /\
  simulateInsert (str "192.168.1") (str "x") 4 (Some 7) = str "192.x.1" /\
  countChar (str "192.168.1") "." = 2.
Proof. repeat split; vm_compute; reflexivity. Qed.

End Samples.

(** ** The derivative matcher decides the language *)

Module RegexFacts.
Import Regex.

Lemma nullable_lang (r : regex) : nullable r = true <-> lang r [].
Proof.
  induction r as [| |f|a IHa b IHb|a IHa b IHb|a IHa]; simpl.
  - split; [discriminate | tauto].
  - tauto.
  - split; [discriminate | intros (c & H & _); discriminate].
  - rewrite andb_true_iff, IHa, IHb. split.
    + intros [Ha Hb]. exists [], []. auto.
    + intros (s1 & s2 & E & Ha & Hb).
      symmetry in E. apply app_eq_nil in E as [-> ->]. auto.
  - rewrite orb_true_iff, IHa, IHb. tauto.
  - split; [intros _ | reflexivity]. exists []. auto.
Qed.

Lemma lang_mk_seq (a b : regex) (s : jsstring) :
  lang (mk_seq a b) s <-> lang (Seq a b) s.
Proof.
  assert (VL : forall x, lang (Seq Void x) s <-> False).
  { simpl. split; [intros (? & ? & _ & [] & _) | tauto]. }
  assert (VR : forall x, lang (Seq x Void) s <-> False).
  { simpl. split; [intros (? & ? & _ & _ & []) | tauto]. }
  assert (EL : forall x, lang (Seq Eps x) s <-> lang x s).
  { intros x. simpl. split.
    - intros (? & ? & -> & -> & H). exact H.
    - intros H. exists [], s. auto. }
  destruct a, b; unfold mk_seq; rewrite ?VL, ?VR, ?EL; simpl; tauto.
Qed.

Lemma lang_mk_alt (a b : regex) (s : jsstring) :
  lang (mk_alt a b) s <-> lang a s \/ lang b s.
Proof.
  destruct a; simpl mk_alt; try (destruct b; simpl; tauto).
Qed.

(** A word of [Star a] that starts with [c] splits into a word of [a] that
    starts with [c] and a word of [Star a]. *)
Lemma star_cons_inv (a : regex) (c : ascii) (s : jsstring)
    (ss : list jsstring) :
  concat ss = c :: s -> Forall (lang a) ss ->
  exists s1 s2, s = s1 ++ s2 /\ lang a (c :: s1) /\ lang (Star a) s2.
Proof.
  induction ss as [|w ss IH]; simpl; intros E F.
  - discriminate.
  - inversion F as [|? ? Hw Hss]; subst.
    destruct w as [|x w]; simpl in E.
    + auto.
    + injection E as -> <-. exists w, (concat ss).
      split; [reflexivity | split; [exact Hw |]]. exists ss. auto.
Qed.

Lemma deriv_lang (r : regex) (c : ascii) (s : jsstring) :
  lang (deriv c r) s <-> lang r (c :: s).
Proof.
  revert s.
  induction r as [| |f|a IHa b IHb|a IHa b IHb|a IHa]; intros s; simpl deriv.
  - simpl. tauto.
  - simpl. split; [tauto | discriminate].
  - destruct (f c) eqn:Hf; simpl.
    + split.
      * intros ->. exists c. auto.
      * intros (x & E & _). injection E as _ E. auto.
    + split; [tauto |].
      intros (x & E & Hx). injection E as -> _. congruence.
  - assert (D : lang (Seq (deriv c a) b) s \/ (lang a [] /\ lang b (c :: s))
                <-> lang (Seq a b) (c :: s)).
    { simpl. split.
      - intros [(s1 & s2 & -> & H1 & H2) | [Ha Hb]].
        + exists (c :: s1), s2. rewrite <- IHa. auto.
        + exists [], (c :: s). auto.
      - intros (s1 & s2 & E & H1 & H2). destruct s1 as [|x s1]; simpl in E.
        + right. subst s2. auto.
        + injection E as <- ->. left. exists s1, s2. rewrite IHa. auto. }
    rewrite <- D. destruct (nullable a) eqn:Na.
    + rewrite lang_mk_alt, lang_mk_seq, IHb.
      apply nullable_lang in Na. tauto.
    + rewrite lang_mk_seq. split; [tauto |].
      intros [H | [Ha _]]; [exact H |].
      apply nullable_lang in Ha. congruence.
  - rewrite lang_mk_alt, IHa, IHb. simpl. tauto.
  - rewrite lang_mk_seq. split.
    + intros (s1 & s2 & -> & H1 & (ss & -> & F)).
      exists ((c :: s1) :: ss). split; [reflexivity |].
      constructor; [apply IHa; exact H1 | exact F].
    + intros (ss & E & F). symmetry in E.
      destruct (star_cons_inv a c s ss E F) as (s1 & s2 & -> & H1 & H2).
      exists s1, s2. rewrite IHa. auto.
Qed.

Theorem matches_lang (r : regex) (s : jsstring) :
  matches r s = true <-> lang r s.
Proof.
  revert r. induction s as [|c s IH]; intros r; simpl.
  - apply nullable_lang.
  - rewrite IH. apply deriv_lang.
Qed.

(** An unanchored test looks for a substring in the language. *)
Lemma test_lang (r : regex) (s : jsstring) :
  test r s = true <-> exists l m t, s = l ++ m ++ t /\ lang r m.
Proof.
  unfold test. rewrite matches_lang. simpl.
  assert (A : forall w : jsstring, exists ss,
             w = concat ss /\ Forall (lang any_char) ss).
  { intros w. exists (map (fun c => [c]) w). split.
    - induction w; simpl; congruence.
    - apply Forall_forall. intros x Hx. apply in_map_iff in Hx as (c & <- & _).
      exists c. auto. }
  split.
  - intros (l & mt & -> & _ & m & t & -> & Hm & _). eauto.
  - intros (l & m & t & -> & Hm). exists l, (m ++ t).
    split; [reflexivity | split; [apply A |]].
    exists m, t. auto.
Qed.

End RegexFacts.

(** ** Characters *)

Module CharFacts.

Lemma code_inj (c c' : ascii) : code c = code c' -> c = c'.
Proof.
  unfold code. intros H.
  rewrite <- (ascii_nat_embedding c), <- (ascii_nat_embedding c'), H.
  reflexivity.
Qed.

Lemma in_range_spec (lo hi c : ascii) :
  in_range lo hi c = true <-> code lo <= code c <= code hi.
Proof.
  unfold in_range. rewrite andb_true_iff, !Nat.leb_le. tauto.
Qed.

Lemma cls_digit_spec (c : ascii) :
  cls_digit c = true <-> 48 <= code c <= 57.
Proof. apply in_range_spec. Qed.

Lemma cls_hex_spec (c : ascii) :
  cls_hex c = true <->
  48 <= code c <= 57 \/ 97 <= code c <= 102 \/ 65 <= code c <= 70.
Proof.
  unfold cls_hex. rewrite !orb_true_iff, !in_range_spec.
  change (code "0") with 48. change (code "9") with 57.
  change (code "a") with 97. change (code "f") with 102.
  change (code "A") with 65. change (code "F") with 70. tauto.
Qed.

Lemma eqb_code (c c' : ascii) : Ascii.eqb c c' = true <-> code c = code c'.
Proof.
  rewrite Ascii.eqb_eq. split; [now intros -> | apply code_inj].
Qed.

Lemma eqb_code_false (c c' : ascii) :
  Ascii.eqb c c' = false <-> code c <> code c'.
Proof.
  rewrite <- eqb_code. destruct (Ascii.eqb c c'); split; congruence.
Qed.

Lemma digit_value_spec (c : ascii) :
  JS.digit_value c = Z.of_nat (code c - 48).
Proof. reflexivity. Qed.

End CharFacts.

(** ** The string methods on natural indices *)

Module JSFacts.

Lemma slice_nat (v : jsstring) (a b : nat) :
  JS.slice v (Z.of_nat a) (Z.of_nat b) = firstn (b - a) (skipn a v).
Proof.
  unfold JS.slice, JS.rel_index.
  destruct (Z.ltb_spec (Z.of_nat a) 0); [lia |].
  destruct (Z.ltb_spec (Z.of_nat b) 0); [lia |].
  destruct (Nat.le_ge_cases a (length v)) as [Ha | Ha].
  - rewrite (Z.min_l (Z.of_nat a)) by lia. rewrite Nat2Z.id.
    destruct (Nat.le_ge_cases b (length v)) as [Hb | Hb].
    + rewrite Z.min_l by lia. f_equal. lia.
    + rewrite Z.min_r by lia.
      rewrite !firstn_all2; try reflexivity; rewrite length_skipn; lia.
  - rewrite (Z.min_r (Z.of_nat a)) by lia. rewrite Nat2Z.id.
    rewrite skipn_all, (skipn_all2 v Ha). now rewrite !firstn_nil.
Qed.

Lemma slice_prefix (v : jsstring) (n : nat) :
  JS.slice v 0 (Z.of_nat n) = firstn n v.
Proof.
  change 0%Z with (Z.of_nat 0). rewrite slice_nat. simpl. f_equal. lia.
Qed.

Lemma slice_from_nat (v : jsstring) (n : nat) :
  JS.slice_from v (Z.of_nat n) = skipn n v.
Proof.
  unfold JS.slice_from. rewrite slice_nat.
  apply firstn_all2. rewrite length_skipn. lia.
Qed.

Lemma starts_with_spec (v pat : jsstring) :
  JS.starts_with v pat = true <-> exists t, v = pat ++ t.
Proof.
  revert v. induction pat as [|p pat IH]; intros v; simpl.
  - split; [intros _; exists v |]; reflexivity.
  - destruct v as [|c v].
    + split; [discriminate | intros (t & E); discriminate].
    + rewrite andb_true_iff, IH. split.
      * intros [E (t & ->)]. apply Ascii.eqb_eq in E as ->. eauto.
      * intros (t & E). injection E as -> ->.
        split; [apply Ascii.eqb_refl | eauto].
Qed.

Lemma includes_spec (v pat : jsstring) :
  JS.includes v pat = true <-> exists l r, v = l ++ pat ++ r.
Proof.
  induction v as [|c v IH]; simpl.
  - rewrite orb_false_r, starts_with_spec. split.
    + intros (t & E). exists [], t. exact E.
    + intros (l & r & E). destruct l; simpl in E; [eauto |discriminate].
  - rewrite orb_true_iff, IH, starts_with_spec. split.
    + intros [(t & E) | (l & r & ->)].
      * exists [], t. exact E.
      * exists (c :: l), r. reflexivity.
    + intros (l & r & E). destruct l as [|x l]; simpl in E.
      * left. eauto.
      * injection E as -> ->. right. eauto.
Qed.

End JSFacts.

(** ** Replacing and listing matches

    The replacements and match lists of the handlers, in the direct form the
    proofs use: a filter, a count, one pass over the colon runs. *)

Module ReplaceFacts.
Import Regex.

Lemma longest_prefix_void (s : jsstring) : longest_prefix Void s = None.
Proof. induction s as [|c t IH]; simpl; [| rewrite IH]; reflexivity. Qed.

Lemma longest_prefix_eps (s : jsstring) : longest_prefix Eps s = Some 0.
Proof.
  destruct s as [|c t]; simpl; [| rewrite longest_prefix_void]; reflexivity.
Qed.

Lemma longest_prefix_cls (g : ascii -> bool) (s : jsstring) :
  longest_prefix (Cls g) s =
  match s with
  | c :: _ => if g c then Some 1 else None
  | [] => None
  end.
Proof.
  destruct s as [|c t]; simpl; [reflexivity |].
  destruct (g c); [rewrite longest_prefix_eps | rewrite longest_prefix_void];
    reflexivity.
Qed.

(** [longest_prefix] finds a prefix in the language, and the longest one. *)
Lemma longest_prefix_sound (r : regex) (s : jsstring) (n : nat) :
  longest_prefix r s = Some n -> n <= length s /\ lang r (firstn n s).
Proof.
  revert r n. induction s as [|c t IH]; intros r n; simpl.
  - destruct (nullable r) eqn:N; [| discriminate].
    intros [= <-]. split; [lia |]. now apply RegexFacts.nullable_lang.
  - destruct (longest_prefix (deriv c r) t) as [m|] eqn:E.
    + intros [= <-]. destruct (IH _ _ E) as [L H].
      split; [lia |]. simpl. now apply RegexFacts.deriv_lang.
    + destruct (nullable r) eqn:N; [| discriminate].
      intros [= <-]. split; [lia |]. now apply RegexFacts.nullable_lang.
Qed.

Lemma longest_prefix_longest (r : regex) (s : jsstring) (m : nat) :
  m <= length s -> lang r (firstn m s) ->
  exists n, longest_prefix r s = Some n /\ m <= n.
Proof.
  revert r m. induction s as [|c t IH]; intros r m L H.
  - simpl in L. replace m with 0 in * by lia. simpl in *.
    apply RegexFacts.nullable_lang in H. rewrite H. eauto.
  - destruct m as [|m].
    + simpl in H. apply RegexFacts.nullable_lang in H. simpl. rewrite H.
      destruct (longest_prefix (deriv c r) t) as [n|]; eexists;
        (split; [reflexivity | lia]).
    + simpl in H, L. apply RegexFacts.deriv_lang in H.
      destruct (IH _ m ltac:(lia) H) as (n & E & G).
      simpl. rewrite E. exists (S n). split; [reflexivity | lia].
Qed.

(** The scans end within [length s] steps: more fuel changes nothing. *)
Lemma replace_from_enough (r : regex) (repl : jsstring) (f1 f2 : nat)
    (s : jsstring) :
  length s <= f1 -> length s <= f2 ->
  replace_from f1 r repl s = replace_from f2 r repl s.
Proof.
  revert f2 s. induction f1 as [|f1 IH]; intros f2 s L1 L2.
  - destruct s; [| simpl in L1; lia]. destruct f2; reflexivity.
  - destruct s as [|c t]; [destruct f2; reflexivity |].
    destruct f2 as [|f2]; [simpl in L2; lia |].
    cbn [replace_from]. simpl in L1, L2.
    destruct (longest_prefix r (c :: t)) as [[|n]|].
    + f_equal. apply IH; lia.
    + f_equal. apply IH; rewrite length_skipn; lia.
    + f_equal. apply IH; lia.
Qed.

Lemma match_from_enough (r : regex) (f1 f2 : nat) (s : jsstring) :
  length s <= f1 -> length s <= f2 -> match_from f1 r s = match_from f2 r s.
Proof.
  revert f2 s. induction f1 as [|f1 IH]; intros f2 s L1 L2.
  - destruct s; [| simpl in L1; lia]. destruct f2; reflexivity.
  - destruct s as [|c t]; [destruct f2; reflexivity |].
    destruct f2 as [|f2]; [simpl in L2; lia |].
    cbn [match_from]. simpl in L1, L2.
    destruct (longest_prefix r (c :: t)) as [[|n]|].
    + apply IH; lia.
    + f_equal. apply IH; rewrite length_skipn; lia.
    + apply IH; lia.
Qed.

(** Deleting the characters outside a class keeps those inside. *)
Lemma replace_from_class (f : ascii -> bool) (fuel : nat) (s : jsstring) :
  length s <= fuel -> replace_from fuel (NotCls f) [] s = filter f s.
Proof.
  revert s. induction fuel as [|fuel IH]; intros s L.
  - destruct s; [reflexivity | simpl in L; lia].
  - destruct s as [|c t]; [reflexivity |].
    cbn [replace_from]. unfold NotCls at 1. rewrite longest_prefix_cls.
    simpl filter. simpl in L. destruct (f c); simpl.
    + f_equal. apply IH. lia.
    + apply IH. lia.
Qed.

Lemma replace_all_class (f : ascii -> bool) (s : jsstring) :
  replace_all (NotCls f) [] s = filter f s.
Proof. apply replace_from_class. lia. Qed.

(** Listing the matches of a literal character counts its occurrences. *)
Lemma match_from_chr (ch : ascii) (fuel : nat) (s : jsstring) :
  length s <= fuel -> length (match_from fuel (Chr ch) s) = count_char s ch.
Proof.
  unfold count_char. revert s. induction fuel as [|fuel IH]; intros s L.
  - destruct s; [reflexivity | simpl in L; lia].
  - destruct s as [|c t]; [reflexivity |].
    cbn [match_from]. unfold Chr at 1. rewrite longest_prefix_cls.
    simpl filter. simpl in L. destruct (Ascii.eqb c ch); simpl.
    + f_equal. apply IH. lia.
    + apply IH. lia.
Qed.

Lemma countChar_count (value : jsstring) (ch : ascii) :
  countChar value ch = count_char value ch.
Proof. apply match_from_chr. lia. Qed.

Lemma longest_prefix_cons (r : regex) (c : ascii) (t : jsstring) :
  longest_prefix r (c :: t) =
  match longest_prefix (deriv c r) t with
  | Some n => Some (S n)
  | None => if nullable r then Some 0 else None
  end.
Proof. reflexivity. Qed.

Lemma deriv_chr (c d : ascii) :
  deriv c (Chr d) = if Ascii.eqb c d then Eps else Void.
Proof. reflexivity. Qed.





End ReplaceFacts.

(** ** Segments *)

Module SegmentFacts.

Lemma split_not_nil (d : ascii) (s : jsstring) : JS.split d s <> [].
Proof.
  destruct s as [|c t]; simpl; [discriminate |].
  destruct (Ascii.eqb c d); [discriminate |].
  destruct (JS.split d t); discriminate.
Qed.

Lemma split_cons_other (d c : ascii) (t : jsstring) :
  Ascii.eqb c d = false ->
  JS.split d (c :: t) = (c :: hd [] (JS.split d t)) :: tl (JS.split d t).
Proof.
  intros E. simpl. rewrite E.
  destruct (JS.split d t) eqn:S; [now apply split_not_nil in S | reflexivity].
Qed.

Lemma last_index_none (d : ascii) (l : jsstring) :
  JS.last_index d l = None <-> count_char l d = 0.
Proof.
  unfold count_char. induction l as [|c t IH]; simpl; [tauto |].
  destruct (JS.last_index d t).
  - split; [discriminate |]. destruct (Ascii.eqb c d); simpl; intros H.
    + discriminate.
    + apply IH in H. discriminate.
  - destruct (Ascii.eqb c d); simpl.
    + split; discriminate.
    + rewrite <- IH. tauto.
Qed.

Lemma before_first_cons (d c : ascii) (t : jsstring) :
  before_first d (c :: t) =
  if Ascii.eqb c d then [] else c :: before_first d t.
Proof.
  unfold before_first. simpl. destruct (Ascii.eqb c d); [reflexivity |].
  destruct (JS.first_index d t); reflexivity.
Qed.

Lemma after_last_cons (d c : ascii) (t : jsstring) :
  after_last d (c :: t) =
  if Ascii.eqb c d || negb (count_char t d =? 0)%nat
  then after_last d t else c :: after_last d t.
Proof.
  unfold after_last. simpl.
  destruct (JS.last_index d t) eqn:L.
  - assert (count_char t d <> 0) as N.
    { rewrite <- last_index_none. congruence. }
    apply Nat.eqb_neq in N. rewrite N, orb_true_r. reflexivity.
  - apply last_index_none in L as N. rewrite N. simpl.
    destruct (Ascii.eqb c d); reflexivity.
Qed.

Lemma hd_split (d : ascii) (r : jsstring) :
  hd [] (JS.split d r) = before_first d r.
Proof.
  induction r as [|c t IH]; [reflexivity |].
  rewrite before_first_cons. destruct (Ascii.eqb c d) eqn:E.
  - simpl. rewrite E. reflexivity.
  - rewrite split_cons_other by exact E. simpl. now rewrite IH.
Qed.

(** The segment around an index is the text between the last delimiter left
    of the index and the first delimiter at or right of it. *)
Lemma segment_at_app (d : ascii) (l r : jsstring) :
  nth (count_char l d) (JS.split d (l ++ r)) [] =
  after_last d l ++ before_first d r.
Proof.
  induction l as [|c t IH].
  - simpl. rewrite <- hd_split. destruct (JS.split d r); reflexivity.
  - rewrite after_last_cons. unfold count_char in *. simpl app. simpl filter.
    destruct (Ascii.eqb c d) eqn:E.
    + simpl. rewrite E. exact IH.
    + rewrite split_cons_other by exact E. simpl orb.
      destruct (length (filter (fun c0 => Ascii.eqb c0 d) t)) as [|n] eqn:N.
      * simpl. rewrite <- IH. destruct (JS.split d (t ++ r)); reflexivity.
      * simpl negb. cbv iota. rewrite <- IH.
        change (nth (S n) ?x ?y) with (nth (S n) x y).
        destruct (JS.split d (t ++ r)) eqn:S; [now apply split_not_nil in S |].
        reflexivity.
Qed.

Lemma join_cons (d : ascii) (seg : jsstring) (rest : list jsstring) :
  rest <> [] -> JS.join d (seg :: rest) = seg ++ d :: JS.join d rest.
Proof. destruct rest; [congruence | reflexivity]. Qed.

Lemma join_split (d : ascii) (s : jsstring) : JS.join d (JS.split d s) = s.
Proof.
  induction s as [|c t IH]; [reflexivity |].
  destruct (Ascii.eqb c d) eqn:E.
  - simpl JS.split. rewrite E, join_cons by apply split_not_nil.
    apply Ascii.eqb_eq in E as ->. simpl. now rewrite IH.
  - rewrite split_cons_other by exact E. revert IH.
    destruct (JS.split d t) as [|seg [|seg' rest]] eqn:S; simpl.
    + now apply split_not_nil in S.
    + now intros ->.
    + now intros <-.
Qed.

Lemma split_app_delim (d : ascii) (seg rest : jsstring) :
  ~ In d seg -> JS.split d (seg ++ d :: rest) = seg :: JS.split d rest.
Proof.
  induction seg as [|c seg IH]; intros N.
  - simpl. now rewrite Ascii.eqb_refl.
  - assert (E : Ascii.eqb c d = false).
    { apply Ascii.eqb_neq. intros ->. apply N. now left. }
    simpl app. rewrite split_cons_other by exact E.
    rewrite IH by (intros H; apply N; now right). reflexivity.
Qed.

Lemma split_no_delim (d : ascii) (seg : jsstring) :
  ~ In d seg -> JS.split d seg = [seg].
Proof.
  induction seg as [|c seg IH]; intros N; [reflexivity |].
  assert (E : Ascii.eqb c d = false).
  { apply Ascii.eqb_neq. intros ->. apply N. now left. }
  rewrite split_cons_other by exact E.
  rewrite IH by (intros H; apply N; now right). reflexivity.
Qed.

Lemma split_join (d : ascii) (segs : list jsstring) :
  segs <> [] -> Forall (fun seg => ~ In d seg) segs ->
  JS.split d (JS.join d segs) = segs.
Proof.
  induction segs as [|seg rest IH]; intros N F; [congruence |].
  inversion F as [|? ? Hseg Hrest]; subst.
  destruct rest as [|seg' rest].
  - simpl. now apply split_no_delim.
  - rewrite join_cons by discriminate.
    rewrite split_app_delim by exact Hseg.
    rewrite IH by (discriminate || exact Hrest). reflexivity.
Qed.

Lemma split_segments (d : ascii) (s : jsstring) :
  Forall (fun seg => ~ In d seg) (JS.split d s).
Proof.
  induction s as [|c t IH]; simpl.
  - constructor; [tauto | constructor].
  - destruct (Ascii.eqb c d) eqn:E.
    + constructor; [tauto | exact IH].
    + destruct (JS.split d t) as [|seg rest]; [repeat constructor |].
      * intros [-> | []]. now rewrite Ascii.eqb_refl in E.
      * inversion IH; subst. constructor; [| assumption].
        intros [-> | H]; [now rewrite Ascii.eqb_refl in E | tauto].
Qed.

Lemma length_split (d : ascii) (s : jsstring) :
  length (JS.split d s) = S (count_char s d).
Proof.
  unfold count_char. induction s as [|c t IH]; [reflexivity |].
  destruct (Ascii.eqb c d) eqn:E.
  - simpl. rewrite E. simpl. now rewrite IH.
  - rewrite split_cons_other by exact E. simpl. rewrite E, <- IH.
    destruct (JS.split d t) eqn:S; [now apply split_not_nil in S | reflexivity].
Qed.

Lemma join_snoc (d : ascii) (segs : list jsstring) (seg : jsstring) :
  segs <> [] -> JS.join d (segs ++ [seg]) = JS.join d segs ++ d :: seg.
Proof.
  induction segs as [|x rest IH]; intros N; [congruence |].
  destruct rest as [|y rest]; [reflexivity |].
  change ((x :: y :: rest) ++ [seg]) with (x :: ((y :: rest) ++ [seg])).
  rewrite !join_cons by (discriminate || (simpl; discriminate)).
  rewrite IH by discriminate. now rewrite <- app_assoc.
Qed.

Lemma last_index_lt (d : ascii) (l : jsstring) (j : nat) :
  JS.last_index d l = Some j -> j < length l.
Proof.
  revert j. induction l as [|c t IH]; simpl; intros j; [discriminate |].
  destruct (JS.last_index d t) as [i|].
  - intros [= <-]. specialize (IH i eq_refl). lia.
  - destruct (Ascii.eqb c d); [intros [= <-]; lia | discriminate].
Qed.

Lemma getSegmentBounds_nat (value : jsstring) (index : nat) (d : ascii) :
  getSegmentBounds value index d =
  (Z.of_nat (bound_start value index d), Z.of_nat (bound_end value index d)).
Proof.
  unfold getSegmentBounds, JS.lastIndexOf, JS.indexOf, bound_start, bound_end.
  replace (Z.to_nat (Z.max (Z.of_nat index - 1) 0)) with (index - 1) by lia.
  replace (Z.to_nat (Z.max (Z.of_nat index) 0)) with index by lia.
  f_equal.
  - destruct (JS.last_index d (firstn (S (index - 1)) value)); lia.
  - destruct (JS.first_index d (skipn index value)) as [j|].
    + destruct (Z.eqb_spec (Z.of_nat (index + j)) (-1)); [lia | reflexivity].
    + reflexivity.
Qed.

Lemma getSegmentTextAt_nat (value : jsstring) (index : nat) (d : ascii) :
  getSegmentTextAt value index d =
  firstn (bound_end value index d - bound_start value index d)
         (skipn (bound_start value index d) value).
Proof.
  unfold getSegmentTextAt. rewrite getSegmentBounds_nat.
  apply JSFacts.slice_nat.
Qed.

Lemma segment_cut (l r : jsstring) (s extra : nat) :
  s <= length l ->
  firstn (length l + extra - s) (skipn s (l ++ r)) =
  skipn s l ++ firstn extra r.
Proof.
  intros Hs. rewrite skipn_app.
  replace (s - length l) with 0 by lia. simpl skipn.
  replace (length l + extra - s) with (length (skipn s l) + extra)
    by (rewrite length_skipn; lia).
  apply firstn_app_2.
Qed.

Theorem getSegmentTextAt_split (value : jsstring) (index : nat) (d : ascii) :
  getSegmentTextAt value index d =
  after_last d (firstn index value) ++ before_first d (skipn index value).
Proof.
  rewrite getSegmentTextAt_nat. unfold bound_start, bound_end.
  destruct index as [|p].
  - simpl skipn. simpl firstn at 3. destruct value as [|c t]; [reflexivity |].
    unfold after_last, before_first. simpl.
    destruct (Ascii.eqb c d) eqn:E; [reflexivity |].
    destruct (JS.first_index d t) as [j|]; simpl.
    + reflexivity.
    + f_equal. apply firstn_all.
  - replace (S (S p - 1)) with (S p) by lia.
    set (l := firstn (S p) value). set (r := skipn (S p) value).
    assert (V : value = l ++ r) by (symmetry; apply firstn_skipn).
    assert (L : length l = S p \/ r = []).
    { destruct (Nat.le_gt_cases (S p) (length value)) as [H | H].
      - left. apply firstn_length_le. exact H.
      - right. apply skipn_all2. lia. }
    assert (S0 : match JS.last_index d l with Some j => S j | None => 0 end
                 <= length l).
    { destruct (JS.last_index d l) eqn:E; [| lia].
      apply last_index_lt in E. lia. }
    assert (A : after_last d l =
                skipn (match JS.last_index d l with
                       | Some j => S j
                       | None => 0
                       end) l).
    { unfold after_last. destruct (JS.last_index d l); reflexivity. }
    rewrite A. clear A. revert S0.
    generalize (match JS.last_index d l with Some j => S j | None => 0 end).
    intros s Hs. unfold before_first. clearbody l r. subst value.
    destruct (JS.first_index d r) as [j|] eqn:F.
    + destruct L as [L | L]; [| rewrite L in F; discriminate].
      rewrite <- L. apply segment_cut. exact Hs.
    + rewrite length_app, segment_cut by exact Hs. now rewrite firstn_all.
Qed.

Corollary getSegmentTextAt_segment (value : jsstring) (index : nat)
    (d : ascii) :
  getSegmentTextAt value index d = segment_at value index d.
Proof.
  rewrite getSegmentTextAt_split. unfold segment_at.
  rewrite ReplaceFacts.countChar_count.
  rewrite <- (firstn_skipn index value) at 4. symmetry. apply segment_at_app.
Qed.

End SegmentFacts.

(** ** Acceptance of a colon *)

Module ColonFacts.

Lemma starts_with_char (x : jsstring) (c : ascii) :
  JS.starts_with x [c] = true <-> hd_error x = Some c.
Proof.
  destruct x as [|y x]; simpl.
  - split; discriminate.
  - rewrite andb_true_r, Ascii.eqb_eq. split; congruence.
Qed.

Lemma endsWith_char_left (value : jsstring) (pos : nat) (c : ascii) :
  JS.endsWith (JS.slice value 0 (Z.of_nat pos)) [c] = true <->
  char_left value pos = Some c.
Proof.
  rewrite JSFacts.slice_prefix. unfold JS.endsWith, char_left.
  apply starts_with_char.
Qed.

Lemma startsWith_char_right (value : jsstring) (pos : nat) (c : ascii) :
  JS.startsWith (JS.slice_from value (Z.of_nat pos)) [c] = true <->
  char_right value pos = Some c.
Proof.
  rewrite JSFacts.slice_from_nat. unfold JS.startsWith, char_right.
  apply starts_with_char.
Qed.

Lemma test_colon_run3 (s : jsstring) :
  Regex.test (AtLeast 3 (Chr ":")) s = true <-> has_colon_run3 s.
Proof.
  rewrite RegexFacts.test_lang. unfold has_colon_run3. split.
  - intros (l & m & t & -> & H). simpl in H.
    destruct H as (s1 & s2 & -> & H1 & _).
    destruct H1 as (x1 & y1 & -> & (c1 & -> & E1) & H1).
    destruct H1 as (x2 & y2 & -> & (c2 & -> & E2) & H1).
    destruct H1 as (x3 & y3 & -> & (c3 & -> & E3) & ->).
    apply Ascii.eqb_eq in E1 as ->, E2 as ->, E3 as ->.
    exists l, (s2 ++ t). simpl. rewrite <- ?app_assoc. reflexivity.
  - intros (l & r & ->). exists l, (str ":::"), r. split; [reflexivity |].
    exists (str ":::"), []. split; [reflexivity | split].
    + exists [":"%char], (str "::"). split; [reflexivity | split].
      * exists ":"%char. auto.
      * exists [":"%char], [":"%char]. split; [reflexivity | split].
        -- exists ":"%char. auto.
        -- exists [":"%char], []. split; [reflexivity | split]; [| reflexivity].
           exists ":"%char. auto.
    + exists []. auto.
Qed.





End ColonFacts.



(** C8.  The cursor recalculator returns the smaller of the old cursor and
    the new length when the value got shorter, the old cursor moved by the
    growth when it got longer, and the old cursor when the length is
    unchanged; a dot inserted behind "192.168.1" moves the caret from 9 to
    10. *)
Theorem computeNewCursorPosition_cases (oldValue newValue : jsstring)
    (oldCursor : Z) :
  (length newValue < length oldValue ->
   computeNewCursorPosition oldValue newValue oldCursor =
   Z.min oldCursor (Z.of_nat (length newValue))) /\
  (length oldValue < length newValue ->
   computeNewCursorPosition oldValue newValue oldCursor =
   (oldCursor + (Z.of_nat (length newValue) - Z.of_nat (length oldValue)))%Z) /\
  (length newValue = length oldValue ->
   computeNewCursorPosition oldValue newValue oldCursor = oldCursor) /\
  computeNewCursorPosition (str "192.168.1") (str "192.168.1.") 9 = 10%Z.
Proof.
  unfold computeNewCursorPosition. repeat split; try reflexivity; intros H.
  - apply Nat.ltb_lt in H. now rewrite H.
  - destruct (Nat.ltb_spec (length newValue) (length oldValue)); [lia |].
    apply Nat.ltb_lt in H. now rewrite H.
  - rewrite H, Nat.ltb_irrefl. reflexivity.
Qed.

Lemma computeNewCursorPosition_witness :
  length (str "192.168.1") < length (str "192.168.1.") /\
  computeNewCursorPosition (str "192.168.1") (str "192.168.1.") 9 =
  (9 + (Z.of_nat (length (str "192.168.1."))
        - Z.of_nat (length (str "192.168.1"))))%Z.
Proof.
  split; [simpl; lia |].
  apply (proj1 (proj2 (computeNewCursorPosition_cases
                         (str "192.168.1") (str "192.168.1.") 9%Z))).
  simpl. lia.
Defined.

(** C6.  Typing "001A2B3C4D5E" into an empty MAC field, one character at a
    time, ends with "00:1A:2B:3C:4D:5E"; on the way the colon-free lines
    re-chunk the value whenever a third character joins the last pair (and
    while no colon is there yet), and the colon-aware branch keeps the value
    whenever the last pair is being completed. *)
Theorem mac_typing_example :
  type_keys mac.format (str "001A2B3C4D5E") = str "00:1A:2B:3C:4D:5E" /\
  map snd (type_trace mac.format [] (str "001A2B3C4D5E")) =
  map str ["0"; "00"; "00:1"; "00:1A"; "00:1A:2"; "00:1A:2B"; "00:1A:2B:3";
           "00:1A:2B:3C"; "00:1A:2B:3C:4"; "00:1A:2B:3C:4D";
           "00:1A:2B:3C:4D:5"; "00:1A:2B:3C:4D:5E"]%string /\
  map (fun step => mac.colon_aware (fst step))
      (type_trace mac.format [] (str "001A2B3C4D5E")) =
  [None; None; None; Some (str "00:1A"); None; Some (str "00:1A:2B"); None;
   Some (str "00:1A:2B:3C"); None; Some (str "00:1A:2B:3C:4D"); None;
   Some (str "00:1A:2B:3C:4D:5E")].
Proof. repeat split; vm_compute; reflexivity. Qed.

(** ** The loop of the IPv4 [format] *)

Module Ipv4LoopFacts.

Lemma ipv4_format_filter (x : jsstring) :
  ipv4.format x =
  JS.join "."
    (ipv4.format_loop
       (Nat.min (length (JS.split "." (filter cls_digit_dot x))) 4) 0
       (JS.split "." (filter cls_digit_dot x)) []).
Proof.
  unfold ipv4.format. now rewrite ReplaceFacts.replace_all_class.
Qed.

Lemma format_step_spec (segments validSegments : list jsstring) (i : nat) :
  ipv4.format_step segments validSegments i =
  validSegments ++ [ipv4_cleanup (nth i segments [])] ++
  (if (i <? 3)%nat && (i =? length segments - 1)%nat
      && ipv4_complete (ipv4_cleanup (nth i segments []))
   then [[]] else []).
Proof.
  unfold ipv4.format_step.
  set (segment := nth i segments []).
  assert (C : (if (3 <? length segment)%nat
               then JS.slice segment 0 3 else segment) = firstn 3 segment).
  { destruct (Nat.ltb_spec 3 (length segment)).
    - apply (JSFacts.slice_prefix segment 3).
    - symmetry. apply firstn_all2. assumption. }
  rewrite C.
  assert (D : match JS.parseInt (firstn 3 segment) with
              | Some n => if (255 <? n)%Z then str "255" else firstn 3 segment
              | None => firstn 3 segment
              end = ipv4_cleanup segment).
  { unfold ipv4_cleanup, JS.gt.
    destruct (JS.parseInt (firstn 3 segment)); reflexivity. }
  rewrite D. unfold ipv4_complete.
  set (seg := ipv4_cleanup segment).
  destruct (i <? 3)%nat, (i =? length segments - 1)%nat; simpl andb;
    cbv iota; try (rewrite <- ?app_assoc; reflexivity).
  destruct (Nat.ltb_spec 0 (length seg)) as [P | P].
  - destruct (length seg =? 3)%nat; simpl orb; cbv iota;
      [now rewrite <- app_assoc |].
    destruct ((length seg =? 2)%nat && _); rewrite <- ?app_assoc; reflexivity.
  - replace (length seg) with 0 by lia. simpl. rewrite <- ?app_assoc.
    reflexivity.
Qed.

(** The whole loop: the first four segments cleaned up, and one empty
    segment behind them when the last segment stands at an index below 3 and
    is complete. *)
Lemma format_loop_spec (segments : list jsstring) :
  ipv4.format_loop (Nat.min (length segments) 4) 0 segments [] =
  map ipv4_cleanup (firstn 4 segments) ++
  (if (length segments - 1 <? 3)%nat
      && ipv4_complete (ipv4_cleanup (nth (length segments - 1) segments []))
   then [[]] else []).
Proof.
  destruct segments as [|a [|b [|c [|d [|e rest]]]]];
    cbn [length Nat.min ipv4.format_loop];
    rewrite ?format_step_spec;
    cbn [length Nat.sub Nat.ltb Nat.leb Nat.eqb nth andb firstn map app];
    rewrite ?app_nil_r; reflexivity.
Qed.

End Ipv4LoopFacts.

(** C4.  In the loop of the IPv4 [format] every round pushes the cleaned
    segment, and pushes an empty segment behind it exactly when the index is
    below 3, the segment is the last one present, and the cleaned segment is
    complete (three characters, or two that a further "0" would take over
    255).  So the loop leaves the first four segments cleaned up, followed
    by one empty segment exactly in that case, and the output then ends with
    an inserted dot. *)
Theorem ipv4_format_trailing_segment (value : jsstring) :
  let cleaned := Regex.replace_all (NotCls cls_digit_dot) [] value in
  let segments := JS.split "." cleaned in
  let last_i := length segments - 1 in
  let kept := map ipv4_cleanup (firstn 4 segments) in
  let appended :=
    (last_i <? 3)%nat
    && ipv4_complete (ipv4_cleanup (nth last_i segments [])) in
  (forall validSegments i,
     ipv4.format_step segments validSegments i =
     validSegments ++ [ipv4_cleanup (nth i segments [])] ++
     (if (i <? 3)%nat && (i =? last_i)%nat
         && ipv4_complete (ipv4_cleanup (nth i segments []))
      then [[]] else [])) /\
  ipv4.format_loop (Nat.min (length segments) 4) 0 segments [] =
    kept ++ (if appended then [[]] else []) /\
  ipv4.format value =
    JS.join "." kept ++ (if appended then str "." else []).
Proof.
  intros cleaned segments last_i kept appended.
  split; [intros; apply Ipv4LoopFacts.format_step_spec |].
  split; [apply Ipv4LoopFacts.format_loop_spec |].
  unfold ipv4.format. fold cleaned segments.
  rewrite Ipv4LoopFacts.format_loop_spec. fold last_i kept appended.
  destruct appended.
  - apply SegmentFacts.join_snoc. unfold kept.
    pose proof (SegmentFacts.split_not_nil "." cleaned).
    fold segments in H. destruct segments; [congruence | discriminate].
  - now rewrite !app_nil_r.
Qed.

(** ** The IPv4 pattern *)

Module Ipv4RegexFacts.
Import Regex.

Lemma lang_cls_seq (f : ascii -> bool) (r : regex) (s : jsstring) :
  lang (Seq (Cls f) r) s <-> exists c t, s = c :: t /\ f c = true /\ lang r t.
Proof.
  simpl. split.
  - intros (s1 & s2 & -> & (c & -> & Hc) & Hr). exists c, s2. auto.
  - intros (c & t & -> & Hc & Hr). exists [c], t. eauto.
Qed.

Lemma lang_opt_seq (a r : regex) (s : jsstring) :
  lang (Seq (Opt a) r) s <-> lang (Seq a r) s \/ lang r s.
Proof.
  simpl. split.
  - intros (s1 & s2 & -> & [Ha | ->] & Hr); [left; eauto | right; exact Hr].
  - intros [(s1 & s2 & -> & Ha & Hr) | Hr]; [eauto 6 |].
    exists [], s. auto.
Qed.

Lemma lang_cls (f : ascii -> bool) (s : jsstring) :
  lang (Cls f) s <-> exists c, s = [c] /\ f c = true.
Proof. reflexivity. Qed.

Lemma lang_opt (a : regex) (s : jsstring) :
  lang (Opt a) s <-> lang a s \/ s = [].
Proof. reflexivity. Qed.

Lemma decimal3 (c1 c2 c3 : ascii) :
  JS.decimal [c1; c2; c3] =
  (100 * JS.digit_value c1 + 10 * JS.digit_value c2 + JS.digit_value c3)%Z.
Proof. unfold JS.decimal. cbn [fold_left]. lia. Qed.

Lemma decimal2 (c1 c2 : ascii) :
  JS.decimal [c1; c2] = (10 * JS.digit_value c1 + JS.digit_value c2)%Z.
Proof. unfold JS.decimal. cbn [fold_left]. lia. Qed.

Lemma decimal1 (c1 : ascii) : JS.decimal [c1] = JS.digit_value c1.
Proof. unfold JS.decimal. cbn [fold_left]. lia. Qed.

Ltac char_facts :=
  repeat match goal with
  | H : Ascii.eqb _ _ = true |- _ => apply CharFacts.eqb_code in H
  | H : cls_digit _ = true |- _ => apply CharFacts.cls_digit_spec in H
  | H : in_range _ _ _ = true |- _ => apply CharFacts.in_range_spec in H
  | H : ipv4.cls_01 _ = true |- _ =>
      apply orb_true_iff in H; rewrite !CharFacts.eqb_code in H
  | H : Forall _ (_ :: _) |- _ => inversion H; clear H; subst
  | H : Forall _ [] |- _ => clear H
  end;
  change (code "0") with 48 in *; change (code "1") with 49 in *;
  change (code "2") with 50 in *; change (code "4") with 52 in *;
  change (code "5") with 53 in *; change (code "9") with 57 in *.

Ltac digits_goal :=
  repeat first
    [ apply Forall_nil
    | apply Forall_cons; [apply CharFacts.cls_digit_spec; lia |] ].

(** The octet pattern reads exactly the texts of one to three digits whose
    number is at most 255. *)
Lemma octet_lang (s : jsstring) : lang ipv4.octet s <-> octet_text s.
Proof.
  unfold ipv4.octet, octet_text, Chr. split.
  - intros [H | [H | H]].
    + apply lang_cls_seq in H as (c1 & t1 & -> & E1 & H).
      apply lang_cls_seq in H as (c2 & t2 & -> & E2 & H).
      apply lang_cls in H as (c3 & -> & E3). char_facts.
      rewrite decimal3, !CharFacts.digit_value_spec.
      repeat split; cbn [length]; try lia. digits_goal.
    + apply lang_cls_seq in H as (c1 & t1 & -> & E1 & H).
      apply lang_cls_seq in H as (c2 & t2 & -> & E2 & H).
      apply lang_cls in H as (c3 & -> & E3). char_facts.
      rewrite decimal3, !CharFacts.digit_value_spec.
      repeat split; cbn [length]; try lia. digits_goal.
    + apply lang_opt_seq in H as [H | H].
      * apply lang_cls_seq in H as (c1 & t1 & -> & E1 & H).
        apply lang_cls_seq in H as (c2 & t2 & -> & E2 & H).
        apply lang_opt in H as [(c3 & -> & E3) | ->]; char_facts.
        -- rewrite decimal3, !CharFacts.digit_value_spec.
           repeat split; cbn [length]; try lia. digits_goal.
        -- rewrite decimal2, !CharFacts.digit_value_spec.
           repeat split; cbn [length]; try lia. digits_goal.
      * apply lang_cls_seq in H as (c2 & t2 & -> & E2 & H).
        apply lang_opt in H as [(c3 & -> & E3) | ->]; char_facts.
        -- rewrite decimal2, !CharFacts.digit_value_spec.
           repeat split; cbn [length]; try lia. digits_goal.
        -- rewrite decimal1, !CharFacts.digit_value_spec.
           repeat split; cbn [length]; try lia. digits_goal.
  - intros (L & D & V).
    destruct s as [|c1 [|c2 [|c3 [|c4 s]]]]; simpl in L; try lia.
    + right. right. apply lang_opt_seq. right.
      apply lang_cls_seq. exists c1, []. inversion D; subst.
      repeat split; [assumption |]. right. reflexivity.
    + right. right. apply lang_opt_seq. right.
      apply lang_cls_seq. exists c1, [c2]. inversion D as [|? ? ? D']; subst.
      inversion D'; subst.
      repeat split; [assumption |]. left. exists c2. auto.
    + rewrite decimal3, !CharFacts.digit_value_spec in V.
      inversion D as [|? ? K1 D2]; subst. inversion D2 as [|? ? K2 D3]; subst.
      inversion D3 as [|? ? K3 _]; subst.
      pose proof (proj1 (CharFacts.cls_digit_spec _) K1) as N1.
      pose proof (proj1 (CharFacts.cls_digit_spec _) K2) as N2.
      pose proof (proj1 (CharFacts.cls_digit_spec _) K3) as N3.
      destruct (Nat.le_gt_cases (code c1) 49) as [A | A].
      * right. right. apply lang_opt_seq. left.
        apply lang_cls_seq. exists c1, [c2; c3]. repeat split.
        -- apply orb_true_iff. rewrite !CharFacts.eqb_code.
           change (code "0") with 48. change (code "1") with 49. lia.
        -- apply lang_cls_seq. exists c2, [c3]. repeat split; [assumption |].
           left. exists c3. auto.
      * assert (E1 : Ascii.eqb c1 "2" = true).
        { apply CharFacts.eqb_code. change (code "2") with 50. lia. }
        destruct (Nat.le_gt_cases (code c2) 52) as [B | B].
        -- right. left. apply lang_cls_seq. exists c1, [c2; c3].
           repeat split; [assumption |].
           apply lang_cls_seq. exists c2, [c3]. repeat split.
           ++ apply CharFacts.in_range_spec.
              change (code "0") with 48. change (code "4") with 52. lia.
           ++ exists c3. auto.
        -- left. apply lang_cls_seq. exists c1, [c2; c3].
           repeat split; [assumption |].
           apply lang_cls_seq. exists c2, [c3]. repeat split.
           ++ apply CharFacts.eqb_code. change (code "5") with 53. lia.
           ++ exists c3. split; [reflexivity |].
              apply CharFacts.in_range_spec.
              change (code "0") with 48. change (code "5") with 53. lia.
Qed.

Lemma lang_octet_dot (r : regex) (v : jsstring) :
  lang (Seq ipv4.octet (Seq (Chr ".") r)) v <->
  exists a t, v = a ++ "."%char :: t /\ octet_text a /\ lang r t.
Proof.
  split.
  - intros (a & s2 & -> & Ha & H). apply octet_lang in Ha.
    apply lang_cls_seq in H as (c & t & -> & E & H).
    apply Ascii.eqb_eq in E as ->. eauto.
  - intros (a & t & -> & Ha & H). exists a, ("."%char :: t).
    split; [reflexivity | split; [now apply octet_lang |]].
    apply lang_cls_seq. exists "."%char, t. auto.
Qed.

Lemma octet_no_dot (s : jsstring) : octet_text s -> ~ In "."%char s.
Proof.
  intros (_ & D & _) H. rewrite Forall_forall in D. apply D in H.
  discriminate.
Qed.

(** The validation pattern accepts exactly the texts of four octets joined
    by dots. *)
Lemma validate_dotted_quad (v : jsstring) :
  ipv4.validate v = true <-> dotted_quad octet_text v.
Proof.
  unfold ipv4.validate, test_anchored, ipv4.ipv4Regex, dotted_quad.
  rewrite RegexFacts.matches_lang. split.
  - intros H.
    apply lang_octet_dot in H as (a & t1 & -> & Ha & H).
    apply lang_octet_dot in H as (b & t2 & -> & Hb & H).
    apply lang_octet_dot in H as (c & d & -> & Hc & Hd).
    apply octet_lang in Hd. exists a, b, c, d.
    split; [| auto].
    apply (SegmentFacts.split_join "." [a; b; c; d]); [discriminate |].
    repeat constructor; now apply octet_no_dot.
  - intros (a & b & c & d & E & Ha & Hb & Hc & Hd).
    rewrite <- (SegmentFacts.join_split "." v), E. simpl JS.join.
    apply lang_octet_dot. exists a, (b ++ "."%char :: c ++ "."%char :: d).
    split; [reflexivity | split; [assumption |]].
    apply lang_octet_dot. exists b, (c ++ "."%char :: d).
    split; [reflexivity | split; [assumption |]].
    apply lang_octet_dot. exists c, d.
    split; [reflexivity | split; [assumption |]]. now apply octet_lang.
Qed.

End Ipv4RegexFacts.

(** C2, as the code has it.  The IPv4 [validate] accepts exactly the texts
    of four segments between dots, each one to three decimal digits reading
    as a number from 0 to 255; leading zeros are accepted, so "01.1.1.1" and
    "001.002.003.004" are valid. *)
Theorem ipv4_validate_dotted_quad (v : jsstring) :
  (ipv4.validate v = true <-> dotted_quad octet_text v) /\
  ipv4.validate (str "01.1.1.1") = true /\
  ipv4.validate (str "001.002.003.004") = true.
Proof.
  split; [apply Ipv4RegexFacts.validate_dotted_quad |].
  split; reflexivity.
Qed.

(** C2, as stated, fails: "01.1.1.1" is accepted although its first segment
    has a leading zero. *)
Lemma ipv4_validate_leading_zero :
  ipv4.validate (str "01.1.1.1") = true /\
  ~ dotted_quad canonical_octet (str "01.1.1.1").
Proof.
  split; [reflexivity |].
  intros (a & b & c & d & E & (_ & Ha) & _).
  injection E as <- _ _ _. apply Ha; [simpl; lia | reflexivity].
Qed.


(** ** The colon-run automaton *)

Module AutomatonFacts.
Import Regex.

Lemma mem_union (q : colon_state) (S T : state_set) :
  mem q (union S T) = mem q S || mem q T.
Proof. destruct q; reflexivity. Qed.

Lemma mem_only (q : colon_state) : mem q (only q) = true.
Proof. destruct q; reflexivity. Qed.

Lemma mem_every (q : colon_state) : mem q every_state = true.
Proof. destruct q; reflexivity. Qed.

Lemma subset_mem (S T : state_set) (q : colon_state) :
  subset S T = true -> mem q S = true -> mem q T = true.
Proof.
  unfold subset. rewrite !andb_true_iff. intros [[[H0 H1] H2] HB].
  destruct q; simpl; intros E; rewrite E in *; assumption.
Qed.

(** A fold that unites the sets [g x] of the elements [x] that pass [keep]
    holds every such set, and what it started from. *)
Lemma fold_union_start (A : Type) (keep : A -> bool) (g : A -> state_set)
    (l : list A) (acc : state_set) (q : colon_state) :
  mem q acc = true ->
  mem q (fold_left (fun acc x => if keep x then union acc (g x) else acc)
                   l acc) = true.
Proof.
  revert acc. induction l as [|x l IH]; intros acc H; simpl; [exact H |].
  apply IH. destruct (keep x); [| exact H].
  rewrite mem_union, H. reflexivity.
Qed.

Lemma fold_union_elem (A : Type) (keep : A -> bool) (g : A -> state_set)
    (l : list A) (acc : state_set) (q : colon_state) (x : A) :
  In x l -> keep x = true -> mem q (g x) = true ->
  mem q (fold_left (fun acc x => if keep x then union acc (g x) else acc)
                   l acc) = true.
Proof.
  revert acc. induction l as [|y l IH]; intros acc I K M; simpl in *.
  - contradiction.
  - destruct I as [-> | I].
    + apply fold_union_start. rewrite K, mem_union, M. apply orb_true_r.
    + apply IH; assumption.
Qed.

Lemma step_set_sound (S : state_set) (q : colon_state) (c : ascii) :
  mem q S = true -> mem (colon_step q c) (step_set S c) = true.
Proof.
  intros H. unfold step_set.
  apply (fold_union_elem colon_state (fun q => mem q S)
           (fun q => only (colon_step q c)) _ _ _ q).
  - destruct q; simpl; tauto.
  - exact H.
  - apply mem_only.
Qed.

Lemma in_all_chars (c : ascii) : In c all_chars.
Proof.
  unfold all_chars. rewrite <- (ascii_nat_embedding c).
  apply in_map, in_seq. pose proof (nat_ascii_bounded c). lia.
Qed.

Lemma iterate_extends (f : state_set -> state_set) (n : nat) (S : state_set)
    (q : colon_state) :
  mem q S = true -> mem q (iterate n f S) = true.
Proof.
  revert S. induction n as [|n IH]; intros S H; simpl; [exact H |].
  apply IH. rewrite mem_union, H. reflexivity.
Qed.

Lemma colon_run_app (q : colon_state) (s t : jsstring) :
  colon_run q (s ++ t) = colon_run (colon_run q s) t.
Proof. apply fold_left_app. Qed.

(** Reading a word of [r] from a state of [S] ends in a state of
    [reach r S]. *)
Theorem reach_sound (r : regex) (s : jsstring) :
  lang r s ->
  forall (S : state_set) (q : colon_state),
    mem q S = true -> mem (colon_run q s) (reach r S) = true.
Proof.
  revert s. induction r as [| |f|a IHa b IHb|a IHa b IHb|a IHa];
    intros s H S q M; simpl in H; cbn [reach].
  - contradiction.
  - subst s. exact M.
  - destruct H as (c & -> & Hc). unfold colon_run. cbn [fold_left].
    apply (fold_union_elem ascii f (step_set S) _ _ _ c);
      [apply in_all_chars | exact Hc | now apply step_set_sound].
  - destruct H as (s1 & s2 & -> & H1 & H2). rewrite colon_run_app.
    apply (IHb _ H2). apply (IHa _ H1). exact M.
  - rewrite mem_union. destruct H as [H | H].
    + rewrite (IHa _ H _ _ M). reflexivity.
    + rewrite (IHb _ H _ _ M). apply orb_true_r.
  - destruct H as (ss & -> & F). cbv zeta.
    destruct (subset (reach a (iterate 4 (reach a) S)) (iterate 4 (reach a) S))
      eqn:C; [| apply mem_every].
    apply (iterate_extends (reach a) 4) in M. revert q M.
    induction F as [|w ss Hw _ IH]; intros q M; [exact M |].
    simpl concat. rewrite colon_run_app. apply IH.
    apply (subset_mem _ _ _ C). apply (IHa _ Hw). exact M.
Qed.

Lemma colon_run_bad (s : jsstring) : colon_run Bad s = Bad.
Proof. induction s as [|c s IH]; [reflexivity | exact IH]. Qed.

Lemma flush_short (k : nat) : k < 3 -> flush k = repeat ":"%char k.
Proof.
  intros H. unfold flush.
  destruct (Nat.leb_spec 3 k); [lia | reflexivity].
Qed.

Lemma repeat_snoc (c : ascii) (k : nat) (t : jsstring) :
  repeat c (S k) ++ t = repeat c k ++ c :: t.
Proof.
  change (c :: t) with ([c] ++ t). rewrite app_assoc, <- repeat_cons.
  reflexivity.
Qed.

(** A text the automaton reads without falling into [Bad] is left as it is
    by both steps of the IPv6 [format]. *)
Lemma colon_run_ok (s : jsstring) (q : colon_state) :
  colon_run q s <> Bad ->
  filter cls_hex_colon s = s /\
  replace_runs (run_length q) s = repeat ":"%char (run_length q) ++ s.
Proof.
  revert q. induction s as [|c t IH]; intros q H.
  - simpl in *. split; [reflexivity |]. rewrite app_nil_r.
    apply flush_short. destruct q; simpl; try lia. congruence.
  - change (colon_run q (c :: t)) with (colon_run (colon_step q c) t) in H.
    destruct (IH _ H) as [F R].
    assert (N : colon_step q c <> Bad).
    { intros E. rewrite E, colon_run_bad in H. congruence. }
    simpl. unfold cls_hex_colon at 1.
    destruct (is_colon c) eqn:C.
    + rewrite orb_true_r, F. split; [reflexivity |].
      apply Ascii.eqb_eq in C as ->.
      replace (S (run_length q)) with (run_length (colon_step q ":"))
        by (destruct q; simpl in *; congruence).
      rewrite R. destruct q; simpl in *; congruence.
    + rewrite orb_false_r.
      assert (X : cls_hex c = true).
      { destruct q; simpl in N; try congruence; rewrite C in N;
          destruct (cls_hex c); congruence. }
      rewrite X, F. split; [reflexivity |].
      replace (colon_step q c) with Run0 in R
        by (destruct q; simpl in *; rewrite ?C, ?X in *; congruence).
      simpl in R. rewrite R. rewrite flush_short; [reflexivity |].
      destruct q; simpl; try lia. simpl in N. congruence.
Qed.

End AutomatonFacts.

(** ** Subsequences *)

Module SubseqFacts.

Lemma Subseq_nil_l (b : jsstring) : Subseq [] b.
Proof. induction b; constructor; assumption. Qed.

Lemma Subseq_refl (a : jsstring) : Subseq a a.
Proof. induction a; constructor; assumption. Qed.

Lemma Subseq_trans (a b c : jsstring) :
  Subseq a b -> Subseq b c -> Subseq a c.
Proof.
  intros H1 H2. revert a H1.
  induction H2 as [|x b c _ IH|x b c _ IH]; intros a H1.
  - exact H1.
  - inversion H1; subst; constructor; apply IH; assumption.
  - constructor. apply IH. exact H1.
Qed.

Lemma Subseq_app (a b c d : jsstring) :
  Subseq a b -> Subseq c d -> Subseq (a ++ c) (b ++ d).
Proof.
  intros H1 H2. induction H1; simpl; try constructor; assumption.
Qed.

Lemma Subseq_filter (f : ascii -> bool) (s : jsstring) :
  Subseq (filter f s) s.
Proof.
  induction s as [|c s IH]; simpl; [constructor |].
  destruct (f c); constructor; exact IH.
Qed.

Lemma Subseq_firstn (n : nat) (s : jsstring) : Subseq (firstn n s) s.
Proof.
  revert n. induction s as [|c s IH]; intros [|n]; simpl;
    try constructor; try apply IH. apply Subseq_nil_l.
Qed.

Lemma Subseq_repeat (c : ascii) (a b : nat) :
  a <= b -> Subseq (repeat c a) (repeat c b).
Proof.
  revert a. induction b as [|b IH]; intros a H.
  - replace a with 0 by lia. constructor.
  - destruct a as [|a]; [apply Subseq_nil_l |].
    simpl. constructor. apply IH. lia.
Qed.

Lemma Subseq_Forall (P : ascii -> Prop) (a b : jsstring) :
  Subseq a b -> Forall P b -> Forall P a.
Proof.
  induction 1; intros F; [constructor | |];
    inversion F; subst; [constructor |]; auto.
Qed.

Lemma Subseq_concat (xs ys : list jsstring) :
  Forall2 Subseq xs ys -> Subseq (concat xs) (concat ys).
Proof.
  induction 1; simpl; [constructor | now apply Subseq_app].
Qed.

Lemma filter_id (f : ascii -> bool) (s : jsstring) :
  Forall (fun c => f c = true) s -> filter f s = s.
Proof.
  induction 1 as [|c s Hc _ IH]; simpl; [reflexivity |].
  now rewrite Hc, IH.
Qed.

Lemma filter_Forall (f : ascii -> bool) (s : jsstring) :
  Forall (fun c => f c = true) (filter f s).
Proof.
  apply Forall_forall. intros c H. now apply filter_In in H.
Qed.

End SubseqFacts.

(** ** The IPv6 [format] *)

Module Ipv6Facts.
Import SubseqFacts.

Lemma flush_colons (n : nat) : flush n = repeat ":"%char (Nat.min n 2).
Proof.
  unfold flush. destruct (Nat.leb_spec 3 n).
  - replace (Nat.min n 2) with 2 by lia. reflexivity.
  - replace (Nat.min n 2) with n by lia. reflexivity.
Qed.

Lemma replace_runs_colons (k n : nat) (s : jsstring) :
  replace_runs n (repeat ":"%char k ++ s) = replace_runs (k + n) s.
Proof.
  revert n. induction k as [|k IH]; intros n; [reflexivity |].
  simpl. rewrite IH. f_equal. lia.
Qed.

(** What the replacement does: a whole run of [k] colons, in front of a
    text that does not go on with a colon, is written as [::] when [k] is
    at least 3 and copied otherwise; any other character is copied. *)
Lemma replace_runs_run (k : nat) (rest : jsstring) :
  hd_error rest <> Some ":"%char ->
  replace_runs 0 (repeat ":"%char k ++ rest) =
  flush k ++ replace_runs 0 rest.
Proof.
  intros H. rewrite replace_runs_colons, Nat.add_0_r.
  destruct rest as [|x t]; simpl.
  - now rewrite app_nil_r.
  - destruct (is_colon x) eqn:C; [| reflexivity].
    apply Ascii.eqb_eq in C as ->. now elim H.
Qed.

Lemma replace_runs_other (x : ascii) (t : jsstring) :
  is_colon x = false ->
  replace_runs 0 (x :: t) = x :: replace_runs 0 t.
Proof. intros C. simpl. now rewrite C. Qed.

(** The pattern [:{n,}] read character by character. *)
Lemma deriv_star_colon (x : ascii) :
  Regex.deriv x (Regex.Star (Regex.Chr ":")) =
  if is_colon x then Regex.Star (Regex.Chr ":") else Regex.Void.
Proof.
  change (Regex.deriv x (Regex.Star (Regex.Chr ":")))
    with (Regex.mk_seq (Regex.deriv x (Regex.Chr ":"))
            (Regex.Star (Regex.Chr ":"))).
  rewrite ReplaceFacts.deriv_chr. unfold is_colon.
  destruct (Ascii.eqb x ":"); reflexivity.
Qed.

Lemma deriv_at_least_colon (n : nat) (x : ascii) :
  Regex.deriv x (Regex.AtLeast (S n) (Regex.Chr ":")) =
  if is_colon x then
    match n with
    | O => Regex.Star (Regex.Chr ":")
    | S _ => Regex.AtLeast n (Regex.Chr ":")
    end
  else Regex.Void.
Proof.
  change (Regex.deriv x (Regex.AtLeast (S n) (Regex.Chr ":")))
    with (Regex.mk_seq
            (Regex.mk_seq (Regex.deriv x (Regex.Chr ":"))
               (Regex.Pow n (Regex.Chr ":")))
            (Regex.Star (Regex.Chr ":"))).
  rewrite ReplaceFacts.deriv_chr. unfold is_colon.
  destruct (Ascii.eqb x ":"); [| reflexivity].
  destruct n; reflexivity.
Qed.

Lemma hd_not_colon (x : ascii) (t : jsstring) :
  hd_error (x :: t) <> Some ":"%char -> is_colon x = false.
Proof.
  intros H. apply Ascii.eqb_neq. intros ->. now elim H.
Qed.

Lemma longest_prefix_star_colon (k : nat) (rest : jsstring) :
  hd_error rest <> Some ":"%char ->
  Regex.longest_prefix (Regex.Star (Regex.Chr ":"))
    (repeat ":"%char k ++ rest) = Some k.
Proof.
  intros H. induction k as [|k IH].
  - destruct rest as [|x t]; [reflexivity |].
    simpl app. rewrite ReplaceFacts.longest_prefix_cons, deriv_star_colon.
    rewrite (hd_not_colon x t H), ReplaceFacts.longest_prefix_void.
    reflexivity.
  - simpl app. rewrite ReplaceFacts.longest_prefix_cons, deriv_star_colon.
    change (is_colon ":") with true. cbv iota. now rewrite IH.
Qed.

Lemma longest_prefix_at_least (n k : nat) (rest : jsstring) :
  hd_error rest <> Some ":"%char ->
  Regex.longest_prefix (Regex.AtLeast (S n) (Regex.Chr ":"))
    (repeat ":"%char k ++ rest) =
  if (S n <=? k)%nat then Some k else None.
Proof.
  intros H. revert k. induction n as [|n IH]; intros k.
  - destruct k as [|k].
    + destruct rest as [|x t]; [reflexivity |].
      simpl app.
      rewrite ReplaceFacts.longest_prefix_cons, deriv_at_least_colon.
      rewrite (hd_not_colon x t H), ReplaceFacts.longest_prefix_void.
      reflexivity.
    + simpl app.
      rewrite ReplaceFacts.longest_prefix_cons, deriv_at_least_colon.
      change (is_colon ":") with true. cbv iota.
      now rewrite longest_prefix_star_colon.
  - destruct k as [|k].
    + destruct rest as [|x t]; [reflexivity |].
      simpl app.
      rewrite ReplaceFacts.longest_prefix_cons, deriv_at_least_colon.
      rewrite (hd_not_colon x t H), ReplaceFacts.longest_prefix_void.
      reflexivity.
    + simpl app.
      rewrite ReplaceFacts.longest_prefix_cons, deriv_at_least_colon.
      change (is_colon ":") with true. cbv iota. rewrite IH.
      change (S (S n) <=? S k)%nat with (S n <=? k)%nat.
      destruct (S n <=? k)%nat; reflexivity.
Qed.

(** Every text is a run of colons in front of a text that does not start
    with a colon. *)
Lemma colon_span (s : jsstring) :
  exists k rest, s = repeat ":"%char k ++ rest /\
                 hd_error rest <> Some ":"%char.
Proof.
  induction s as [|c t (k & rest & -> & H)].
  - exists 0, []. split; [reflexivity | discriminate].
  - destruct (is_colon c) eqn:C.
    + apply Ascii.eqb_eq in C as ->. exists (S k), rest. auto.
    + exists 0, (c :: repeat ":"%char k ++ rest). split; [reflexivity |].
      simpl. intros [= ->]. discriminate.
Qed.

(** The replacement of [:{3,}] by [::] is that one pass over the runs. *)
Lemma replace_from_runs (fuel : nat) (s : jsstring) :
  length s <= fuel ->
  Regex.replace_from fuel (Regex.AtLeast 3 (Regex.Chr ":")) (str "::") s =
  replace_runs 0 s.
Proof.
  revert s. induction fuel as [|fuel IH]; intros s L.
  - destruct s; [reflexivity | simpl in L; lia].
  - destruct s as [|c t]; [reflexivity |].
    destruct (colon_span (c :: t)) as (k & rest & E & H).
    cbn [Regex.replace_from]. rewrite E at 1.
    rewrite longest_prefix_at_least by exact H.
    simpl in L. destruct k as [|k].
    + simpl in E. subst rest. cbn [Nat.leb].
      rewrite IH by lia.
      now rewrite replace_runs_other by (apply (hd_not_colon c t H)).
    + simpl in E. injection E as -> ->.
      change (replace_runs 0 (":"%char :: repeat ":"%char k ++ rest))
        with (replace_runs 0 (repeat ":"%char (S k) ++ rest)).
      rewrite (replace_runs_run (S k)) by exact H.
      rewrite length_app, repeat_length in L.
      destruct (Nat.leb_spec 3 (S k)) as [G | G].
      * rewrite skipn_app, skipn_all2, repeat_length, Nat.sub_diag
          by (rewrite repeat_length; lia).
        cbn [skipn app]. rewrite IH by lia.
        unfold flush. destruct (Nat.leb_spec 3 (S k)); [reflexivity | lia].
      * rewrite IH by (rewrite length_app, repeat_length; lia).
        rewrite replace_runs_run by exact H.
        rewrite !AutomatonFacts.flush_short by lia. reflexivity.
Qed.

Lemma ipv6_format_filter (x : jsstring) :
  ipv6.format x = replace_runs 0 (filter cls_hex_colon x).
Proof.
  unfold ipv6.format. rewrite ReplaceFacts.replace_all_class.
  apply replace_from_runs. lia.
Qed.

Lemma replace_runs_sat (s : jsstring) (a b : nat) :
  2 <= a -> 2 <= b -> replace_runs a s = replace_runs b s.
Proof.
  revert a b. induction s as [|c t IH]; intros a b Ha Hb; simpl.
  - rewrite !flush_colons. f_equal. lia.
  - destruct (is_colon c); [apply IH; lia |].
    rewrite !flush_colons. do 2 f_equal. lia.
Qed.

Lemma replace_runs_twice (s : jsstring) (m n : nat) :
  replace_runs m (replace_runs n s) =
  replace_runs (m + Nat.min n 2) s.
Proof.
  revert m n. induction s as [|c t IH]; intros m n.
  - simpl. rewrite flush_colons, <- (app_nil_r (repeat _ _)).
    rewrite replace_runs_colons. simpl. f_equal. lia.
  - cbn [replace_runs]. destruct (is_colon c) eqn:C.
    + rewrite IH. destruct (Nat.le_gt_cases 2 n).
      * apply replace_runs_sat; lia.
      * f_equal. lia.
    + rewrite (flush_colons n), replace_runs_colons.
      cbn [replace_runs]. rewrite C, IH. simpl Nat.add.
      do 2 f_equal. lia.
Qed.

Lemma replace_runs_subseq (s : jsstring) (n : nat) :
  Subseq (replace_runs n s) (repeat ":"%char n ++ s).
Proof.
  revert n. induction s as [|c t IH]; intros n; cbn [replace_runs].
  - rewrite app_nil_r, flush_colons. apply Subseq_repeat. lia.
  - destruct (is_colon c) eqn:C.
    + apply Ascii.eqb_eq in C as ->.
      rewrite <- AutomatonFacts.repeat_snoc. apply IH.
    + apply Subseq_app.
      * rewrite flush_colons. apply Subseq_repeat. lia.
      * constructor. apply (IH 0).
Qed.

Lemma ipv6_format_subseq (x : jsstring) : Subseq (ipv6.format x) x.
Proof.
  rewrite !ipv6_format_filter.
  apply Subseq_trans with (filter cls_hex_colon x);
    [apply (replace_runs_subseq _ 0) | apply Subseq_filter].
Qed.

Lemma ipv6_format_twice (x : jsstring) :
  ipv6.format (ipv6.format x) = ipv6.format x.
Proof.
  rewrite !ipv6_format_filter. rewrite filter_id.
  - apply (replace_runs_twice _ 0 0).
  - apply Subseq_Forall with (filter cls_hex_colon x);
      [apply (replace_runs_subseq _ 0) | apply filter_Forall].
Qed.

(** A text of hex digits and colons without three colons in a row is read
    by the automaton without falling into [Bad]. *)
Lemma no_run3_colon_run (s : jsstring) (q : colon_state) :
  Forall (fun c => cls_hex_colon c = true) s ->
  ~ has_colon_run3 (repeat ":"%char (run_length q) ++ s) ->
  colon_run q s <> Bad.
Proof.
  revert q. induction s as [|c t IH]; intros q F N.
  - simpl. intros ->. apply N. exists [], []. reflexivity.
  - inversion F as [|? ? Hc Ft]; subst.
    change (colon_run q (c :: t)) with (colon_run (colon_step q c) t).
    assert (Q : q <> Bad).
    { intros ->. apply N. exists [], (c :: t). reflexivity. }
    destruct (is_colon c) eqn:C.
    + apply IH; [exact Ft |].
      apply Ascii.eqb_eq in C as ->.
      replace (run_length (colon_step q ":")) with (S (run_length q))
        by (destruct q; simpl; congruence).
      now rewrite AutomatonFacts.repeat_snoc.
    + assert (X : cls_hex c = true).
      { unfold cls_hex_colon in Hc. rewrite C, orb_false_r in Hc. exact Hc. }
      replace (colon_step q c) with Run0
        by (destruct q; simpl; rewrite ?C, ?X; congruence).
      apply IH; [exact Ft |]. simpl.
      intros (l & r & E). apply N.
      exists (repeat ":"%char (run_length q) ++ c :: l), r.
      rewrite E, <- app_assoc. reflexivity.
Qed.

(** Without a run of three colons, [format] only strips characters. *)
Lemma format_no_run3 (x : jsstring) :
  Regex.test (Regex.AtLeast 3 (Regex.Chr ":")) (filter cls_hex_colon x)
  = false ->
  ipv6.format x = filter cls_hex_colon x.
Proof.
  intros H. rewrite !ipv6_format_filter.
  apply (AutomatonFacts.colon_run_ok _ Run0).
  apply no_run3_colon_run; [apply filter_Forall |]. simpl.
  rewrite <- ColonFacts.test_colon_run3, H. discriminate.
Qed.

Lemma reach_ipv6Regex :
  reach ipv6.ipv6Regex (only Run0) = StateSet true false true false.
Proof. vm_compute. reflexivity. Qed.

(** A valid IPv6 text is left as it is. *)
Lemma ipv6_validate_format (v : jsstring) :
  ipv6.validate v = true -> ipv6.format v = v.
Proof.
  unfold ipv6.validate, Regex.test_anchored. rewrite RegexFacts.matches_lang.
  intros H.
  pose proof (AutomatonFacts.reach_sound _ _ H (only Run0) Run0 eq_refl) as M.
  rewrite reach_ipv6Regex in M.
  assert (N : colon_run Run0 v <> Bad).
  { intros E. rewrite E in M. discriminate. }
  destruct (AutomatonFacts.colon_run_ok v Run0 N) as [F R].
  rewrite !ipv6_format_filter. rewrite F. exact R.
Qed.

End Ipv6Facts.

(** C10.  The IPv6 [format] does not enforce the rule of one compression
    marker: it leaves "1::2::3" as it is, with both [::], and [validate]
    refuses that output.  It only strips foreign characters and collapses
    runs of three or more colons: a text without such a run is only
    stripped. *)
Theorem ipv6_format_keeps_two_markers :
  ipv6.format (str "1::2::3") = str "1::2::3" /\
  ipv6.validate (ipv6.format (str "1::2::3")) = false /\
  ipv6.format (str "1:::2::::3") = str "1::2::3" /\
  (forall x : jsstring,
     Regex.test (AtLeast 3 (Chr ":")) (filter cls_hex_colon x) = false ->
     ipv6.format x = filter cls_hex_colon x).
Proof.
  split; [reflexivity |]. split; [reflexivity |]. split; [reflexivity |].
  apply Ipv6Facts.format_no_run3.
Qed.

Lemma ipv6_format_keeps_two_markers_witness :
  Regex.test (AtLeast 3 (Chr ":")) (filter cls_hex_colon (str "1::2::3"))
  = false /\
  ipv6.format (str "1::2::3") = filter cls_hex_colon (str "1::2::3").
Proof.
  split; [reflexivity |].
  apply (proj2 (proj2 (proj2 ipv6_format_keeps_two_markers))).
  reflexivity.
Defined.

(** ** The MAC [format] *)

Module MacFacts.
Import SubseqFacts.

Lemma chunk2_unfold (s : jsstring) :
  s <> [] -> chunk2 s = firstn 2 s :: chunk2 (skipn 2 s).
Proof. destruct s as [|a [|b t]]; [congruence | reflexivity | reflexivity]. Qed.

(** The loop of the colon-free lines cuts the hex digits into pairs. *)
Lemma pairs_loop_chunk2 (h : jsstring) (rounds i : nat)
    (pairs : list jsstring) :
  length h <= i + 2 * rounds ->
  mac.pairs_loop rounds i h pairs = pairs ++ chunk2 (skipn i h).
Proof.
  revert i pairs. induction rounds as [|rounds IH]; intros i pairs H; simpl.
  - rewrite skipn_all2 by lia. now rewrite app_nil_r.
  - destruct (Nat.ltb_spec i (length h)) as [L | L].
    + rewrite IH by lia. rewrite JSFacts.slice_nat, <- app_assoc.
      replace (i + 2 - i) with 2 by lia.
      rewrite (chunk2_unfold (skipn i h)).
      * rewrite skipn_skipn. replace (2 + i) with (i + 2) by lia. reflexivity.
      * intros E. apply (f_equal (@length _)) in E.
        rewrite length_skipn in E. simpl in E. lia.
    + rewrite skipn_all2 by lia. now rewrite app_nil_r.
Qed.

Lemma colon_aware_filter (x : jsstring) :
  mac.colon_aware x =
  if JS.includes (filter cls_hex_colon x) (str ":") then
    if forallb (fun seg => (length seg <=? 2)%nat)
         (map (filter cls_hex)
            (firstn 6 (JS.split ":" (filter cls_hex_colon x))))
    then Some (JS.join ":"
                 (map (fun seg => JS.slice seg 0 2)
                    (map (filter cls_hex)
                       (firstn 6 (JS.split ":" (filter cls_hex_colon x))))))
    else None
  else None.
Proof.
  unfold mac.colon_aware. rewrite ReplaceFacts.replace_all_class.
  rewrite (map_ext _ (filter cls_hex))
    by (intros seg; apply ReplaceFacts.replace_all_class).
  reflexivity.
Qed.

Lemma colon_free_filter (x : jsstring) :
  mac.colon_free x =
  JS.join ":"
    (mac.pairs_loop (length (JS.slice (filter cls_hex x) 0 12)) 0
       (JS.slice (filter cls_hex x) 0 12) []).
Proof.
  unfold mac.colon_free. now rewrite ReplaceFacts.replace_all_class.
Qed.

Lemma colon_free_chunk2 (x : jsstring) :
  mac.colon_free x = JS.join ":" (chunk2 (firstn 12 (filter cls_hex x))).
Proof.
  rewrite colon_free_filter. rewrite (JSFacts.slice_prefix _ 12).
  rewrite pairs_loop_chunk2 by lia. reflexivity.
Qed.

Lemma chunk2_short (msg : jsstring) :
  Forall (fun c => cls_hex c = true) msg -> Forall short_hex (chunk2 msg).
Proof.
  intros F. assert (G : forall n s, length s <= n ->
    Forall (fun c => cls_hex c = true) s -> Forall short_hex (chunk2 s)).
  { induction n as [|n IH]; intros s L Fs.
    - destruct s; [constructor | simpl in L; lia].
    - destruct s as [|a [|b t]]; simpl.
      + constructor.
      + repeat constructor. inversion Fs; assumption.
      + inversion Fs as [|? ? Ha Fs']; subst.
        inversion Fs' as [|? ? Hb Ft]; subst.
        constructor; [split; [simpl; lia | auto] |].
        apply IH; [simpl in L; lia | exact Ft]. }
  apply (G (length msg)); [lia | exact F].
Qed.

Lemma chunk2_length (s : jsstring) : 2 * length (chunk2 s) <= length s + 1.
Proof.
  assert (G : forall n s, length s <= n ->
                          2 * length (chunk2 s) <= length s + 1).
  { induction n as [|n IH]; intros t L.
    - destruct t; [simpl; lia | simpl in L; lia].
    - destruct t as [|a [|b t]]; simpl; try lia.
      specialize (IH t). simpl in L. lia. }
  apply (G (length s)). lia.
Qed.

Lemma concat_chunk2 (s : jsstring) : concat (chunk2 s) = s.
Proof.
  assert (G : forall n s, length s <= n -> concat (chunk2 s) = s).
  { induction n as [|n IH]; intros t L.
    - destruct t; [reflexivity | simpl in L; lia].
    - destruct t as [|a [|b t]]; simpl; try reflexivity.
      rewrite IH; [reflexivity | simpl in L; lia]. }
  apply (G (length s)). lia.
Qed.

Lemma short_hex_no_colon (seg : jsstring) : short_hex seg -> ~ In ":"%char seg.
Proof.
  intros [_ F] H. rewrite Forall_forall in F. apply F in H. discriminate.
Qed.

Lemma join_Forall (P : ascii -> Prop) (d : ascii) (segs : list jsstring) :
  P d -> Forall (Forall P) segs -> Forall P (JS.join d segs).
Proof.
  intros Hd. induction 1 as [|seg rest Hs Hr IH]; [constructor |].
  destruct rest as [|seg' rest]; [exact Hs |].
  rewrite SegmentFacts.join_cons by discriminate.
  apply Forall_app. split; [exact Hs |]. constructor; assumption.
Qed.

Lemma includes_char (s : jsstring) (d : ascii) :
  JS.includes s [d] = true <-> In d s.
Proof.
  rewrite JSFacts.includes_spec. split.
  - intros (l & r & ->). apply in_or_app. right. now left.
  - intros H. apply in_split in H as (l & r & ->). exists l, r. reflexivity.
Qed.

Lemma map_fix (A : Type) (f : A -> A) (l : list A) :
  Forall (fun x => f x = x) l -> map f l = l.
Proof. induction 1; simpl; congruence. Qed.

(** A text of two to six colon-joined groups of at most two hex digits is a
    fixed point, through the colon-aware branch. *)
Lemma format_groups (segs : list jsstring) :
  2 <= length segs <= 6 -> Forall short_hex segs ->
  mac.colon_aware (JS.join ":" segs) = Some (JS.join ":" segs).
Proof.
  intros L F. rewrite colon_aware_filter.
  assert (C : filter cls_hex_colon (JS.join ":" segs) = JS.join ":" segs).
  { apply filter_id. apply (join_Forall (fun c => cls_hex_colon c = true)).
    - reflexivity.
    - eapply Forall_impl; [| exact F]. intros seg [_ H].
      eapply Forall_impl; [| exact H]. intros c Hc.
      unfold cls_hex_colon. now rewrite Hc. }
  rewrite C.
  assert (I : JS.includes (JS.join ":" segs) (str ":") = true).
  { apply (includes_char _ ":").
    destruct segs as [|a [|b rest]]; simpl in L; try lia.
    rewrite SegmentFacts.join_cons by discriminate.
    apply in_or_app. right. now left. }
  rewrite I.
  rewrite SegmentFacts.split_join;
    [| destruct segs; [simpl in L; lia | discriminate]
     | eapply Forall_impl; [| exact F]; apply short_hex_no_colon].
  rewrite firstn_all2 by lia.
  rewrite (map_fix _ (filter cls_hex));
    [| eapply Forall_impl; [| exact F]; intros seg [_ H]; now apply filter_id].
  match goal with
  | |- (if ?b then _ else _) = _ => assert (B : b = true)
  end.
  { apply forallb_forall. intros seg H. rewrite Forall_forall in F.
    apply Nat.leb_le. now apply F. }
  rewrite B. do 2 f_equal. apply map_fix.
  eapply Forall_impl; [| exact F]. intros seg [H _]. cbv beta.
  rewrite (JSFacts.slice_prefix seg 2 : JS.slice seg 0 2 = firstn 2 seg).
  now apply firstn_all2.
Qed.

(** A text of at most two hex digits is a fixed point, through the
    colon-free lines. *)
Lemma format_short (p : jsstring) : short_hex p -> mac.format p = p.
Proof.
  intros [L F]. unfold mac.format.
  assert (A : mac.colon_aware p = None).
  { rewrite colon_aware_filter.
    replace (JS.includes (filter cls_hex_colon p) (str ":")) with false;
      [reflexivity |].
    symmetry. apply not_true_is_false. intros H.
    apply (includes_char _ ":"), filter_In in H as [H _].
    rewrite Forall_forall in F. apply F in H. discriminate. }
  rewrite A, colon_free_chunk2, (filter_id cls_hex) by exact F.
  rewrite firstn_all2 by lia.
  destruct p as [|a [|b [|c t]]]; try reflexivity. simpl in L. lia.
Qed.

Lemma count_includes (s : jsstring) (d : ascii) :
  JS.includes s [d] = true -> 1 <= count_char s d.
Proof.
  intros H. apply includes_char, in_split in H as (l & r & ->).
  unfold count_char. rewrite filter_app, length_app. simpl.
  rewrite Ascii.eqb_refl. simpl. lia.
Qed.

(** What the colon-aware branch returns is such a text. *)
Lemma colon_aware_groups (x r : jsstring) :
  mac.colon_aware x = Some r ->
  exists segs, r = JS.join ":" segs /\ 2 <= length segs <= 6 /\
               Forall short_hex segs /\
               Forall2 Subseq segs
                 (firstn 6 (JS.split ":" (filter cls_hex_colon x))).
Proof.
  rewrite colon_aware_filter.
  set (cleaned := filter cls_hex_colon x).
  destruct (JS.includes cleaned (str ":")) eqn:I; [| discriminate].
  set (raw := map (filter cls_hex) (firstn 6 (JS.split ":" cleaned))).
  destruct (forallb _ raw) eqn:B; [| discriminate].
  intros [= <-]. exists (map (fun seg => JS.slice seg 0 2) raw).
  split; [reflexivity |]. split; [| split].
  - unfold raw. rewrite !length_map, length_firstn, SegmentFacts.length_split.
    apply (count_includes _ ":") in I. lia.
  - apply Forall_forall. intros seg H.
    apply in_map_iff in H as (seg' & <- & H).
    rewrite forallb_forall in B. specialize (B _ H). apply Nat.leb_le in B.
    rewrite (JSFacts.slice_prefix seg' 2 : JS.slice seg' 0 2 = firstn 2 seg').
    rewrite firstn_all2 by lia.
    split; [exact B |]. unfold raw in H.
    apply in_map_iff in H as (seg'' & <- & _). apply filter_Forall.
  - unfold raw. rewrite map_map.
    generalize (firstn 6 (JS.split ":" cleaned)). intros l.
    induction l as [|seg l IH]; simpl; constructor; [| exact IH].
    rewrite (JSFacts.slice_prefix (filter cls_hex seg) 2
             : JS.slice (filter cls_hex seg) 0 2
               = firstn 2 (filter cls_hex seg)).
    apply Subseq_trans with (filter cls_hex seg);
      [apply Subseq_firstn | apply Subseq_filter].
Qed.

Lemma mac_format_twice (x : jsstring) :
  mac.format (mac.format x) = mac.format x.
Proof.
  unfold mac.format at 2 3. destruct (mac.colon_aware x) as [r|] eqn:A.
  - apply colon_aware_groups in A as (segs & -> & L & F & _).
    unfold mac.format. now rewrite format_groups.
  - rewrite colon_free_chunk2.
    set (h := firstn 12 (filter cls_hex x)).
    assert (Fh : Forall (fun c => cls_hex c = true) h).
    { apply Subseq_Forall with (filter cls_hex x);
        [apply Subseq_firstn | apply filter_Forall]. }
    assert (Lh : length h <= 12).
    { unfold h. rewrite length_firstn. lia. }
    pose proof (chunk2_length h) as Lc.
    destruct (Nat.le_gt_cases 2 (length (chunk2 h))) as [G | G].
    + unfold mac.format. rewrite format_groups; [reflexivity | lia |].
      now apply chunk2_short.
    + assert (E : JS.join ":" (chunk2 h) = h /\ length h <= 2).
      { clearbody h. clear Lc.
        destruct h as [|a [|b [|c [|d t]]]]; simpl in G |- *;
          try (split; [reflexivity | lia]); lia. }
      destruct E as [-> E]. apply format_short. split; assumption.
Qed.

Lemma filter_join (d : ascii) (segs : list jsstring) :
  Forall (fun seg => ~ In d seg) segs ->
  filter (fun c => negb (Ascii.eqb c d)) (JS.join d segs) = concat segs.
Proof.
  induction 1 as [|seg rest Hs _ IH]; [reflexivity |].
  assert (S : filter (fun c => negb (Ascii.eqb c d)) seg = seg).
  { apply filter_id. apply Forall_forall. intros c Hc.
    apply negb_true_iff, Ascii.eqb_neq. intros ->. contradiction. }
  destruct rest as [|seg' rest].
  - simpl. now rewrite app_nil_r.
  - rewrite SegmentFacts.join_cons by discriminate.
    set (J := JS.join d (seg' :: rest)) in *.
    rewrite filter_app, S. simpl. rewrite Ascii.eqb_refl. simpl.
    now rewrite IH.
Qed.

Lemma concat_split_subseq (d : ascii) (s : jsstring) :
  Subseq (concat (JS.split d s)) s.
Proof.
  induction s as [|c t IH]; [constructor |].
  destruct (Ascii.eqb c d) eqn:E.
  - simpl. rewrite E. simpl. constructor. exact IH.
  - rewrite SegmentFacts.split_cons_other by exact E.
    simpl. constructor.
    destruct (JS.split d t); [apply Subseq_nil_l | exact IH].
Qed.

Lemma concat_firstn_subseq (n : nat) (l : list jsstring) :
  Subseq (concat (firstn n l)) (concat l).
Proof.
  rewrite <- (firstn_skipn n l) at 2. rewrite concat_app.
  rewrite <- (app_nil_r (concat (firstn n l))) at 1.
  apply Subseq_app; [apply Subseq_refl | apply Subseq_nil_l].
Qed.

(** The hex digits of the output are hex digits of the input, in their
    order. *)
Lemma mac_format_subseq (x : jsstring) :
  Subseq (filter (fun c => negb (is_colon c)) (mac.format x)) x.
Proof.
  unfold mac.format. destruct (mac.colon_aware x) as [r|] eqn:A.
  - apply colon_aware_groups in A as (segs & -> & _ & F & S).
    unfold is_colon. rewrite filter_join
      by (eapply Forall_impl; [| exact F]; apply short_hex_no_colon).
    apply Subseq_trans with (concat (firstn 6
            (JS.split ":" (filter cls_hex_colon x))));
      [now apply Subseq_concat |].
    eapply Subseq_trans; [apply concat_firstn_subseq |].
    eapply Subseq_trans; [apply concat_split_subseq | apply Subseq_filter].
  - rewrite colon_free_chunk2. unfold is_colon.
    assert (Fh : Forall (fun c => cls_hex c = true)
                        (firstn 12 (filter cls_hex x))).
    { apply Subseq_Forall with (filter cls_hex x);
        [apply Subseq_firstn | apply filter_Forall]. }
    rewrite filter_join.
    + rewrite concat_chunk2.
      eapply Subseq_trans; [apply Subseq_firstn | apply Subseq_filter].
    + eapply Forall_impl; [| apply chunk2_short; exact Fh].
      apply short_hex_no_colon.
Qed.

Lemma lang_hex_pair (s : jsstring) :
  Regex.lang (Regex.Pow 2 (Regex.Cls cls_hex)) s -> short_hex s.
Proof.
  intros (s1 & t1 & -> & (a & -> & Ha) & (s2 & t2 & -> & (b & -> & Hb) & ->)).
  split; [simpl; lia | repeat constructor; assumption].
Qed.

Lemma lang_hex_pair_colon (s : jsstring) :
  Regex.lang (Regex.Seq (Regex.Pow 2 (Regex.Cls cls_hex)) (Regex.Chr ":")) s ->
  exists p, s = p ++ [":"%char] /\ short_hex p.
Proof.
  intros (p & t & -> & Hp & (c & -> & Hc)).
  apply Ascii.eqb_eq in Hc as ->. exists p. split; [reflexivity |].
  now apply lang_hex_pair.
Qed.

(** A valid MAC text is six colon-joined pairs of hex digits. *)
Lemma validate_groups (v : jsstring) :
  mac.validate v = true ->
  exists segs, v = JS.join ":" segs /\ length segs = 6 /\
               Forall short_hex segs.
Proof.
  unfold mac.validate, Regex.test_anchored, mac.macRegex.
  rewrite RegexFacts.matches_lang.
  intros (s & p6 & -> & H & H6).
  destruct H as (w1 & r1 & -> & H1 & H).
  destruct H as (w2 & r2 & -> & H2 & H).
  destruct H as (w3 & r3 & -> & H3 & H).
  destruct H as (w4 & r4 & -> & H4 & H).
  destruct H as (w5 & r5 & -> & H5 & ->).
  apply lang_hex_pair_colon in H1 as (p1 & -> & S1).
  apply lang_hex_pair_colon in H2 as (p2 & -> & S2).
  apply lang_hex_pair_colon in H3 as (p3 & -> & S3).
  apply lang_hex_pair_colon in H4 as (p4 & -> & S4).
  apply lang_hex_pair_colon in H5 as (p5 & -> & S5).
  apply lang_hex_pair in H6.
  exists [p1; p2; p3; p4; p5; p6]. split; [| split].
  - simpl. rewrite <- !app_assoc. reflexivity.
  - reflexivity.
  - repeat (apply Forall_cons; [assumption |]). apply Forall_nil.
Qed.

Lemma mac_validate_format (v : jsstring) :
  mac.validate v = true -> mac.format v = v.
Proof.
  intros H. apply validate_groups in H as (segs & -> & L & F).
  unfold mac.format. rewrite format_groups; [reflexivity | lia | exact F].
Qed.

End MacFacts.

(** ** The IPv4 [format] *)

Module Ipv4Facts.
Import SubseqFacts.

Lemma digit_not_space (c : ascii) : cls_digit c = true -> JS.is_space c = false.
Proof.
  rewrite CharFacts.cls_digit_spec. intros H. unfold JS.is_space.
  rewrite !orb_false_iff. repeat split.
  - apply not_true_is_false. rewrite CharFacts.in_range_spec.
    change (code "013") with 13. lia.
  - apply CharFacts.eqb_code_false. change (code " ") with 32. lia.
  - apply CharFacts.eqb_code_false. change (code "160") with 160. lia.
Qed.

Lemma take_while_all (f : ascii -> bool) (s : jsstring) :
  Forall (fun c => f c = true) s -> JS.take_while f s = s.
Proof.
  induction 1 as [|c s Hc _ IH]; simpl; [| rewrite Hc, IH]; reflexivity.
Qed.

(** On a text of digits [parseInt] reads the whole text. *)
Lemma parseInt_digits (s : jsstring) :
  digits s -> s <> [] -> JS.parseInt s = Some (JS.decimal s).
Proof.
  intros D N. destruct s as [|c t]; [congruence |].
  inversion D as [|? ? Hc Dt]; subst.
  unfold JS.parseInt. simpl JS.drop_while. rewrite (digit_not_space c Hc).
  assert (M : Ascii.eqb c "-" = false /\ Ascii.eqb c "+" = false).
  { apply CharFacts.cls_digit_spec in Hc. split;
      apply CharFacts.eqb_code_false;
      [change (code "-") with 45 | change (code "+") with 43]; lia. }
  destruct M as [M1 M2].
  cbn [JS.starts_with str list_ascii_of_string]. rewrite M1, M2.
  cbn [andb orb]. rewrite (take_while_all cls_digit (c :: t)) by exact D.
  reflexivity.
Qed.

Lemma cleanup_octet (s : jsstring) : octet_text s -> ipv4_cleanup s = s.
Proof.
  intros (L & D & V). unfold ipv4_cleanup.
  rewrite firstn_all2 by lia.
  rewrite parseInt_digits;
    [| exact D | destruct s; [simpl in L; lia | discriminate]].
  simpl. destruct (Z.ltb_spec 255 (JS.decimal s)); [lia | reflexivity].
Qed.

Lemma cleanup_twice (s : jsstring) :
  ipv4_cleanup (ipv4_cleanup s) = ipv4_cleanup s.
Proof.
  unfold ipv4_cleanup at 2 3.
  destruct (JS.gt (JS.parseInt (firstn 3 s)) 255) eqn:G; [reflexivity |].
  unfold ipv4_cleanup. rewrite firstn_firstn. simpl Nat.min. now rewrite G.
Qed.

Lemma cleanup_digits (s : jsstring) : digits s -> digits (ipv4_cleanup s).
Proof.
  intros D. unfold ipv4_cleanup.
  destruct (JS.gt _ _); [repeat constructor |].
  apply Subseq_Forall with s; [apply Subseq_firstn | exact D].
Qed.

Lemma digits_no_dot (s : jsstring) : digits s -> ~ In "."%char s.
Proof.
  intros D H. unfold digits in D. rewrite Forall_forall in D.
  apply D in H. discriminate.
Qed.

Lemma split_Forall (P : ascii -> Prop) (d : ascii) (s : jsstring) :
  Forall P s -> Forall (Forall P) (JS.split d s).
Proof.
  induction 1 as [|c t Hc _ IH]; simpl; [repeat constructor |].
  destruct (Ascii.eqb c d); [constructor; [constructor | exact IH] |].
  destruct (JS.split d t) as [|seg rest]; [repeat constructor; exact Hc |].
  inversion IH; subst. constructor; [constructor |]; assumption.
Qed.

(** The segments of the cleaned input are texts of digits. *)
Lemma segments_digits (x : jsstring) :
  Forall digits (JS.split "." (filter cls_digit_dot x)).
Proof.
  pose proof (split_Forall _ "." _ (filter_Forall cls_digit_dot x)) as A.
  pose proof (SegmentFacts.split_segments "." (filter cls_digit_dot x)) as B.
  revert A B. generalize (JS.split "." (filter cls_digit_dot x)).
  intros l A. induction A as [|seg l Hs _ IH]; intros B; [constructor |].
  inversion B as [|? ? Ns Nl]; subst. constructor; [| now apply IH].
  apply Forall_forall. intros c Hc. rewrite Forall_forall in Hs.
  specialize (Hs c Hc). unfold cls_digit_dot in Hs.
  apply orb_true_iff in Hs as [Hs | Hs]; [exact Hs |].
  apply Ascii.eqb_eq in Hs as ->. contradiction.
Qed.

(** The list the loop leaves, as [format_loop_spec] gives it. *)
Lemma pushed_not_nil (segments : list jsstring) :
  segments <> [] ->
  ipv4.format_loop (Nat.min (length segments) 4) 0 segments [] <> [].
Proof.
  intros N. rewrite Ipv4LoopFacts.format_loop_spec.
  destruct segments; [congruence | discriminate].
Qed.

Lemma pushed_digits (segments : list jsstring) :
  Forall digits segments ->
  Forall digits (ipv4.format_loop (Nat.min (length segments) 4) 0 segments []).
Proof.
  intros D. rewrite Ipv4LoopFacts.format_loop_spec. apply Forall_app. split.
  - apply Forall_forall. intros seg H.
    apply in_map_iff in H as (seg' & <- & H). apply cleanup_digits.
    rewrite Forall_forall in D. apply D.
    apply (In_nth _ _ []) in H as (n & L & <-).
    rewrite nth_firstn.
    rewrite length_firstn in L.
    destruct (Nat.ltb_spec n 4); [| lia].
    apply nth_In. lia.
  - destruct (_ && _); repeat constructor.
Qed.

(** Running the loop again on what it left changes nothing. *)
Lemma pushed_twice (segments : list jsstring) :
  let pushed :=
    ipv4.format_loop (Nat.min (length segments) 4) 0 segments [] in
  ipv4.format_loop (Nat.min (length pushed) 4) 0 pushed [] = pushed.
Proof.
  cbv zeta.
  set (pushed := ipv4.format_loop (Nat.min (length segments) 4) 0 segments []).
  rewrite (Ipv4LoopFacts.format_loop_spec pushed). subst pushed.
  rewrite (Ipv4LoopFacts.format_loop_spec segments).
  assert (E : ipv4_complete (ipv4_cleanup []) = false) by reflexivity.
  assert (N : ipv4_cleanup [] = []) by reflexivity.
  destruct segments as [|a [|b [|c [|d [|e rest]]]]];
    cbn [length Nat.sub Nat.ltb Nat.leb nth andb firstn map app].
  - reflexivity.
  - destruct (ipv4_complete (ipv4_cleanup a)) eqn:C;
      cbn [length Nat.sub Nat.ltb Nat.leb nth andb firstn map app];
      rewrite ?cleanup_twice, ?N, ?E, ?C; reflexivity.
  - destruct (ipv4_complete (ipv4_cleanup b)) eqn:C;
      cbn [length Nat.sub Nat.ltb Nat.leb nth andb firstn map app];
      rewrite ?cleanup_twice, ?N, ?E, ?C; reflexivity.
  - destruct (ipv4_complete (ipv4_cleanup c)) eqn:C;
      cbn [length Nat.sub Nat.ltb Nat.leb nth andb firstn map app];
      rewrite ?cleanup_twice, ?N, ?E, ?C; reflexivity.
  - rewrite ?cleanup_twice. reflexivity.
  - rewrite ?cleanup_twice. reflexivity.
Qed.

Lemma format_join (segments : list jsstring) :
  segments <> [] -> Forall digits segments ->
  filter cls_digit_dot (JS.join "." segments) = JS.join "." segments /\
  JS.split "." (JS.join "." segments) = segments.
Proof.
  intros N D. split.
  - apply filter_id.
    apply (MacFacts.join_Forall (fun c => cls_digit_dot c = true));
      [reflexivity |].
    eapply Forall_impl; [| exact D]. intros seg H.
    eapply Forall_impl; [| exact H]. intros c Hc.
    unfold cls_digit_dot. now rewrite Hc.
  - apply SegmentFacts.split_join; [exact N |].
    eapply Forall_impl; [| exact D]. apply digits_no_dot.
Qed.

Lemma ipv4_format_twice (x : jsstring) :
  ipv4.format (ipv4.format x) = ipv4.format x.
Proof.
  rewrite (Ipv4LoopFacts.ipv4_format_filter x).
  set (segments := JS.split "." (filter cls_digit_dot x)).
  set (pushed := ipv4.format_loop (Nat.min (length segments) 4) 0 segments []).
  assert (N : pushed <> []).
  { apply pushed_not_nil, SegmentFacts.split_not_nil. }
  assert (D : Forall digits pushed).
  { apply pushed_digits, segments_digits. }
  destruct (format_join pushed N D) as [F S].
  rewrite Ipv4LoopFacts.ipv4_format_filter. rewrite F, S. f_equal.
  apply pushed_twice.
Qed.

(** A valid IPv4 text is left as it is. *)
Lemma ipv4_validate_format (v : jsstring) :
  ipv4.validate v = true -> ipv4.format v = v.
Proof.
  intros H. apply Ipv4RegexFacts.validate_dotted_quad in H
    as (a & b & c & d & E & Ha & Hb & Hc & Hd).
  rewrite <- (SegmentFacts.join_split "." v), E.
  assert (D : Forall digits [a; b; c; d]).
  { repeat (apply Forall_cons;
              [match goal with H : octet_text _ |- _ => apply H end |]).
    apply Forall_nil. }
  destruct (format_join [a; b; c; d]) as [F S]; [discriminate | exact D |].
  rewrite Ipv4LoopFacts.ipv4_format_filter.
  rewrite F, S, Ipv4LoopFacts.format_loop_spec.
  cbn [length Nat.sub Nat.ltb Nat.leb nth andb firstn map app].
  now rewrite !cleanup_octet.
Qed.

Lemma Forall2_map_both (A B C : Type) (R : B -> C -> Prop) (f : A -> B)
    (g : A -> C) (l : list A) :
  (forall a, In a l -> R (f a) (g a)) -> Forall2 R (map f l) (map g l).
Proof.
  induction l as [|a l IH]; intros H; simpl; constructor.
  - apply H. now left.
  - apply IH. intros b Hb. apply H. now right.
Qed.

Lemma Subseq_In (a b : jsstring) (c : ascii) : Subseq a b -> In c a -> In c b.
Proof.
  induction 1 as [|x a b _ IH|x a b _ IH]; simpl; intros I.
  - exact I.
  - destruct I as [I | I]; [left; exact I | right; auto].
  - right. auto.
Qed.

(** The segments of the output are segments of input characters, cut to
    three, but for a segment over 255, which is written "255". *)
Lemma format_segments (x : jsstring) :
  exists kept : list jsstring,
    Forall2 (fun out seg =>
               out = seg \/
               (out = str "255" /\ JS.gt (JS.parseInt seg) 255 = true))
            (JS.split "." (ipv4.format x)) kept /\
    Subseq (concat kept) x.
Proof.
  rewrite Ipv4LoopFacts.ipv4_format_filter.
  set (segments := JS.split "." (filter cls_digit_dot x)).
  set (pushed := ipv4.format_loop (Nat.min (length segments) 4) 0 segments []).
  assert (N : pushed <> []).
  { apply pushed_not_nil, SegmentFacts.split_not_nil. }
  assert (D : Forall digits pushed).
  { apply pushed_digits, segments_digits. }
  destruct (format_join pushed N D) as [_ S]. rewrite S.
  unfold pushed. rewrite Ipv4LoopFacts.format_loop_spec.
  match goal with
  | |- context [map ipv4_cleanup _ ++ ?e] => set (extra := e)
  end.
  exists (map (firstn 3) (firstn 4 segments) ++ extra). split.
  - apply Forall2_app.
    + apply Forall2_map_both. intros seg _. unfold ipv4_cleanup.
      destruct (JS.gt (JS.parseInt (firstn 3 seg)) 255) eqn:G; auto.
    + unfold extra. destruct (_ && _)%bool; repeat constructor.
  - rewrite concat_app.
    replace (concat extra) with (@nil ascii)
      by (unfold extra; destruct (_ && _)%bool; reflexivity).
    rewrite app_nil_r.
    apply Subseq_trans with (concat (firstn 4 segments)).
    + apply Subseq_concat. rewrite <- (map_id (firstn 4 segments)) at 2.
      apply Forall2_map_both. intros seg _. apply Subseq_firstn.
    + eapply Subseq_trans; [apply MacFacts.concat_firstn_subseq |].
      eapply Subseq_trans;
        [apply MacFacts.concat_split_subseq | apply Subseq_filter].
Qed.

(** When no segment is over 255, the digits of the output are digits of the
    input, in their order. *)
Lemma ipv4_format_subseq (x : jsstring) :
  Forall (fun seg => JS.gt (JS.parseInt (firstn 3 seg)) 255 = false)
         (firstn 4 (JS.split "." (filter cls_digit_dot x))) ->
  Subseq (filter (fun c => negb (is_dot c)) (ipv4.format x)) x.
Proof.
  intros C. rewrite Ipv4LoopFacts.ipv4_format_filter.
  set (segments := JS.split "." (filter cls_digit_dot x)) in *.
  set (pushed := ipv4.format_loop (Nat.min (length segments) 4) 0 segments []).
  assert (D : Forall digits pushed).
  { apply pushed_digits, segments_digits. }
  unfold is_dot. rewrite MacFacts.filter_join
    by (eapply Forall_impl; [| exact D]; apply digits_no_dot).
  unfold pushed. rewrite Ipv4LoopFacts.format_loop_spec.
  match goal with
  | |- context [map ipv4_cleanup _ ++ ?e] => set (extra := e)
  end.
  rewrite concat_app.
  replace (concat extra) with (@nil ascii)
    by (unfold extra; destruct (_ && _)%bool; reflexivity).
  rewrite app_nil_r.
  apply Subseq_trans with (concat (firstn 4 segments)).
  - apply Subseq_concat. rewrite <- (map_id (firstn 4 segments)) at 2.
    apply Forall2_map_both. intros seg H. unfold ipv4_cleanup.
    rewrite Forall_forall in C. rewrite (C seg H). apply Subseq_firstn.
  - eapply Subseq_trans; [apply MacFacts.concat_firstn_subseq |].
    eapply Subseq_trans;
      [apply MacFacts.concat_split_subseq | apply Subseq_filter].
Qed.

End Ipv4Facts.

(** C1.  For each of the three handlers, formatting a formatted value
    changes nothing. *)
Theorem format_idempotent (x : jsstring) :
  ipv4.format (ipv4.format x) = ipv4.format x /\
  ipv6.format (ipv6.format x) = ipv6.format x /\
  mac.format (mac.format x) = mac.format x.
Proof.
  split; [apply Ipv4Facts.ipv4_format_twice |].
  split; [apply Ipv6Facts.ipv6_format_twice | apply MacFacts.mac_format_twice].
Qed.

(** C9.  For each of the three handlers, a value that [validate] accepts is
    left as it is by [format]. *)
Theorem validate_format_fixed (v : jsstring) :
  (ipv4.validate v = true -> ipv4.format v = v) /\
  (ipv6.validate v = true -> ipv6.format v = v) /\
  (mac.validate v = true -> mac.format v = v).
Proof.
  split; [apply Ipv4Facts.ipv4_validate_format |].
  split; [apply Ipv6Facts.ipv6_validate_format |].
  apply MacFacts.mac_validate_format.
Qed.

Lemma validate_format_fixed_witness :
  (ipv4.validate (str "192.168.1.1") = true /\
   ipv4.format (str "192.168.1.1") = str "192.168.1.1") /\
  (ipv6.validate (str "2001:0db8::1") = true /\
   ipv6.format (str "2001:0db8::1") = str "2001:0db8::1") /\
  (mac.validate (str "00:1A:2B:3C:4D:5E") = true /\
   mac.format (str "00:1A:2B:3C:4D:5E") = str "00:1A:2B:3C:4D:5E").
Proof.
  split; [| split]; (split; [vm_compute; reflexivity |]).
  - apply (proj1 (validate_format_fixed (str "192.168.1.1"))).
    vm_compute. reflexivity.
  - apply (proj1 (proj2 (validate_format_fixed (str "2001:0db8::1")))).
    vm_compute. reflexivity.
  - apply (proj2 (proj2 (validate_format_fixed (str "00:1A:2B:3C:4D:5E")))).
    vm_compute. reflexivity.
Defined.

(** C3, as the code has it.  The IPv6 output is the input with characters
    left out; the hex digits of the MAC output are input characters in
    their order; every segment of the IPv4 output is a segment of input
    characters in their order, cut to three, or the text "255" written for
    a segment over 255, so that without such a segment the digits of the
    IPv4 output are input characters in their order too. *)
Theorem format_keeps_order (x : jsstring) :
  Subseq (ipv6.format x) x /\
  Subseq (filter (fun c => negb (is_colon c)) (ipv6.format x)) x /\
  Subseq (filter (fun c => negb (is_colon c)) (mac.format x)) x /\
  (exists kept : list jsstring,
     Forall2 (fun out seg =>
                out = seg \/
                (out = str "255" /\ JS.gt (JS.parseInt seg) 255 = true))
             (JS.split "." (ipv4.format x)) kept /\
     Subseq (concat kept) x) /\
  (Forall (fun seg => JS.gt (JS.parseInt (firstn 3 seg)) 255 = false)
          (firstn 4 (JS.split "." (filter cls_digit_dot x))) ->
   Subseq (filter (fun c => negb (is_dot c)) (ipv4.format x)) x).
Proof.
  split; [apply Ipv6Facts.ipv6_format_subseq |].
  split.
  { eapply SubseqFacts.Subseq_trans;
      [apply SubseqFacts.Subseq_filter | apply Ipv6Facts.ipv6_format_subseq]. }
  split; [apply MacFacts.mac_format_subseq |].
  split; [apply Ipv4Facts.format_segments | apply Ipv4Facts.ipv4_format_subseq].
Qed.

Lemma format_keeps_order_witness :
  Forall (fun seg => JS.gt (JS.parseInt (firstn 3 seg)) 255 = false)
         (firstn 4 (JS.split "." (filter cls_digit_dot (str "192.168.1.1")))) /\
  Subseq (filter (fun c => negb (is_dot c)) (ipv4.format (str "192.168.1.1")))
         (str "192.168.1.1").
Proof.
  assert (H : Forall (fun seg => JS.gt (JS.parseInt (firstn 3 seg)) 255 = false)
         (firstn 4 (JS.split "." (filter cls_digit_dot (str "192.168.1.1"))))).
  { change (firstn 4 (JS.split "." (filter cls_digit_dot (str "192.168.1.1"))))
      with [str "192"; str "168"; str "1"; str "1"].
    repeat (apply Forall_cons; [vm_compute; reflexivity |]).
    apply Forall_nil. }
  split; [exact H |].
  apply (proj2 (proj2 (proj2 (proj2
           (format_keeps_order (str "192.168.1.1")))))).
  exact H.
Defined.

(** C3, as stated, fails: the IPv4 [format] turns "999" into "255.", whose
    digits are not characters of the input. *)
Lemma ipv4_format_clamp_not_subseq :
  ipv4.format (str "999") = str "255." /\
  ~ Subseq (filter (fun c => negb (is_dot c)) (ipv4.format (str "999")))
           (str "999").
Proof.
  split; [reflexivity |].
  change (filter (fun c => negb (is_dot c)) (ipv4.format (str "999")))
    with (str "255").
  intros H. apply (Ipv4Facts.Subseq_In _ _ "2"%char) in H; [| now left].
  simpl in H. intuition discriminate.
Qed.

(** * Further properties of the helper functions *)

Module HelperFacts.

Lemma simulateInsert_lists (v ch : jsstring) (p : nat) (sel : option nat) :
  simulateInsert v ch p sel =
  firstn p v ++ ch ++
  skipn (match sel with Some e => e | None => p end) v.
Proof.
  unfold simulateInsert.
  now rewrite JSFacts.slice_prefix, JSFacts.slice_from_nat.
Qed.

Lemma first_index_lt (d : ascii) (s : jsstring) (j : nat) :
  JS.first_index d s = Some j -> j < length s.
Proof.
  revert j. induction s as [|c t IH]; simpl; intros j; [discriminate |].
  destruct (Ascii.eqb c d); [intros [= <-]; lia |].
  destruct (JS.first_index d t) as [i|]; simpl; [| discriminate].
  intros [= <-]. specialize (IH i eq_refl). lia.
Qed.

Lemma count_char_app (a b : jsstring) (d : ascii) :
  count_char (a ++ b) d = count_char a d + count_char b d.
Proof. unfold count_char. now rewrite filter_app, length_app. Qed.

Lemma count_char_no_delim (d : ascii) (m : jsstring) :
  ~ In d m -> count_char m d = 0.
Proof.
  unfold count_char. induction m as [|c t IH]; [reflexivity |].
  intros N. simpl. destruct (Ascii.eqb_spec c d) as [-> | _].
  - elim N. now left.
  - apply IH. intros H. apply N. now right.
Qed.

Lemma after_last_no_delim (d : ascii) (m : jsstring) :
  ~ In d m -> after_last d m = m.
Proof.
  intros N. unfold after_last.
  destruct (JS.last_index d m) as [j|] eqn:E; [| reflexivity].
  apply count_char_no_delim in N.
  apply SegmentFacts.last_index_none in N. congruence.
Qed.

(** Text without a delimiter, put behind [l], stays behind the last
    delimiter of [l]. *)
Lemma after_last_app (d : ascii) (l m : jsstring) :
  ~ In d m -> after_last d (l ++ m) = after_last d l ++ m.
Proof.
  intros N. induction l as [|c t IH].
  - simpl. now apply after_last_no_delim.
  - simpl app. rewrite !SegmentFacts.after_last_cons, IH.
    rewrite count_char_app, (count_char_no_delim d m N), Nat.add_0_r.
    destruct (Ascii.eqb c d || negb (count_char t d =? 0)%nat); reflexivity.
Qed.

Lemma Forall_firstn_skipn (P : ascii -> Prop) (n : nat) (l : jsstring) :
  Forall P l -> Forall P (firstn n l) /\ Forall P (skipn n l).
Proof.
  intros F. rewrite <- (firstn_skipn n l) in F. now apply Forall_app in F.
Qed.

(** The segment around the end of an inserted text that has no delimiter:
    what stood left of the cursor in its segment, the text, and what stood
    right of the selection in its segment. *)
Lemma segment_insert (v ch : jsstring) (p : nat) (sel : option nat)
    (d : ascii) :
  p <= length v -> ~ In d ch ->
  getSegmentTextAt (simulateInsert v ch p sel) (p + length ch) d =
  after_last d (firstn p v) ++ ch ++
  before_first d (skipn (match sel with Some e => e | None => p end) v).
Proof.
  intros L N. rewrite simulateInsert_lists.
  set (r := skipn (match sel with Some e => e | None => p end) v).
  rewrite SegmentFacts.getSegmentTextAt_split, app_assoc.
  set (l := firstn p v ++ ch).
  assert (E : length l = p + length ch).
  { unfold l. rewrite length_app, length_firstn. lia. }
  rewrite firstn_app, skipn_app, firstn_all2, skipn_all2 by lia.
  replace (p + length ch - length l) with 0 by lia.
  cbn [firstn skipn app]. rewrite app_nil_r. unfold l.
  now rewrite after_last_app, <- app_assoc.
Qed.

Lemma segment_Forall (P : ascii -> Prop) (v : jsstring) (i : nat) (d : ascii) :
  Forall P v -> Forall P (getSegmentTextAt v i d).
Proof.
  intros F. rewrite SegmentFacts.getSegmentTextAt_nat.
  apply Forall_firstn_skipn. now apply Forall_firstn_skipn.
Qed.

Lemma after_last_snoc (d c : ascii) (l : jsstring) :
  c <> d -> after_last d (l ++ [c]) = after_last d l ++ [c].
Proof.
  intros N. apply after_last_app. intros [E | []]. congruence.
Qed.

End HelperFacts.

(** X1.  [simulateInsert] puts [char] between the text left of the cursor
    and the text right of the selection end; when the selection lies in the
    value, the result is shorter by the selection and longer by [char], and
    a cursor at or behind the end appends. *)
Theorem simulateInsert_length (value char : jsstring) (cursorPos selEnd : nat) :
  (cursorPos <= selEnd -> selEnd <= length value ->
   simulateInsert value char cursorPos (Some selEnd) =
     firstn cursorPos value ++ char ++ skipn selEnd value /\
   length (simulateInsert value char cursorPos (Some selEnd)) =
     length value - (selEnd - cursorPos) + length char) /\
  (length value <= cursorPos ->
   simulateInsert value char cursorPos None = value ++ char).
Proof.
  split.
  - intros H1 H2. rewrite HelperFacts.simulateInsert_lists.
    split; [reflexivity |].
    rewrite !length_app, length_firstn, length_skipn. lia.
  - intros H. rewrite HelperFacts.simulateInsert_lists.
    rewrite firstn_all2, skipn_all2 by lia. now rewrite app_nil_r.
Qed.

Lemma simulateInsert_length_witness :
  2 <= 3 /\ 3 <= length (str "192.168") /\
  length (simulateInsert (str "192.168") (str "7") 2 (Some 3)) =
  length (str "192.168") - (3 - 2) + length (str "7").
Proof.
  split; [lia |]. split; [simpl; lia |].
  apply (proj1 (simulateInsert_length (str "192.168") (str "7") 2 3));
    simpl; lia.
Defined.

(** X2.  For an index inside the value, and not index 0 of a value that
    starts with the delimiter, the bounds of [getSegmentBounds] enclose the
    index: [0 <= start <= index <= end <= length].  At index 0 of a value
    that starts with the delimiter the search for the delimiter left of the
    index starts at position 0 and finds it: the bounds are [(1, 0)]. *)
Theorem getSegmentBounds_order (value : jsstring) (index : nat) (d : ascii) :
  (index <= length value ->
   1 <= index \/ hd_error value <> Some d ->
   (0 <= fst (getSegmentBounds value index d) <= Z.of_nat index)%Z /\
   (Z.of_nat index <= snd (getSegmentBounds value index d)
    <= Z.of_nat (length value))%Z) /\
  (hd_error value = Some d ->
   getSegmentBounds value 0 d = (1%Z, 0%Z)).
Proof.
  split.
  - intros L H. rewrite SegmentFacts.getSegmentBounds_nat.
    unfold bound_start, bound_end. cbn [fst snd]. split.
    + destruct index as [|p].
      * destruct H as [H | H]; [lia |].
        destruct value as [|c t]; [simpl; lia |].
        simpl. destruct (Ascii.eqb c d) eqn:E; [| simpl; lia].
        apply Ascii.eqb_eq in E as ->. now elim H.
      * replace (S (S p - 1)) with (S p) by lia.
        destruct (JS.last_index d (firstn (S p) value)) as [j|] eqn:E; [| lia].
        apply SegmentFacts.last_index_lt in E.
        rewrite length_firstn in E. lia.
    + destruct (JS.first_index d (skipn index value)) as [j|] eqn:E; [| lia].
      apply HelperFacts.first_index_lt in E. rewrite length_skipn in E. lia.
  - intros H. destruct value as [|c t]; [discriminate |].
    injection H as ->. rewrite SegmentFacts.getSegmentBounds_nat.
    unfold bound_start, bound_end. simpl. rewrite Ascii.eqb_refl. reflexivity.
Qed.

Lemma getSegmentBounds_order_witness :
  5 <= length (str "192.168.1") /\
  (0 <= fst (getSegmentBounds (str "192.168.1") 5 ".") <= Z.of_nat 5)%Z /\
  (Z.of_nat 5 <= snd (getSegmentBounds (str "192.168.1") 5 ".")
   <= Z.of_nat (length (str "192.168.1")))%Z.
Proof.
  split; [simpl; lia |].
  apply (proj1 (getSegmentBounds_order (str "192.168.1") 5 "."));
    [simpl; lia | left; lia].
Defined.

(** X3.  For every index, also one behind the end, [getSegmentTextAt]
    returns the piece of [value.split(delimiter)] that follows as many
    delimiters as stand left of the index; it never holds the delimiter. *)
Theorem getSegmentTextAt_piece (value : jsstring) (index : nat) (d : ascii) :
  getSegmentTextAt value index d =
    nth (length (filter (fun c => Ascii.eqb c d) (firstn index value)))
        (JS.split d value) [] /\
  ~ In d (getSegmentTextAt value index d).
Proof.
  assert (E : getSegmentTextAt value index d =
              nth (count_char (firstn index value) d) (JS.split d value) []).
  { rewrite SegmentFacts.getSegmentTextAt_segment. unfold segment_at.
    now rewrite ReplaceFacts.countChar_count. }
  split; [exact E |]. rewrite E.
  pose proof (SegmentFacts.split_segments d value) as F.
  rewrite Forall_forall in F.
  destruct (nth_in_or_default (count_char (firstn index value) d)
              (JS.split d value) []) as [H | ->]; [now apply F | tauto].
Qed.

(** X4.  Typing one character that is not the delimiter at a cursor inside
    the value, without a selection, puts exactly that character into the
    segment around the cursor: the segment around the moved cursor is the
    old segment with the character in it. *)
Theorem getSegmentTextAt_insert (value : jsstring) (c d : ascii)
    (cursorPos : nat) :
  cursorPos <= length value -> c <> d ->
  exists a b,
    getSegmentTextAt value cursorPos d = a ++ b /\
    getSegmentTextAt (simulateInsert value [c] cursorPos None)
                     (cursorPos + 1) d = a ++ c :: b.
Proof.
  intros L N.
  exists (after_last d (firstn cursorPos value)),
         (before_first d (skipn cursorPos value)).
  split; [apply SegmentFacts.getSegmentTextAt_split |].
  change (cursorPos + 1) with (cursorPos + length [c]).
  rewrite HelperFacts.segment_insert; [reflexivity | exact L |].
  intros [E | []]. congruence.
Qed.

Lemma getSegmentTextAt_insert_witness :
  exists a b,
    getSegmentTextAt (str "192.16") 6 "." = a ++ b /\
    getSegmentTextAt (simulateInsert (str "192.16") ["8"%char] 6 None)
                     (6 + 1) "." = a ++ "8"%char :: b.
Proof.
  apply (getSegmentTextAt_insert (str "192.16") "8" "." 6);
    [simpl; lia | discriminate].
Defined.

(** X5.  A cursor inside the old value is moved to a position inside the
    new value. *)
Theorem computeNewCursorPosition_in_range (oldValue newValue : jsstring)
    (oldCursor : Z) :
  (0 <= oldCursor <= Z.of_nat (length oldValue))%Z ->
  (0 <= computeNewCursorPosition oldValue newValue oldCursor
   <= Z.of_nat (length newValue))%Z.
Proof.
  intros H. unfold computeNewCursorPosition.
  destruct (Nat.ltb_spec (length newValue) (length oldValue)); [lia |].
  destruct (Nat.ltb_spec (length oldValue) (length newValue)); lia.
Qed.

Lemma computeNewCursorPosition_in_range_witness :
  (0 <= 9 <= Z.of_nat (length (str "192.168.1")))%Z /\
  (0 <= computeNewCursorPosition (str "192.168.1") (str "192.168.1.") 9
   <= Z.of_nat (length (str "192.168.1.")))%Z.
Proof.
  split; [simpl; lia |].
  apply (computeNewCursorPosition_in_range (str "192.168.1")
           (str "192.168.1.") 9%Z).
  simpl. lia.
Defined.


(** ** The character tests *)

Module ClassFacts.

(** An unanchored test of one character class looks for a character of the
    class anywhere in the text. *)
Lemma test_cls (f : ascii -> bool) (s : jsstring) :
  Regex.test (Cls f) s = existsb f s.
Proof.
  apply Bool.eq_true_iff_eq.
  rewrite RegexFacts.test_lang, existsb_exists. split.
  - intros (l & m & t & -> & c & -> & Hc). exists c. split; [| exact Hc].
    apply in_or_app. right. now left.
  - intros (c & Hin & Hc). apply in_split in Hin as (l & t & ->).
    exists l, [c], t. split; [reflexivity |]. exists c. now split.
Qed.

Lemma existsb_one (f : ascii -> bool) (c : ascii) : existsb f [c] = f c.
Proof. simpl. apply orb_false_r. Qed.

Lemma jsstring_eqb_spec (a b : jsstring) : jsstring_eqb a b = true <-> a = b.
Proof.
  revert b.
  induction a as [|x a IH]; intros [|y b]; simpl; try (split; congruence).
  rewrite andb_true_iff, IH, Ascii.eqb_eq. split.
    + intros [-> ->]. reflexivity.
    + intros [= -> ->]. now split.
Qed.

Lemma jsstring_eqb_one (c d : ascii) :
  jsstring_eqb [c] [d] = Ascii.eqb c d.
Proof.
  apply Bool.eq_true_iff_eq. rewrite jsstring_eqb_spec, Ascii.eqb_eq.
  split; congruence.
Qed.

End ClassFacts.

(** X6.  [isDigit] and [isHexChar] test with an unanchored pattern: given a
    text of any length, such as the name of a key, they answer whether some
    character of it is a decimal digit, or a hex digit. *)
Theorem isDigit_isHexChar_some (ch : jsstring) :
  (isDigit ch = true <-> exists c, In c ch /\ 48 <= code c <= 57) /\
  (isHexChar ch = true <->
   exists c, In c ch /\
     (48 <= code c <= 57 \/ 97 <= code c <= 102 \/ 65 <= code c <= 70)).
Proof.
  unfold isDigit, isHexChar. rewrite !ClassFacts.test_cls, !existsb_exists.
  split; split; intros (c & Hin & Hc); exists c; (split; [exact Hin |]).
  - now apply CharFacts.cls_digit_spec.
  - now apply CharFacts.cls_digit_spec.
  - now apply CharFacts.cls_hex_spec.
  - now apply CharFacts.cls_hex_spec.
Qed.

(** X7.  None of the three [isValidChar] accepts a text that has no
    character of its class, whatever the value, the cursor and the
    selection: the IPv4 one needs a digit or a dot, the IPv6 and the MAC one
    a hex digit or a colon. *)
Theorem isValidChar_needs_class (char currentValue : jsstring)
    (cursorPos : nat) (selectionEnd : option nat) :
  (ipv4.isValidChar char currentValue cursorPos selectionEnd = true ->
   exists c, In c char /\ (cls_digit c = true \/ c = "."%char)) /\
  (ipv6.isValidChar char currentValue cursorPos selectionEnd = true ->
   exists c, In c char /\ (cls_hex c = true \/ c = ":"%char)) /\
  (mac.isValidChar char currentValue cursorPos selectionEnd = true ->
   exists c, In c char /\ (cls_hex c = true \/ c = ":"%char)).
Proof.
  unfold ipv4.isValidChar, ipv6.isValidChar, mac.isValidChar.
  rewrite !ClassFacts.test_cls.
  repeat split.
  - destruct (existsb cls_digit_dot char) eqn:E; [intros _ | discriminate].
    apply existsb_exists in E as (c & Hin & Hc). exists c. split; [exact Hin |].
    unfold cls_digit_dot, is_dot in Hc. apply orb_true_iff in Hc as [H | H];
      [now left | right; now apply Ascii.eqb_eq].
  - destruct (existsb cls_hex_colon char) eqn:E; [intros _ | discriminate].
    apply existsb_exists in E as (c & Hin & Hc). exists c. split; [exact Hin |].
    unfold cls_hex_colon, is_colon in Hc. apply orb_true_iff in Hc as [H | H];
      [now left | right; now apply Ascii.eqb_eq].
  - destruct (existsb cls_hex_colon char) eqn:E; [intros _ | discriminate].
    apply existsb_exists in E as (c & Hin & Hc). exists c. split; [exact Hin |].
    unfold cls_hex_colon, is_colon in Hc. apply orb_true_iff in Hc as [H | H];
      [now left | right; now apply Ascii.eqb_eq].
Qed.

Lemma isValidChar_needs_class_witness :
  exists c, In c (str "7") /\ (cls_digit c = true \/ c = "."%char).
Proof.
  apply (proj1 (isValidChar_needs_class (str "7") (str "192.16") 6 None)).
  vm_compute. reflexivity.
Defined.

(** X8.  For the two delimiters the handlers count, the dot and the colon,
    [countChar] is additive over concatenation, and [value.split] has one
    piece more than [countChar] counts delimiters. *)
Theorem countChar_delimiters (a b : jsstring) :
  (countChar (a ++ b) "." = countChar a "." + countChar b "." /\
   countChar (a ++ b) ":" = countChar a ":" + countChar b ":") /\
  (length (JS.split "." a) = countChar a "." + 1 /\
   length (JS.split ":" a) = countChar a ":" + 1).
Proof.
  rewrite !ReplaceFacts.countChar_count, !SegmentFacts.length_split.
  rewrite !HelperFacts.count_char_app. repeat split; lia.
Qed.


(** ** The texts [format] returns *)

Module ShapeFacts.

Lemma Subseq_length (a b : jsstring) : Subseq a b -> length a <= length b.
Proof. induction 1; simpl; lia. Qed.

Lemma colon_run_triple (q : colon_state) : colon_run q (str ":::") = Bad.
Proof. destruct q; reflexivity. Qed.

(** A text that the automaton reads without falling into [Bad] has no run
    of three colons. *)
Lemma colon_run_no_run3 (q : colon_state) (s : jsstring) :
  colon_run q s <> Bad -> ~ has_colon_run3 s.
Proof.
  intros H (l & r & ->). apply H.
  rewrite !AutomatonFacts.colon_run_app, colon_run_triple.
  apply AutomatonFacts.colon_run_bad.
Qed.

Lemma colon_run_flush (n : nat) (c : ascii) :
  is_colon c = false -> cls_hex c = true ->
  colon_step (colon_run Run0 (flush n)) c = Run0.
Proof.
  intros C H. rewrite Ipv6Facts.flush_colons.
  assert (Q : colon_run Run0 (repeat ":"%char (Nat.min n 2)) <> Bad).
  { destruct (Nat.min n 2) as [|[|[|k]]] eqn:M; [| | | lia];
      vm_compute; discriminate. }
  destruct (colon_run Run0 (repeat ":"%char (Nat.min n 2)));
    [| | | now elim Q]; unfold colon_step; now rewrite C, H.
Qed.

Lemma replace_runs_ok (s : jsstring) (n : nat) :
  Forall (fun c => cls_hex_colon c = true) s ->
  colon_run Run0 (replace_runs n s) <> Bad.
Proof.
  revert n. induction s as [|c t IH]; intros n F.
  - simpl. rewrite Ipv6Facts.flush_colons.
    destruct (Nat.min n 2) as [|[|[|k]]] eqn:M; [| | | lia];
      vm_compute; discriminate.
  - inversion F as [|? ? Hc Ft]; subst. simpl.
    destruct (is_colon c) eqn:C; [now apply IH |].
    assert (H : cls_hex c = true).
    { unfold cls_hex_colon in Hc. rewrite C in Hc.
      now rewrite orb_false_r in Hc. }
    rewrite AutomatonFacts.colon_run_app.
    change (colon_run ?q (c :: ?r)) with (colon_run (colon_step q c) r).
    rewrite (colon_run_flush n c C H). now apply IH.
Qed.

Lemma join_length (d : ascii) (k : nat) (segs : list jsstring) :
  Forall (fun seg => length seg <= k) segs ->
  length (JS.join d segs) <= length segs * (k + 1) - 1.
Proof.
  induction 1 as [|seg rest L F IH]; [simpl; lia |].
  destruct rest as [|seg' rest]; [simpl; lia |].
  change (JS.join d (seg :: seg' :: rest))
    with (seg ++ d :: JS.join d (seg' :: rest)).
  rewrite length_app. simpl length in *. lia.
Qed.

(** Cutting a text of [2 * k] characters into pairs gives [k] pairs. *)
Lemma chunk2_even (k : nat) (s : jsstring) :
  length s = 2 * k ->
  length (chunk2 s) = k /\ Forall (fun p => length p = 2) (chunk2 s).
Proof.
  revert s. induction k as [|k IH]; intros s L.
  - destruct s; [simpl; auto | simpl in L; lia].
  - destruct s as [|a [|b t]]; try (simpl in L; lia).
    destruct (IH t) as [Lt Ft]; [simpl in L; lia |].
    simpl. split; [lia |]. constructor; [reflexivity | exact Ft].
Qed.

Lemma lang_pow2_hex (s : jsstring) :
  lang (Pow 2 (Cls cls_hex)) s <-> hex_pair s.
Proof.
  simpl. split.
  - intros (s1 & s2 & -> & (a & -> & Ha) & s3 & s4 & -> & (b & -> & Hb) & ->).
    split; [reflexivity |]. repeat constructor; assumption.
  - intros [L F]. destruct s as [|a [|b [|c t]]]; try discriminate.
    inversion F as [|? ? Ha F']; subst. inversion F' as [|? ? Hb _]; subst.
    exists [a], [b]. split; [reflexivity |]. split; [exists a; auto |].
    exists [b], []. split; [reflexivity |]. split; [exists b; auto | reflexivity].
Qed.

Lemma lang_pair_colon (s : jsstring) :
  lang (Seq (Pow 2 (Cls cls_hex)) (Chr ":")) s <->
  exists p, s = p ++ [":"%char] /\ hex_pair p.
Proof.
  change (lang (Seq (Pow 2 (Cls cls_hex)) (Chr ":")) s) with
    (exists s1 s2, s = s1 ++ s2 /\ lang (Pow 2 (Cls cls_hex)) s1 /\
                   lang (Chr ":") s2).
  split.
  - intros (s1 & s2 & -> & H1 & c & -> & Hc).
    apply Ascii.eqb_eq in Hc as ->. exists s1. split; [reflexivity |].
    now apply lang_pow2_hex.
  - intros (p & -> & H). exists p, [":"%char]. split; [reflexivity |].
    split; [now apply lang_pow2_hex |]. exists ":"%char. auto.
Qed.

(** The language of the MAC pattern: six pairs of hex digits, joined by
    colons. *)
Lemma validate_pairs (v : jsstring) :
  mac.validate v = true <->
  exists segs, v = JS.join ":" segs /\ length segs = 6 /\
               Forall hex_pair segs.
Proof.
  unfold mac.validate, test_anchored. rewrite RegexFacts.matches_lang.
  unfold mac.macRegex.
  change (lang (Seq (Pow 5 (Seq (Pow 2 (Cls cls_hex)) (Chr ":")))
                    (Pow 2 (Cls cls_hex))) v)
    with (exists s1 s2, v = s1 ++ s2 /\
            (exists a1 r1, s1 = a1 ++ r1 /\
               lang (Seq (Pow 2 (Cls cls_hex)) (Chr ":")) a1 /\
             exists a2 r2, r1 = a2 ++ r2 /\
               lang (Seq (Pow 2 (Cls cls_hex)) (Chr ":")) a2 /\
             exists a3 r3, r2 = a3 ++ r3 /\
               lang (Seq (Pow 2 (Cls cls_hex)) (Chr ":")) a3 /\
             exists a4 r4, r3 = a4 ++ r4 /\
               lang (Seq (Pow 2 (Cls cls_hex)) (Chr ":")) a4 /\
             exists a5 r5, r4 = a5 ++ r5 /\
               lang (Seq (Pow 2 (Cls cls_hex)) (Chr ":")) a5 /\ r5 = []) /\
            lang (Pow 2 (Cls cls_hex)) s2).
  split.
  - intros (s1 & s2 & -> & (a1 & r1 & -> & H1 & a2 & r2 & -> & H2 &
             a3 & r3 & -> & H3 & a4 & r4 & -> & H4 & a5 & r5 & -> & H5 & ->)
            & H6).
    apply lang_pair_colon in H1 as (p1 & -> & P1).
    apply lang_pair_colon in H2 as (p2 & -> & P2).
    apply lang_pair_colon in H3 as (p3 & -> & P3).
    apply lang_pair_colon in H4 as (p4 & -> & P4).
    apply lang_pair_colon in H5 as (p5 & -> & P5).
    apply lang_pow2_hex in H6.
    exists [p1; p2; p3; p4; p5; s2]. split.
    + cbn [JS.join]. rewrite app_nil_r, <- !app_assoc. reflexivity.
    + split; [reflexivity |].
      repeat (apply Forall_cons; [assumption |]). apply Forall_nil.
  - intros (segs & -> & L & F).
    destruct segs as [|p1 [|p2 [|p3 [|p4 [|p5 [|p6 [|]]]]]]]; try discriminate.
    inversion F as [|? ? P1 F1]; subst. inversion F1 as [|? ? P2 F2]; subst.
    inversion F2 as [|? ? P3 F3]; subst. inversion F3 as [|? ? P4 F4]; subst.
    inversion F4 as [|? ? P5 F5]; subst. inversion F5 as [|? ? P6 _]; subst.
    exists ((p1 ++ [":"%char]) ++ (p2 ++ [":"%char]) ++ (p3 ++ [":"%char]) ++
            (p4 ++ [":"%char]) ++ (p5 ++ [":"%char]) ++ []), p6.
    split; [cbn [JS.join]; rewrite app_nil_r, <- !app_assoc; reflexivity |].
    split; [| now apply lang_pow2_hex].
    exists (p1 ++ [":"%char]), ((p2 ++ [":"%char]) ++ (p3 ++ [":"%char]) ++
            (p4 ++ [":"%char]) ++ (p5 ++ [":"%char]) ++ []).
    split; [reflexivity |]. split; [apply lang_pair_colon; eauto |].
    exists (p2 ++ [":"%char]), ((p3 ++ [":"%char]) ++
            (p4 ++ [":"%char]) ++ (p5 ++ [":"%char]) ++ []).
    split; [reflexivity |]. split; [apply lang_pair_colon; eauto |].
    exists (p3 ++ [":"%char]), ((p4 ++ [":"%char]) ++ (p5 ++ [":"%char]) ++ []).
    split; [reflexivity |]. split; [apply lang_pair_colon; eauto |].
    exists (p4 ++ [":"%char]), ((p5 ++ [":"%char]) ++ []).
    split; [reflexivity |]. split; [apply lang_pair_colon; eauto |].
    exists (p5 ++ [":"%char]), [].
    split; [reflexivity |]. split; [apply lang_pair_colon; eauto |].
    reflexivity.
Qed.

(** The shape of every text [mac.format] returns. *)
Lemma mac_format_groups (x : jsstring) :
  exists segs, mac.format x = JS.join ":" segs /\ length segs <= 6 /\
               Forall short_hex segs.
Proof.
  unfold mac.format. destruct (mac.colon_aware x) as [r|] eqn:E.
  - apply MacFacts.colon_aware_groups in E as (segs & -> & L & F & _).
    exists segs. split; [reflexivity |]. split; [lia | exact F].
  - rewrite MacFacts.colon_free_chunk2.
    exists (chunk2 (firstn 12 (filter cls_hex x))).
    split; [reflexivity |]. split.
    + pose proof (MacFacts.chunk2_length (firstn 12 (filter cls_hex x))) as L.
      rewrite length_firstn in L. lia.
    + apply MacFacts.chunk2_short.
      apply SubseqFacts.Subseq_Forall with (filter cls_hex x);
        [apply SubseqFacts.Subseq_firstn | apply SubseqFacts.filter_Forall].
Qed.

Lemma filter_hex_join (segs : list jsstring) :
  Forall short_hex segs ->
  filter cls_hex (JS.join ":" segs) = concat segs.
Proof.
  induction 1 as [|seg rest [_ H] F IH]; [reflexivity |].
  destruct rest as [|seg' rest].
  - simpl. rewrite app_nil_r. now apply SubseqFacts.filter_id.
  - change (JS.join ":" (seg :: seg' :: rest))
      with (seg ++ ":"%char :: JS.join ":" (seg' :: rest)).
    rewrite filter_app, (SubseqFacts.filter_id _ _ H).
    change (filter cls_hex (":"%char :: ?t)) with (filter cls_hex t).
    now rewrite IH.
Qed.

End ShapeFacts.

(** X9.  Whatever the input, [ipv6.format] returns a text of hex digits and
    colons that has no run of three colons and is not longer than the
    input. *)
Theorem ipv6_format_shape (value : jsstring) :
  Forall (fun c => cls_hex_colon c = true) (ipv6.format value) /\
  ~ has_colon_run3 (ipv6.format value) /\
  length (ipv6.format value) <= length value.
Proof.
  split; [| split].
  - rewrite Ipv6Facts.ipv6_format_filter.
    apply SubseqFacts.Subseq_Forall with (filter cls_hex_colon value).
    + apply (Ipv6Facts.replace_runs_subseq (filter cls_hex_colon value) 0).
    + apply SubseqFacts.filter_Forall.
  - rewrite Ipv6Facts.ipv6_format_filter.
    apply (ShapeFacts.colon_run_no_run3 Run0), ShapeFacts.replace_runs_ok.
    apply SubseqFacts.filter_Forall.
  - apply ShapeFacts.Subseq_length, Ipv6Facts.ipv6_format_subseq.
Qed.

Module Ipv6FixedFacts.

Lemma ipv6_fixed_iff (value : jsstring) :
  ipv6.format value = value <->
  Forall (fun c => cls_hex_colon c = true) value /\ ~ has_colon_run3 value.
Proof.
  split.
  - intros E. rewrite <- E. split.
    + rewrite Ipv6Facts.ipv6_format_filter.
      apply SubseqFacts.Subseq_Forall with (filter cls_hex_colon value).
      * apply (Ipv6Facts.replace_runs_subseq (filter cls_hex_colon value) 0).
      * apply SubseqFacts.filter_Forall.
    + rewrite Ipv6Facts.ipv6_format_filter.
      apply (ShapeFacts.colon_run_no_run3 Run0), ShapeFacts.replace_runs_ok.
      apply SubseqFacts.filter_Forall.
  - intros [F N]. rewrite Ipv6Facts.format_no_run3.
    + now apply SubseqFacts.filter_id.
    + rewrite (SubseqFacts.filter_id _ _ F).
      apply not_true_is_false. intros T. apply N.
      now apply ColonFacts.test_colon_run3.
Qed.

End Ipv6FixedFacts.

(** X10.  The texts that [ipv6.format] leaves as they are, those for which
    [handleInput] does not rewrite the field, are exactly the texts of hex
    digits and colons without a run of three colons. *)
Theorem ipv6_format_fixed_points (value : jsstring) :
  ipv6.format value = value <->
  Forall (fun c => cls_hex_colon c = true) value /\ ~ has_colon_run3 value.
Proof. exact (Ipv6FixedFacts.ipv6_fixed_iff value). Qed.

(** X11.  Whatever the input, [mac.format] returns at most six groups of at
    most two hex digits each, joined by colons: at most 17 characters. *)
Theorem mac_format_shape (value : jsstring) :
  (exists segs, mac.format value = JS.join ":" segs /\ length segs <= 6 /\
                Forall short_hex segs) /\
  length (mac.format value) <= 17.
Proof.
  destruct (ShapeFacts.mac_format_groups value) as (segs & E & L & F).
  split; [now exists segs |].
  rewrite E.
  assert (B : Forall (fun seg : jsstring => length seg <= 2) segs).
  { eapply Forall_impl; [| exact F]. now intros seg [H _]. }
  pose proof (ShapeFacts.join_length ":" 2 segs B). lia.
Qed.

(** X12.  The texts that [mac.format] leaves as they are are exactly the
    texts of one to six groups of at most two hex digits, joined by
    colons. *)
Theorem mac_format_fixed_points (value : jsstring) :
  mac.format value = value <->
  exists segs, value = JS.join ":" segs /\ 1 <= length segs <= 6 /\
               Forall short_hex segs.
Proof.
  split.
  - intros E. destruct (ShapeFacts.mac_format_groups value) as (segs & J & L & F).
    rewrite E in J. destruct segs as [|seg rest].
    + exists [[]]. split; [exact J |]. split; [simpl; lia |].
      repeat constructor.
    + exists (seg :: rest). split; [exact J |]. split; [simpl in *; lia | exact F].
  - intros (segs & -> & L & F).
    destruct segs as [|seg [|seg' rest]]; [simpl in L; lia | |].
    + inversion F; subst. now apply MacFacts.format_short.
    + unfold mac.format. rewrite MacFacts.format_groups; [reflexivity | | exact F].
      simpl in *. lia.
Qed.

(** X13.  [mac.validate] accepts exactly the texts of six groups of exactly
    two hex digits, joined by colons; they have 17 characters. *)
Theorem mac_validate_six_pairs (value : jsstring) :
  (mac.validate value = true <->
   exists segs, value = JS.join ":" segs /\ length segs = 6 /\
                Forall hex_pair segs) /\
  (mac.validate value = true -> length value = 17).
Proof.
  split; [apply ShapeFacts.validate_pairs |].
  intros H. apply ShapeFacts.validate_pairs in H as (segs & -> & L & F).
  destruct segs as [|p1 [|p2 [|p3 [|p4 [|p5 [|p6 [|]]]]]]]; try discriminate.
  inversion F as [|? ? [P1 _] F1]; subst.
  inversion F1 as [|? ? [P2 _] F2]; subst.
  inversion F2 as [|? ? [P3 _] F3]; subst.
  inversion F3 as [|? ? [P4 _] F4]; subst.
  inversion F4 as [|? ? [P5 _] F5]; subst.
  inversion F5 as [|? ? [P6 _] _]; subst.
  cbn [JS.join]. repeat (rewrite length_app; cbn [length]). lia.
Qed.

Lemma mac_validate_six_pairs_witness :
  length (str "00:1A:2B:3C:4D:5E") = 17.
Proof.
  apply (proj2 (mac_validate_six_pairs (str "00:1A:2B:3C:4D:5E"))).
  vm_compute. reflexivity.
Defined.

(** X14.  A text without a colon that holds twelve hex digits or more, among
    any other characters, is formatted into a MAC address that [validate]
    accepts, made of its first twelve hex digits. *)
Theorem mac_format_validates (value : jsstring) :
  ~ In ":"%char value -> 12 <= length (filter cls_hex value) ->
  mac.validate (mac.format value) = true /\
  filter cls_hex (mac.format value) = firstn 12 (filter cls_hex value).
Proof.
  intros N L.
  assert (E : mac.format value =
              JS.join ":" (chunk2 (firstn 12 (filter cls_hex value)))).
  { unfold mac.format. rewrite MacFacts.colon_aware_filter.
    destruct (JS.includes (filter cls_hex_colon value) (str ":")) eqn:I.
    - exfalso. apply (MacFacts.includes_char _ ":"%char) in I.
      apply filter_In in I as [I _]. contradiction.
    - apply MacFacts.colon_free_chunk2. }
  set (h := firstn 12 (filter cls_hex value)) in *.
  assert (Lh : length h = 2 * 6).
  { unfold h. rewrite length_firstn. lia. }
  assert (Fh : Forall (fun c => cls_hex c = true) h).
  { apply SubseqFacts.Subseq_Forall with (filter cls_hex value);
      [apply SubseqFacts.Subseq_firstn | apply SubseqFacts.filter_Forall]. }
  destruct (ShapeFacts.chunk2_even 6 h Lh) as [Lc Fc].
  pose proof (MacFacts.chunk2_short h Fh) as Sc.
  rewrite E. split.
  - apply ShapeFacts.validate_pairs. exists (chunk2 h).
    split; [reflexivity |]. split; [exact Lc |].
    rewrite Forall_forall in *. intros p Hp. split; [now apply Fc |].
    now apply Sc.
  - rewrite (ShapeFacts.filter_hex_join _ Sc). apply MacFacts.concat_chunk2.
Qed.

Lemma mac_format_validates_witness :
  mac.validate (mac.format (str "001a-2b3c-4d5e ff")) = true /\
  filter cls_hex (mac.format (str "001a-2b3c-4d5e ff")) =
  firstn 12 (filter cls_hex (str "001a-2b3c-4d5e ff")).
Proof.
  apply (mac_format_validates (str "001a-2b3c-4d5e ff")).
  - vm_compute. intuition discriminate.
  - vm_compute. lia.
Defined.


Module Ipv4ShapeFacts.

Lemma nth_last (A : Type) (l : list A) (d : A) :
  nth (length l - 1) l d = last l d.
Proof.
  induction l as [|a [|b t] IH]; try reflexivity.
  change (last (a :: b :: t) d) with (last (b :: t) d). rewrite <- IH.
  simpl. now rewrite Nat.sub_0_r.
Qed.

Lemma digit_value_digit (c : ascii) :
  cls_digit c = true -> (0 <= JS.digit_value c <= 9)%Z.
Proof.
  intros H. apply CharFacts.cls_digit_spec in H.
  rewrite CharFacts.digit_value_spec. lia.
Qed.

Lemma decimal_short (s : jsstring) :
  digits s -> length s <= 2 -> (JS.decimal s <= 99)%Z.
Proof.
  intros D L. destruct s as [|a [|b [|c t]]]; [| | | simpl in L; lia].
  - vm_compute. discriminate.
  - inversion D as [|? ? Ha _]; subst. rewrite Ipv4RegexFacts.decimal1.
    apply digit_value_digit in Ha. lia.
  - inversion D as [|? ? Ha D']; subst. inversion D' as [|? ? Hb _]; subst.
    rewrite Ipv4RegexFacts.decimal2.
    apply digit_value_digit in Ha. apply digit_value_digit in Hb. lia.
Qed.

Lemma parseInt_empty : JS.parseInt [] = None.
Proof. reflexivity. Qed.

(** Only a segment of three digits or more reads as a number over 255. *)
Lemma gt_255_long (s : jsstring) :
  digits s -> JS.gt (JS.parseInt s) 255 = true -> 3 <= length s.
Proof.
  intros D G. destruct (Nat.le_gt_cases 3 (length s)) as [|L]; [assumption |].
  exfalso. destruct s as [|c t]; [discriminate |].
  rewrite Ipv4Facts.parseInt_digits in G; [| exact D | discriminate].
  simpl in G. apply Z.ltb_lt in G.
  pose proof (decimal_short (c :: t) D). lia.
Qed.

Lemma cleanup_length (s : jsstring) :
  digits s -> length (ipv4_cleanup s) <= length s.
Proof.
  intros D. unfold ipv4_cleanup.
  destruct (JS.gt (JS.parseInt (firstn 3 s)) 255) eqn:G.
  - apply gt_255_long in G.
    + rewrite length_firstn in G. simpl. lia.
    + apply SubseqFacts.Subseq_Forall with s;
        [apply SubseqFacts.Subseq_firstn | exact D].
  - rewrite length_firstn. lia.
Qed.

(** A cleaned segment of digits is empty or the text of an octet. *)
Lemma cleanup_shape (s : jsstring) :
  digits s -> ipv4_cleanup s = [] \/ octet_text (ipv4_cleanup s).
Proof.
  intros D. unfold ipv4_cleanup.
  assert (Dc : digits (firstn 3 s)).
  { apply SubseqFacts.Subseq_Forall with s;
      [apply SubseqFacts.Subseq_firstn | exact D]. }
  destruct (JS.gt (JS.parseInt (firstn 3 s)) 255) eqn:G.
  - right. split; [simpl; lia |]. split.
    + repeat (apply Forall_cons; [reflexivity |]). apply Forall_nil.
    + vm_compute. discriminate.
  - destruct (firstn 3 s) as [|c t] eqn:E; [now left |]. right.
    rewrite Ipv4Facts.parseInt_digits in G; [| exact Dc | discriminate].
    simpl in G. apply Z.ltb_ge in G.
    split; [| split; [exact Dc | exact G]].
    rewrite <- E, length_firstn.
    apply (f_equal (@length _)) in E. rewrite length_firstn in E.
    cbn [length] in E. lia.
Qed.

Lemma shape_digits (s : jsstring) : s = [] \/ octet_text s -> digits s.
Proof. intros [-> | (_ & D & _)]; [constructor | exact D]. Qed.

Lemma shape_cleanup (s : jsstring) :
  s = [] \/ octet_text s -> ipv4_cleanup s = s.
Proof.
  intros [-> | H]; [reflexivity | now apply Ipv4Facts.cleanup_octet].
Qed.

Lemma cleanup_fixed (s : jsstring) :
  digits s -> ipv4_cleanup s = s -> s = [] \/ octet_text s.
Proof.
  intros D E. rewrite <- E. now apply cleanup_shape.
Qed.

Lemma firstn_In (A : Type) (n : nat) (l : list A) (x : A) :
  In x (firstn n l) -> In x l.
Proof.
  intros H. rewrite <- (firstn_skipn n l). apply in_or_app. now left.
Qed.

(** The list the loop of [format] builds from pieces of digits. *)
Lemma pushed_shape (segments : list jsstring) :
  segments <> [] -> Forall digits segments ->
  1 <= length
         (ipv4.format_loop (Nat.min (length segments) 4) 0 segments []) <= 4 /\
  Forall (fun s => s = [] \/ octet_text s)
         (ipv4.format_loop (Nat.min (length segments) 4) 0 segments []).
Proof.
  intros N D. rewrite Ipv4LoopFacts.format_loop_spec. split.
  - rewrite length_app, length_map, length_firstn.
    destruct segments as [|s0 rest]; [now elim N |].
    destruct (Nat.ltb_spec (length (s0 :: rest) - 1) 3) as [L | L];
      cbn [andb]; [| simpl length in *; lia].
    destruct (ipv4_complete _); simpl length in *; lia.
  - apply Forall_app. split.
    + apply Forall_forall. intros s H.
      apply in_map_iff in H as (s' & <- & H). apply cleanup_shape.
      rewrite Forall_forall in D. apply D. eapply firstn_In, H.
    + destruct (_ && _); repeat constructor.
Qed.

Lemma join_total (d : ascii) (segs : list jsstring) :
  segs <> [] ->
  S (length (JS.join d segs)) =
  list_sum (map (fun seg => S (length seg)) segs).
Proof.
  induction segs as [|seg rest IH]; [congruence |]. intros _.
  destruct rest as [|seg' rest]; [simpl; lia |].
  change (JS.join d (seg :: seg' :: rest))
    with (seg ++ d :: JS.join d (seg' :: rest)).
  rewrite length_app. specialize (IH ltac:(discriminate)).
  cbn [length map] in *.
  unfold list_sum in *. cbn [fold_right] in *. lia.
Qed.

Lemma list_sum_map_le (A : Type) (f g : A -> nat) (l : list A) :
  Forall (fun x => f x <= g x) l ->
  list_sum (map f l) <= list_sum (map g l).
Proof. induction 1; simpl; lia. Qed.

Lemma list_sum_firstn (n : nat) (l : list nat) :
  list_sum (firstn n l) <= list_sum l.
Proof.
  rewrite <- (firstn_skipn n l) at 2. rewrite list_sum_app. lia.
Qed.

Lemma ipv4_format_pushed (x : jsstring) :
  JS.split "." (ipv4.format x) =
  ipv4.format_loop
    (Nat.min (length (JS.split "." (filter cls_digit_dot x))) 4) 0
    (JS.split "." (filter cls_digit_dot x)) [].
Proof.
  rewrite Ipv4LoopFacts.ipv4_format_filter.
  apply Ipv4Facts.format_join.
  - apply Ipv4Facts.pushed_not_nil, SegmentFacts.split_not_nil.
  - apply Ipv4Facts.pushed_digits, Ipv4Facts.segments_digits.
Qed.

Lemma ipv4_format_length (x : jsstring) :
  length (ipv4.format x) <= length x + 1.
Proof.
  rewrite Ipv4LoopFacts.ipv4_format_filter.
  set (segments := JS.split "." (filter cls_digit_dot x)).
  assert (N : segments <> []) by apply SegmentFacts.split_not_nil.
  assert (D : Forall digits segments) by apply Ipv4Facts.segments_digits.
  pose proof (join_total "." _ (Ipv4Facts.pushed_not_nil segments N)) as T.
  pose proof (join_total "." segments N) as T0.
  unfold segments in T0 at 1. rewrite SegmentFacts.join_split in T0.
  pose proof (filter_length_le cls_digit_dot x) as Lx.
  rewrite Ipv4LoopFacts.format_loop_spec in T |- *.
  rewrite map_app, list_sum_app, map_map in T.
  match type of T with
  | _ = ?a + ?b =>
      assert (B : b <= 1) by (destruct (_ && _); simpl; lia);
      match type of T0 with
      | _ = ?c => assert (A : a <= c)
      end
  end.
  { etransitivity.
    - apply list_sum_map_le with (g := fun s => S (length s)).
      apply Forall_forall. intros s H.
      apply le_n_S, cleanup_length.
      rewrite Forall_forall in D. apply D. eapply firstn_In, H.
    - rewrite <- firstn_map. apply list_sum_firstn. }
  lia.
Qed.

Lemma map_fixed_last (A : Type) (f : A -> A) (l : list A) (d : A) :
  l <> [] -> map f l = l -> f (last l d) = last l d.
Proof.
  induction l as [|a [|b t] IH]; [congruence | |]; intros _ E.
  - now injection E.
  - change (last (a :: b :: t) d) with (last (b :: t) d).
    apply IH; [discriminate |]. simpl in E. injection E as _ E1 E2.
    simpl. now rewrite E1, E2.
Qed.

(** A list of pieces that the loop of [format] maps to itself. *)
Lemma pushed_fixed (segs : list jsstring) :
  segs <> [] -> length segs <= 4 ->
  (ipv4.format_loop (Nat.min (length segs) 4) 0 segs [] = segs <->
   map ipv4_cleanup segs = segs /\
   (length segs <= 3 -> ipv4_complete (last segs []) = false)).
Proof.
  intros N L. rewrite Ipv4LoopFacts.format_loop_spec.
  rewrite firstn_all2 by lia. rewrite nth_last.
  destruct (Nat.ltb_spec (length segs - 1) 3) as [L3 | L3]; cbn [andb].
  - destruct (ipv4_complete (ipv4_cleanup (last segs []))) eqn:C.
    + split.
      * intros E. apply (f_equal (@length _)) in E.
        rewrite length_app, length_map in E. simpl in E. lia.
      * intros [E F]. exfalso.
        assert (Q : ipv4_cleanup (last segs []) = last segs []).
        { now apply map_fixed_last. }
        rewrite Q in C. rewrite F in C; [discriminate | lia].
    + rewrite app_nil_r. split.
      * intros E. split; [exact E |]. intros _.
        assert (Q : ipv4_cleanup (last segs []) = last segs []).
        { now apply map_fixed_last. }
        now rewrite <- Q.
      * now intros [E _].
  - rewrite app_nil_r. split.
    + intros E. split; [exact E | lia].
    + now intros [E _].
Qed.

End Ipv4ShapeFacts.

(** X15.  Whatever the input, [ipv4.format] returns at most four pieces
    joined by dots, each piece empty or one to three digits that read as a
    number up to 255; the text is at most one character, the dot put behind
    a complete piece, longer than the input. *)
Theorem ipv4_format_shape (value : jsstring) :
  1 <= length (JS.split "." (ipv4.format value)) <= 4 /\
  Forall (fun s => s = [] \/ octet_text s)
         (JS.split "." (ipv4.format value)) /\
  length (ipv4.format value) <= length value + 1.
Proof.
  rewrite Ipv4ShapeFacts.ipv4_format_pushed.
  destruct (Ipv4ShapeFacts.pushed_shape
              (JS.split "." (filter cls_digit_dot value))) as [L F].
  - apply SegmentFacts.split_not_nil.
  - apply Ipv4Facts.segments_digits.
  - split; [exact L |]. split; [exact F |].
    apply Ipv4ShapeFacts.ipv4_format_length.
Qed.

Module Ipv4FixedFacts.

Lemma ipv4_fixed_iff (value : jsstring) :
  ipv4.format value = value <->
  length (JS.split "." value) <= 4 /\
  Forall (fun s => s = [] \/ octet_text s) (JS.split "." value) /\
  (length (JS.split "." value) <= 3 ->
   ipv4_complete (last (JS.split "." value) []) = false).
Proof.
  split.
  - intros E.
    pose proof (Ipv4ShapeFacts.ipv4_format_pushed value) as P.
    pose proof (Ipv4Facts.pushed_twice
                  (JS.split "." (filter cls_digit_dot value))) as T.
    cbv zeta in T. rewrite <- P, E in T.
    destruct (Ipv4ShapeFacts.pushed_shape
                (JS.split "." (filter cls_digit_dot value))) as [L F].
    { apply SegmentFacts.split_not_nil. }
    { apply Ipv4Facts.segments_digits. }
    rewrite <- P, E in L, F.
    apply Ipv4ShapeFacts.pushed_fixed in T;
      [| apply SegmentFacts.split_not_nil | lia].
    split; [lia |]. split; [exact F | apply T].
  - intros (L & F & C).
    set (segs := JS.split "." value) in *.
    assert (N : segs <> []) by apply SegmentFacts.split_not_nil.
    assert (D : Forall digits segs).
    { eapply Forall_impl; [| exact F]. apply Ipv4ShapeFacts.shape_digits. }
    assert (J : value = JS.join "." segs).
    { unfold segs. now rewrite SegmentFacts.join_split. }
    destruct (Ipv4Facts.format_join segs N D) as [Fl Sp].
    rewrite Ipv4LoopFacts.ipv4_format_filter.
    rewrite J at 1 2. rewrite Fl, Sp.
    rewrite (proj2 (Ipv4ShapeFacts.pushed_fixed segs N L)); [now rewrite <- J |].
    split; [| exact C].
    apply MacFacts.map_fix. eapply Forall_impl; [| exact F].
    apply Ipv4ShapeFacts.shape_cleanup.
Qed.

End Ipv4FixedFacts.

(** X16.  The texts that [ipv4.format] leaves as they are, those for which
    [handleInput] does not rewrite the field, are exactly the texts of at
    most four pieces between dots, each piece empty or the text of an octet,
    whose last piece is not complete when there are fewer than four: a
    complete piece would get a dot. *)
Theorem ipv4_format_fixed_points (value : jsstring) :
  ipv4.format value = value <->
  length (JS.split "." value) <= 4 /\
  Forall (fun s => s = [] \/ octet_text s) (JS.split "." value) /\
  (length (JS.split "." value) <= 3 ->
   ipv4_complete (last (JS.split "." value) []) = false).
Proof. exact (Ipv4FixedFacts.ipv4_fixed_iff value). Qed.


(** ** The digit and hex branches of [isValidChar], and the dot branch *)

Module KeyFacts.

Lemma hex_not_colon (c : ascii) : cls_hex c = true -> Ascii.eqb c ":" = false.
Proof.
  intros H. destruct (Ascii.eqb_spec c ":") as [-> | _]; [| reflexivity].
  vm_compute in H. discriminate.
Qed.

Lemma digit_not_dot (c : ascii) : cls_digit c = true -> Ascii.eqb c "." = false.
Proof.
  intros H. destruct (Ascii.eqb_spec c ".") as [-> | _]; [| reflexivity].
  vm_compute in H. discriminate.
Qed.

Lemma segment_no_delim (v : jsstring) (i : nat) (d : ascii) :
  ~ In d (getSegmentTextAt v i d).
Proof.
  rewrite SegmentFacts.getSegmentTextAt_segment. unfold segment_at.
  pose proof (SegmentFacts.split_segments d v) as F.
  rewrite Forall_forall in F.
  destruct (nth_in_or_default (countChar (firstn i v) d) (JS.split d v) [])
    as [H | ->]; [now apply F | tauto].
Qed.

(** A text of digits and dots that has no dot is a text of digits. *)
Lemma digits_of_digit_dot (s : jsstring) :
  Forall (fun c => cls_digit_dot c = true) s -> ~ In "."%char s -> digits s.
Proof.
  intros F N. apply Forall_forall. intros c Hc.
  rewrite Forall_forall in F. specialize (F c Hc).
  unfold cls_digit_dot, is_dot in F. apply orb_true_iff in F as [F | F];
    [exact F |]. apply Ascii.eqb_eq in F as ->. contradiction.
Qed.

(** The three tests of the digit branch, on a piece of digits. *)
Lemma digit_tests (seg : jsstring) :
  digits seg -> seg <> [] ->
  ((if (3 <? length seg)%nat then false else
    if (1 <? length seg)%nat && JS.startsWith seg (str "0") then false else
    if JS.gt (JS.parseInt seg) 255 then false else true) = true <->
   canonical_octet seg).
Proof.
  intros D N. rewrite (Ipv4Facts.parseInt_digits seg D N).
  cbn [JS.gt]. unfold canonical_octet, octet_text.
  assert (P : 1 <= length seg) by (destruct seg; [congruence | simpl; lia]).
  assert (Z0 : JS.startsWith seg (str "0") = true <->
               hd_error seg = Some "0"%char)
    by apply ColonFacts.starts_with_char.
  destruct (Nat.ltb_spec 3 (length seg)) as [L3 | L3].
  { split; [discriminate | lia]. }
  destruct (Nat.ltb_spec 1 (length seg)) as [L1 | L1]; cbn [andb].
  - destruct (JS.startsWith seg (str "0")) eqn:S0.
    + split; [discriminate |]. intros (_ & H). elim (H L1). now apply Z0.
    + destruct (Z.ltb_spec 255 (JS.decimal seg)) as [V | V].
      * split; [discriminate | lia].
      * split; [intros _ | reflexivity].
        split; [split; [lia | split; [exact D | exact V]] |].
        intros _ H. apply Z0 in H. congruence.
  - destruct (Z.ltb_spec 255 (JS.decimal seg)) as [V | V].
    + split; [discriminate | lia].
    + split; [intros _ | reflexivity].
      split; [split; [lia | split; [exact D | exact V]] | lia].
Qed.

Lemma char_left_spec (v : jsstring) (p : nat) :
  match char_left v p with
  | Some c => exists l, firstn p v = l ++ [c]
  | None => firstn p v = []
  end.
Proof.
  unfold char_left. destruct (rev (firstn p v)) as [|c t] eqn:E; simpl.
  - apply (f_equal (@rev _)) in E. now rewrite rev_involutive in E.
  - apply (f_equal (@rev _)) in E. rewrite rev_involutive in E.
    exists (rev t). exact E.
Qed.

End KeyFacts.

Module Ipv6KeyFacts.


End Ipv6KeyFacts.



Module MacKeyFacts.

Lemma mac_hex_accepted (c : ascii) (currentValue : jsstring)
    (cursorPos : nat) (selectionEnd : option nat) :
  cls_hex c = true ->
  mac.isValidChar [c] currentValue cursorPos selectionEnd =
  (length (filter cls_hex
             (simulateInsert currentValue [] cursorPos selectionEnd))
   <? 12)%nat.
Proof.
  intros H. unfold mac.isValidChar, isHexChar.
  rewrite !ClassFacts.test_cls, !ClassFacts.existsb_one.
  unfold cls_hex_colon. rewrite H. cbn [orb negb].
  change (str ":") with [":"%char].
  rewrite ClassFacts.jsstring_eqb_one, (KeyFacts.hex_not_colon c H).
  rewrite ReplaceFacts.replace_all_class.
  rewrite !HelperFacts.simulateInsert_lists, !filter_app.
  cbn [filter]. rewrite H.
  set (a := filter cls_hex (firstn cursorPos currentValue)).
  set (b := filter cls_hex (skipn _ currentValue)).
  rewrite !length_app. cbn [length app].
  repeat match goal with
         | |- context [(?x <? ?y)%nat] => destruct (Nat.ltb_spec x y)
         end; try reflexivity; lia.
Qed.

End MacKeyFacts.



Module Ipv4DigitFacts.

Lemma ipv4_digit_accepted (c : ascii) (currentValue : jsstring)
    (cursorPos : nat) (selectionEnd : option nat) :
  cls_digit c = true ->
  Forall (fun x => cls_digit_dot x = true) currentValue ->
  cursorPos <= length currentValue ->
  (ipv4.isValidChar [c] currentValue cursorPos selectionEnd = true <->
   canonical_octet
     (getSegmentTextAt
        (simulateInsert currentValue [c] cursorPos selectionEnd)
        (cursorPos + 1) ".")).
Proof.
  intros H F L. unfold ipv4.isValidChar, isDigit.
  rewrite !ClassFacts.test_cls, !ClassFacts.existsb_one.
  unfold cls_digit_dot at 1. rewrite H. cbn [orb negb].
  change (str ".") with ["."%char].
  rewrite ClassFacts.jsstring_eqb_one, (KeyFacts.digit_not_dot c H).
  set (seg := getSegmentTextAt
                (simulateInsert currentValue [c] cursorPos selectionEnd)
                (cursorPos + 1) ".").
  assert (N : ~ In "."%char [c]).
  { intros [E | []]. subst c. vm_compute in H. discriminate. }
  assert (D : digits seg).
  { apply KeyFacts.digits_of_digit_dot; [| apply KeyFacts.segment_no_delim].
    apply HelperFacts.segment_Forall.
    rewrite HelperFacts.simulateInsert_lists.
    destruct (HelperFacts.Forall_firstn_skipn _ cursorPos _ F) as [F1 _].
    destruct (HelperFacts.Forall_firstn_skipn _
                (match selectionEnd with Some e => e | None => cursorPos end)
                _ F) as [_ F2].
    apply Forall_app. split; [exact F1 |]. apply Forall_app. split; [| exact F2].
    constructor; [| constructor]. unfold cls_digit_dot. now rewrite H. }
  assert (E : seg <> []).
  { unfold seg. change (cursorPos + 1) with (cursorPos + length [c]).
    rewrite (HelperFacts.segment_insert _ _ _ _ _ L N).
    intros Q. apply (f_equal (@length _)) in Q.
    rewrite !length_app in Q. simpl in Q. lia. }
  change ["."%char] with (str ".").
  exact (KeyFacts.digit_tests seg D E).
Qed.

End Ipv4DigitFacts.



Module Ipv4DotFacts.

Lemma ipv4_dot_accepted (currentValue : jsstring) (cursorPos : nat)
    (selectionEnd : option nat) :
  ipv4.isValidChar (str ".") currentValue cursorPos selectionEnd = true <->
  countChar (simulateInsert currentValue (str ".") cursorPos selectionEnd) "."
    <= 3 /\
  (exists c, char_left currentValue cursorPos = Some c /\ c <> "."%char) /\
  char_right currentValue cursorPos <> Some "."%char.
Proof.
  unfold ipv4.isValidChar.
  assert (T : Regex.test (Cls cls_digit_dot) (str ".") = true)
    by (vm_compute; reflexivity).
  assert (J : jsstring_eqb (str ".") (str ".") = true)
    by (vm_compute; reflexivity).
  rewrite T, J. cbn [negb].
  rewrite JSFacts.slice_prefix.
  pose proof (ColonFacts.endsWith_char_left currentValue cursorPos ".") as EL.
  rewrite JSFacts.slice_prefix in EL.
  pose proof (ColonFacts.startsWith_char_right currentValue cursorPos ".")
    as ER.
  change (str ".") with ["."%char] in *.
  pose proof (KeyFacts.char_left_spec currentValue cursorPos) as CL.
  destruct (Nat.ltb_spec 3
              (countChar (simulateInsert currentValue ["."%char] cursorPos
                            selectionEnd) ".")) as [C | C].
  { split; [discriminate | lia]. }
  destruct (char_left currentValue cursorPos) as [cl|] eqn:Ecl.
  - destruct CL as (l & Hl).
    assert (Z1 : (length (firstn cursorPos currentValue) =? 0)%nat = false).
    { rewrite Hl, length_app. simpl. apply Nat.eqb_neq. lia. }
    rewrite Z1. cbn [orb].
    destruct (JS.endsWith (firstn cursorPos currentValue) ["."%char]) eqn:B.
    + split; [discriminate |]. intros (_ & (c & [= <-] & Nc) & _).
      pose proof (proj1 EL eq_refl). congruence.
    + assert (Nd : cl <> "."%char).
      { intros ->. pose proof (proj2 EL eq_refl). discriminate. }
      assert (Z2 : (length (getSegmentTextAt currentValue cursorPos ".")
                    =? 0)%nat = false).
      { rewrite SegmentFacts.getSegmentTextAt_split, Hl.
        rewrite (HelperFacts.after_last_snoc _ _ _ Nd), !length_app.
        simpl. apply Nat.eqb_neq. lia. }
      unfold getSegmentTextAt in Z2.
      destruct (getSegmentBounds currentValue cursorPos ".") as [st en].
      rewrite Z2.
      destruct (JS.startsWith (JS.slice_from currentValue cursorPos)
                  ["."%char]) eqn:R.
      * split; [discriminate |]. intros (_ & _ & Nr). elim Nr.
        exact (proj1 ER eq_refl).
      * split; [intros _ | reflexivity].
        split; [exact C |]. split; [exists cl; now split |].
        intros Hr. pose proof (proj2 ER Hr). discriminate.
  - rewrite CL. cbn [length Nat.eqb orb].
    split; [discriminate |]. intros (_ & (c & Hc & _) & _). discriminate.
Qed.

End Ipv4DotFacts.

(** X20.  The dot branch of [ipv4.isValidChar]: a dot is accepted exactly
    when the text left of the cursor, the dot, and the text right of the
    selection end hold at most three dots together, a character other than
    a dot stands left of the cursor, and no dot stands right of the cursor.
    The test on the length of the segment around the cursor never decides:
    it passes whenever the test on the left side does. *)
Theorem ipv4_isValidChar_dot (currentValue : jsstring) (cursorPos : nat)
    (selectionEnd : option nat) :
  let selEnd :=
    match selectionEnd with Some e => e | None => cursorPos end in
  let after :=
    firstn cursorPos currentValue ++ ["."%char] ++ skipn selEnd currentValue in
  ipv4.isValidChar (str ".") currentValue cursorPos selectionEnd = true <->
  length (filter (fun c => Ascii.eqb c ".") after) <= 3 /\
  (exists c, char_left currentValue cursorPos = Some c /\ c <> "."%char) /\
  char_right currentValue cursorPos <> Some "."%char.
Proof.
  intros selEnd after.
  rewrite (Ipv4DotFacts.ipv4_dot_accepted currentValue cursorPos selectionEnd).
  rewrite HelperFacts.simulateInsert_lists, ReplaceFacts.countChar_count.
  reflexivity.
Qed.

(** ** The listeners of the directive *)

Module DirectiveFacts.

Import Directive.

Lemma jsstring_eqb_refl (a : jsstring) : jsstring_eqb a a = true.
Proof. now apply ClassFacts.jsstring_eqb_spec. Qed.

Lemma jsstring_eqb_neq (a b : jsstring) : a <> b -> jsstring_eqb a b = false.
Proof.
  intros N. apply not_true_is_false. intros E.
  now apply ClassFacts.jsstring_eqb_spec in E.
Qed.

Lemma maskHandlers_twice (m : mask) (x : jsstring) :
  format (maskHandlers m) (format (maskHandlers m) x) =
  format (maskHandlers m) x.
Proof.
  destruct m; cbn [maskHandlers format].
  - apply Ipv4Facts.ipv4_format_twice.
  - apply Ipv6Facts.ipv6_format_twice.
  - apply MacFacts.mac_format_twice.
Qed.

Lemma set_value_same (el : input) : set_value el (value el) = el.
Proof. unfold set_value. now rewrite jsstring_eqb_refl. Qed.

Lemma set_value_other (el : input) (v : jsstring) :
  value el <> v -> set_value el v = at_end v.
Proof. intros N. unfold set_value. now rewrite (jsstring_eqb_neq _ _ N). Qed.

Lemma value_set_value (el : input) (v : jsstring) : value (set_value el v) = v.
Proof.
  unfold set_value. destruct (jsstring_eqb (value el) v) eqn:E; [| reflexivity].
  now apply ClassFacts.jsstring_eqb_spec in E.
Qed.

Section OneHandler.

Variable h : handler.
Hypothesis format_twice : forall x, format h (format h x) = format h x.

(** On a value that [format] leaves alone [handleInput] does nothing. *)
Lemma handleInput_fixed (fuel : nat) (el : input) :
  format h (value el) = value el -> handleInput (S fuel) h el = Some el.
Proof.
  intros E. cbn [handleInput]. now rewrite E, jsstring_eqb_refl.
Qed.

(** On any other value it writes the formatted value, and the [input] event
    it dispatches comes back to it once. *)
Lemma handleInput_changed (fuel : nat) (el : input) :
  format h (value el) <> value el ->
  handleInput 1 h el = None /\
  handleInput (S (S fuel)) h el =
  Some (setSelectionRange (at_end (format h (value el)))
          (computeNewCursorPosition (value el) (format h (value el))
             (Z.of_nat (selectionStart el)))
          (computeNewCursorPosition (value el) (format h (value el))
             (Z.of_nat (selectionStart el)))).
Proof.
  intros N.
  assert (B : jsstring_eqb (value el) (format h (value el)) = false).
  { apply jsstring_eqb_neq. congruence. }
  split.
  - cbn [handleInput]. now rewrite B.
  - change (handleInput (S (S fuel)) h el) with
      (if negb (jsstring_eqb (value el) (format h (value el))) then
         match handleInput (S fuel) h (set_value el (format h (value el)))
         with
         | None => None
         | Some el' =>
             Some (setSelectionRange el'
                     (computeNewCursorPosition (value el) (format h (value el))
                        (Z.of_nat (selectionStart el)))
                     (computeNewCursorPosition (value el) (format h (value el))
                        (Z.of_nat (selectionStart el))))
         end
       else Some el).
    rewrite B. cbn [negb].
    rewrite set_value_other by congruence.
    rewrite handleInput_fixed; [reflexivity |]. apply format_twice.
Qed.

Lemma cursor_at_end (old new : jsstring) :
  computeNewCursorPosition old new (Z.of_nat (length old)) =
  Z.of_nat (length new).
Proof.
  unfold computeNewCursorPosition.
  destruct (Nat.ltb_spec (length new) (length old)); [lia |].
  destruct (Nat.ltb_spec (length old) (length new)); lia.
Qed.

Lemma setSelectionRange_at_end (v : jsstring) :
  setSelectionRange (at_end v) (Z.of_nat (length v)) (Z.of_nat (length v)) =
  at_end v.
Proof.
  unfold setSelectionRange, at_end. cbn [value].
  destruct (Z.ltb_spec (Z.of_nat (length v)) 0); [lia |].
  rewrite Nat2Z.id, !Nat.min_id. reflexivity.
Qed.

(** With the cursor behind the text, [handleInput] leaves it behind the
    formatted text. *)
Lemma handleInput_at_end (fuel : nat) (v : jsstring) :
  handleInput (S (S fuel)) h (at_end v) = Some (at_end (format h v)).
Proof.
  destruct (list_eq_dec Ascii.ascii_dec (format h v) v) as [E | N].
  - rewrite handleInput_fixed by exact E. now rewrite E.
  - destruct (handleInput_changed fuel (at_end v) N) as [_ C].
    rewrite C. cbn [value selectionStart at_end].
    rewrite cursor_at_end. f_equal. apply setSelectionRange_at_end.
Qed.

Lemma single_key_not_named (c x y : ascii) (t : jsstring) :
  jsstring_eqb [c] (x :: y :: t) = false.
Proof. simpl. apply andb_false_r. Qed.

Lemma handleKeydown_char (c : ascii) (el : input) :
  handleKeydown h {| key := [c]; ctrlKey := false; metaKey := false |} el =
  negb (isValidChar h [c] (value el) (selectionStart el)
          (Some (selectionEnd el))).
Proof.
  unfold handleKeydown. cbn [key ctrlKey metaKey].
  assert (E : forall name, 2 <= length name -> jsstring_eqb [c] name = false).
  { intros [|x [|y t]] L; try (simpl in L; lia).
    apply single_key_not_named. }
  rewrite !E by (simpl; lia). cbn [orb].
  now destruct (isValidChar h [c] _ _ _).
Qed.

Lemma insert_key_at_end (v : jsstring) (c : ascii) :
  insert_key (at_end v) c = at_end (v ++ [c]).
Proof.
  unfold insert_key, at_end. cbn [value selectionStart selectionEnd].
  rewrite firstn_all, skipn_all, app_nil_r, length_app. reflexivity.
Qed.

Lemma press_at_end (fuel : nat) (v : jsstring) (c : ascii) :
  press (S (S fuel)) h c (at_end v) = Some (at_end (type_step h v c)).
Proof.
  unfold press, type_step. rewrite handleKeydown_char.
  cbn [value selectionStart selectionEnd at_end].
  destruct (isValidChar h [c] v (length v) (Some (length v))); cbn [negb].
  - rewrite insert_key_at_end. apply handleInput_at_end.
  - reflexivity.
Qed.

Lemma type_text_at_end (fuel : nat) (keys v : jsstring) :
  type_text (S (S fuel)) h keys (at_end v) =
  Some (at_end (type_value h keys v)).
Proof.
  revert v. induction keys as [|c keys IH]; intros v; [reflexivity |].
  cbn [type_text]. rewrite press_at_end. apply IH.
Qed.

End OneHandler.

End DirectiveFacts.

(** X21.  [handleInput], for each of the three masks: one nested [input]
    event is enough.  The call returns with the formatted value in the
    field, and a further [input] event changes nothing.  When [format]
    changes the value, the event that [handleInput] dispatches does come
    back to it, once, and the selection ends up collapsed at the position
    [computeNewCursorPosition] computes. *)
Theorem handleInput_settles (maskType : Directive.mask)
    (el : Directive.input) :
  let handler := Directive.maskHandlers maskType in
  let newValue := Directive.format handler (Directive.value el) in
  exists el',
    Directive.handleInput 2 handler el = Some el' /\
    Directive.value el' = newValue /\
    Directive.handleInput 1 handler el' = Some el' /\
    (newValue = Directive.value el -> el' = el) /\
    (newValue <> Directive.value el ->
     Directive.handleInput 1 handler el = None /\
     (Directive.selectionStart el <= length (Directive.value el) ->
      Directive.selectionStart el' = Directive.selectionEnd el' /\
      Z.of_nat (Directive.selectionStart el') =
      computeNewCursorPosition (Directive.value el) newValue
        (Z.of_nat (Directive.selectionStart el)))).
Proof.
  intros handler newValue.
  pose proof (DirectiveFacts.maskHandlers_twice maskType) as T.
  fold handler in T.
  destruct (list_eq_dec Ascii.ascii_dec newValue (Directive.value el))
    as [E | N].
  - exists el. rewrite (DirectiveFacts.handleInput_fixed handler 1 el E).
    rewrite (DirectiveFacts.handleInput_fixed handler 0 el E).
    split; [reflexivity |]. split; [congruence |]. split; [reflexivity |].
    split; [reflexivity |]. intros N. congruence.
  - destruct (DirectiveFacts.handleInput_changed handler T 0 el N) as [C1 C2].
    fold newValue in C2.
    set (pos := computeNewCursorPosition (Directive.value el) newValue
                  (Z.of_nat (Directive.selectionStart el))) in *.
    exists (Directive.setSelectionRange (at_end newValue) pos pos).
    split; [exact C2 |]. split; [reflexivity |]. split.
    + apply DirectiveFacts.handleInput_fixed. apply T.
    + split; [congruence |]. intros _. split; [exact C1 |]. intros L.
      assert (R : (0 <= pos <= Z.of_nat (length newValue))%Z).
      { unfold pos, computeNewCursorPosition.
        destruct (Nat.ltb_spec (length newValue)
                    (length (Directive.value el))); [lia |].
        destruct (Nat.ltb_spec (length (Directive.value el))
                    (length newValue)); lia. }
      unfold Directive.setSelectionRange.
      cbn [Directive.selectionStart Directive.selectionEnd Directive.value
           at_end].
      destruct (Z.ltb_spec pos 0); [lia |]. split; lia.
Qed.

Lemma handleInput_settles_witness :
  Directive.handleInput 1 (Directive.maskHandlers Directive.Ipv4)
    (at_end (str "192")) = None.
Proof.
  destruct (handleInput_settles Directive.Ipv4 (at_end (str "192")))
    as (el' & _ & _ & _ & _ & H).
  apply H. vm_compute. discriminate.
Defined.

(** X22.  [handlePaste], for each of the three masks: the formatted
    clipboard text replaces the whole value of the field, whatever the
    field held and whatever was selected, and the [input] event that is
    dispatched changes nothing more.  Unless the field held that very text
    already, the cursor stands behind it. *)
Theorem handlePaste_replaces (maskType : Directive.mask)
    (pastedText : jsstring) (el : Directive.input) :
  let handler := Directive.maskHandlers maskType in
  let formatted := Directive.format handler pastedText in
  Directive.handlePaste 1 handler pastedText el =
  Some (if jsstring_eqb (Directive.value el) formatted then el
        else at_end formatted).
Proof.
  intros handler formatted. unfold Directive.handlePaste. fold formatted.
  rewrite DirectiveFacts.handleInput_fixed.
  - reflexivity.
  - rewrite DirectiveFacts.value_set_value.
    apply DirectiveFacts.maskHandlers_twice.
Qed.

(** X23.  [handleKeydown], for each of the three masks: the ten editing and
    navigation keys, and every key pressed with Ctrl or Meta, are never
    prevented; any other key whose name has no character of the class of
    the mask is prevented, whatever the field holds. *)
Theorem handleKeydown_exempt (maskType : Directive.mask)
    (e : Directive.keyboard_event) (el : Directive.input) :
  let handler := Directive.maskHandlers maskType in
  let named :=
    In (Directive.key e)
       [str "Backspace"; str "Delete"; str "Tab"; str "Enter";
        str "ArrowLeft"; str "ArrowRight"; str "ArrowUp"; str "ArrowDown";
        str "Home"; str "End"] in
  let class :=
    match maskType with
    | Directive.Ipv4 => cls_digit_dot
    | _ => cls_hex_colon
    end in
  (named \/ Directive.ctrlKey e = true \/ Directive.metaKey e = true ->
   Directive.handleKeydown handler e el = false) /\
  (~ named -> Directive.ctrlKey e = false -> Directive.metaKey e = false ->
   existsb class (Directive.key e) = false ->
   Directive.handleKeydown handler e el = true).
Proof.
  intros handler named class. unfold Directive.handleKeydown.
  set (k := Directive.key e) in *.
  match goal with
  | |- context [if ?b then false else _] => set (exempt := b)
  end.
  assert (X : exempt = true <->
              named \/ Directive.ctrlKey e = true \/
              Directive.metaKey e = true).
  { unfold exempt, named. rewrite !orb_true_iff.
    rewrite !ClassFacts.jsstring_eqb_spec. cbn [In]. intuition congruence. }
  split.
  - intros H. apply X in H. now rewrite H.
  - intros N C M G.
    destruct exempt.
    + exfalso. destruct (proj1 X eq_refl) as [H | [H | H]];
        [now apply N | congruence | congruence].
    + assert (V : Directive.isValidChar handler k (Directive.value el)
                    (Directive.selectionStart el)
                    (Some (Directive.selectionEnd el)) = false).
      { unfold handler, class in *.
        destruct maskType; cbn [Directive.maskHandlers Directive.isValidChar];
          [unfold ipv4.isValidChar | unfold ipv6.isValidChar
           | unfold mac.isValidChar];
          now rewrite ClassFacts.test_cls, G. }
      now rewrite V.
Qed.

Lemma handleKeydown_exempt_witness :
  Directive.handleKeydown (Directive.maskHandlers Directive.Ipv4)
    {| Directive.key := str "v"; Directive.ctrlKey := true;
       Directive.metaKey := false |} (at_end (str "192.")) = false /\
  Directive.handleKeydown (Directive.maskHandlers Directive.Mac)
    {| Directive.key := str "g"; Directive.ctrlKey := false;
       Directive.metaKey := false |} (at_end (str "00:1A")) = true.
Proof.
  split.
  - apply (proj1 (handleKeydown_exempt Directive.Ipv4
                    {| Directive.key := str "v"; Directive.ctrlKey := true;
                       Directive.metaKey := false |} (at_end (str "192.")))).
    right. left. reflexivity.
  - apply (proj2 (handleKeydown_exempt Directive.Mac
                    {| Directive.key := str "g"; Directive.ctrlKey := false;
                       Directive.metaKey := false |} (at_end (str "00:1A"))));
      try reflexivity.
    vm_compute. intuition discriminate.
Defined.

(** X24.  Typing with the cursor behind the text, for each of the three
    masks: every key is handled with one nested [input] event at most, the
    cursor stays behind the text, and the field goes through the values
    that appending each accepted key and formatting gives. *)
Theorem typing_at_end (maskType : Directive.mask) (keys v : jsstring) :
  type_text 2 (Directive.maskHandlers maskType) keys (at_end v) =
  Some (at_end (type_value (Directive.maskHandlers maskType) keys v)).
Proof.
  apply DirectiveFacts.type_text_at_end.
  apply DirectiveFacts.maskHandlers_twice.
Qed.


(** ** Typing an IPv4 address *)

Module Ipv4TypingFacts.

Lemma join_snoc_char (d c : ascii) (done : list jsstring) (last : jsstring) :
  JS.join d (done ++ [last]) ++ [c] = JS.join d (done ++ [last ++ [c]]).
Proof.
  induction done as [|a rest IH]; [reflexivity |].
  cbn [app]. rewrite !SegmentFacts.join_cons by (destruct rest; discriminate).
  rewrite <- IH, <- app_assoc. reflexivity.
Qed.

Lemma split_parts (d : ascii) (v : jsstring) (segs : list jsstring) :
  JS.split d v = segs ->
  v = JS.join d segs /\ Forall (fun seg => ~ In d seg) segs.
Proof.
  intros <-. split; [now rewrite SegmentFacts.join_split |].
  apply SegmentFacts.split_segments.
Qed.

Lemma split_snoc_other (d c : ascii) (v : jsstring) (done : list jsstring)
    (last : jsstring) :
  c <> d -> JS.split d v = done ++ [last] ->
  JS.split d (v ++ [c]) = done ++ [last ++ [c]].
Proof.
  intros N E. destruct (split_parts d v _ E) as [J F].
  rewrite J, join_snoc_char. apply SegmentFacts.split_join.
  - destruct done; discriminate.
  - apply Forall_app in F as [F1 F2]. apply Forall_app. split; [exact F1 |].
    inversion F2 as [|? ? Hl _]; subst. constructor; [| constructor].
    intros H. apply in_app_or in H as [H | [H | []]];
      [contradiction | congruence].
Qed.

Lemma split_snoc_delim (d : ascii) (v : jsstring) (done : list jsstring)
    (last : jsstring) :
  JS.split d v = done ++ [last] ->
  JS.split d (v ++ [d]) = (done ++ [last]) ++ [[]].
Proof.
  intros E. destruct (split_parts d v _ E) as [J F].
  rewrite J. rewrite <- (SegmentFacts.join_snoc d (done ++ [last]) [])
    by (destruct done; discriminate).
  apply SegmentFacts.split_join.
  - destruct done; discriminate.
  - apply Forall_app. split; [exact F |]. constructor; [tauto | constructor].
Qed.

(** The last piece of a text is what stands behind its last delimiter. *)
Lemma after_last_split (d : ascii) (v : jsstring) (done : list jsstring)
    (last : jsstring) :
  JS.split d v = done ++ [last] -> after_last d v = last.
Proof.
  intros E. pose proof (SegmentFacts.segment_at_app d v []) as A.
  rewrite app_nil_r in A. change (before_first d []) with (@nil ascii) in A.
  rewrite app_nil_r in A. rewrite <- A.
  pose proof (SegmentFacts.length_split d v) as L.
  rewrite E, length_app in L. simpl in L.
  replace (count_char v d) with (length done) by lia.
  rewrite E. apply nth_middle.
Qed.

Lemma canonical_digits (s : jsstring) : canonical_octet s -> digits s.
Proof. now intros ((_ & D & _) & _). Qed.

Lemma canonical_shape (s : jsstring) :
  canonical_octet s -> s = [] \/ octet_text s.
Proof. intros [H _]. now right. Qed.

Lemma partial_pieces (done : list jsstring) (last : jsstring) :
  Forall canonical_octet done -> last = [] \/ canonical_octet last ->
  Forall (fun s => s = [] \/ octet_text s) (done ++ [last]).
Proof.
  intros F H. apply Forall_app. split.
  - eapply Forall_impl; [| exact F]. apply canonical_shape.
  - constructor; [| constructor]. destruct H as [-> | H];
      [now left | now apply canonical_shape].
Qed.

Lemma ipv4_pieces_chars (segs : list jsstring) :
  Forall (fun s => s = [] \/ octet_text s) segs ->
  Forall (fun c => cls_digit_dot c = true) (JS.join "." segs).
Proof.
  intros F.
  apply (MacFacts.join_Forall (fun c => cls_digit_dot c = true));
    [reflexivity |].
  eapply Forall_impl; [| exact F]. intros s H.
  apply Ipv4ShapeFacts.shape_digits in H.
  eapply Forall_impl; [| exact H]. intros c Hc.
  unfold cls_digit_dot. now rewrite Hc.
Qed.

Lemma partial_chars (v : jsstring) :
  ipv4_partial v -> Forall (fun c => cls_digit_dot c = true) v.
Proof.
  intros (done & last & E & _ & F & H).
  destruct (split_parts "." v _ E) as [-> _].
  apply ipv4_pieces_chars. now apply partial_pieces.
Qed.

Lemma insert_at_end (v ch : jsstring) :
  simulateInsert v ch (length v) (Some (length v)) = v ++ ch.
Proof.
  rewrite HelperFacts.simulateInsert_lists, firstn_all, skipn_all.
  now rewrite app_nil_r.
Qed.

Lemma segment_at_end (v : jsstring) (c d : ascii) (done : list jsstring)
    (last : jsstring) :
  c <> d -> JS.split d v = done ++ [last] ->
  getSegmentTextAt (simulateInsert v [c] (length v) (Some (length v)))
    (length v + 1) d = last ++ [c].
Proof.
  intros N E. change (length v + 1) with (length v + length [c]).
  rewrite HelperFacts.segment_insert;
    [| lia | intros [H | []]; congruence].
  rewrite firstn_all, skipn_all, (after_last_split d v done last E).
  reflexivity.
Qed.

Lemma step_dot (v : jsstring) :
  ipv4_partial v ->
  ipv4.isValidChar ["."%char] v (length v) (Some (length v)) = true ->
  ipv4_partial (v ++ ["."%char]).
Proof.
  intros (done & last & E & L & F & H) A.
  apply (Ipv4DotFacts.ipv4_dot_accepted v (length v) (Some (length v))) in A.
  destruct A as (C & (cl & Hl & Nl) & _).
  change (str ".") with ["."%char] in C.
  rewrite insert_at_end, ReplaceFacts.countChar_count in C.
  pose proof (SegmentFacts.length_split "." (v ++ ["."%char])) as S.
  rewrite (split_snoc_delim "." v done last E), !length_app in S.
  simpl in S.
  assert (Nn : last <> []).
  { rewrite <- (after_last_split "." v done last E).
    pose proof (KeyFacts.char_left_spec v (length v)) as CL.
    rewrite Hl, firstn_all in CL. destruct CL as (l & ->).
    rewrite (HelperFacts.after_last_snoc _ _ _ Nl).
    destruct (after_last "." l); discriminate. }
  exists (done ++ [last]), []. split; [now apply split_snoc_delim |].
  split; [rewrite length_app; simpl; lia |]. split; [| now left].
  apply Forall_app. split; [exact F |]. constructor; [| constructor].
  destruct H as [-> | H]; [now elim Nn | exact H].
Qed.

Lemma step_digit (v : jsstring) (c : ascii) :
  cls_digit c = true -> ipv4_partial v ->
  ipv4.isValidChar [c] v (length v) (Some (length v)) = true ->
  ipv4_partial (v ++ [c]).
Proof.
  intros D P A. pose proof (partial_chars v P) as Ch.
  destruct P as (done & last & E & L & F & H).
  assert (N : c <> "."%char).
  { intros ->. vm_compute in D. discriminate. }
  apply (Ipv4DigitFacts.ipv4_digit_accepted c v (length v) (Some (length v))
           D Ch (le_n _)) in A.
  rewrite (segment_at_end v c "." done last N E) in A.
  exists done, (last ++ [c]). split; [now apply split_snoc_other |].
  split; [exact L |]. split; [exact F | now right].
Qed.

(** An accepted key keeps an address in the making in the making. *)
Lemma step_accepted (v : jsstring) (c : ascii) :
  ipv4_partial v ->
  ipv4.isValidChar [c] v (length v) (Some (length v)) = true ->
  ipv4_partial (v ++ [c]).
Proof.
  intros P A. destruct (cls_digit c) eqn:D; [now apply step_digit |].
  destruct (Ascii.eqb_spec c ".") as [-> | N]; [now apply step_dot |].
  exfalso. unfold ipv4.isValidChar in A.
  rewrite ClassFacts.test_cls, ClassFacts.existsb_one in A.
  unfold cls_digit_dot, is_dot in A. rewrite D in A.
  apply Ascii.eqb_neq in N. rewrite N in A. discriminate.
Qed.

(** [format] puts a dot behind a complete last octet and changes nothing
    else of an address in the making. *)
Lemma ipv4_format_partial (v : jsstring) :
  ipv4_partial v -> ipv4_partial (ipv4.format v).
Proof.
  intros P. pose proof (partial_chars v P) as Ch.
  destruct P as (done & last & E & L & F & H).
  pose proof (partial_pieces done last F H) as Sh.
  set (segs := done ++ [last]) in *.
  assert (Ls : length segs = length done + 1).
  { unfold segs. rewrite length_app. reflexivity. }
  assert (N : segs <> []) by (unfold segs; destruct done; discriminate).
  rewrite Ipv4LoopFacts.ipv4_format_filter.
  rewrite (SubseqFacts.filter_id _ _ Ch), E.
  rewrite Ipv4LoopFacts.format_loop_spec.
  rewrite firstn_all2 by lia.
  rewrite (MacFacts.map_fix _ ipv4_cleanup segs)
    by (eapply Forall_impl; [| exact Sh]; apply Ipv4ShapeFacts.shape_cleanup).
  rewrite Ipv4ShapeFacts.nth_last.
  replace (List.last segs []) with last by (unfold segs; now rewrite last_last).
  assert (Cl : ipv4_cleanup last = last).
  { apply Ipv4ShapeFacts.shape_cleanup. destruct H as [-> | H];
      [now left | now apply canonical_shape]. }
  rewrite Cl.
  assert (D : Forall (fun seg : jsstring => ~ In "."%char seg) segs).
  { eapply Forall_impl; [| exact Sh]. intros s Hs.
    apply Ipv4Facts.digits_no_dot. now apply Ipv4ShapeFacts.shape_digits. }
  destruct ((length segs - 1 <? 3)%nat && ipv4_complete last) eqn:X.
  - apply andb_true_iff in X as [X1 X2]. apply Nat.ltb_lt in X1.
    exists segs, []. split.
    + apply SegmentFacts.split_join; [destruct segs; discriminate |].
      apply Forall_app. split; [exact D |]. constructor; [tauto | constructor].
    + split; [lia |]. split; [| now left].
      apply Forall_app. split; [exact F |]. constructor; [| constructor].
      destruct H as [-> | H]; [discriminate | exact H].
  - rewrite app_nil_r. exists done, last.
    split; [now apply SegmentFacts.split_join |].
    split; [exact L |]. split; [exact F | exact H].
Qed.

Lemma ipv4_type_step_partial (v : jsstring) (c : ascii) :
  ipv4_partial v ->
  ipv4_partial (type_step (Directive.maskHandlers Directive.Ipv4) v c).
Proof.
  intros P. unfold type_step.
  cbn [Directive.maskHandlers Directive.isValidChar Directive.format].
  destruct (ipv4.isValidChar [c] v (length v) (Some (length v))) eqn:A;
    [| exact P].
  now apply ipv4_format_partial, step_accepted.
Qed.

Lemma ipv4_type_value_partial (keys v : jsstring) :
  ipv4_partial v ->
  ipv4_partial (type_value (Directive.maskHandlers Directive.Ipv4) keys v).
Proof.
  revert v. induction keys as [|c keys IH]; intros v P; [exact P |].
  apply IH. now apply ipv4_type_step_partial.
Qed.

Lemma ipv4_partial_empty : ipv4_partial [].
Proof.
  exists [], []. split; [reflexivity |]. split; [simpl; lia |].
  split; [constructor | now left].
Qed.

(** An address in the making with four pieces, the last one not empty, is
    an address that [validate] accepts. *)
Lemma ipv4_partial_validate (v : jsstring) :
  ipv4_partial v -> length (JS.split "." v) = 4 ->
  last (JS.split "." v) [] <> [] -> ipv4.validate v = true.
Proof.
  intros (done & last & E & L & F & H) L4 Nn.
  rewrite E in L4, Nn. rewrite last_last in Nn.
  rewrite length_app in L4. simpl in L4.
  destruct done as [|a [|b [|c [|x done]]]]; try (simpl in L4; lia).
  inversion F as [|? ? [Ha _] F1]; subst.
  inversion F1 as [|? ? [Hb _] F2]; subst.
  inversion F2 as [|? ? [Hc _] _]; subst.
  apply Ipv4RegexFacts.validate_dotted_quad.
  exists a, b, c, last. split; [exact E |].
  destruct H as [-> | [Hl _]]; [now elim Nn | auto].
Qed.

End Ipv4TypingFacts.

(** X25.  Typing any keys with the cursor behind the text of an IPv4 field
    that starts empty: the field always holds an address in the making,
    that is up to three octets without leading zeros, each followed by a
    dot, then nothing or one more such octet; once it has four pieces and
    the last one is not empty, [validate] accepts it. *)
Theorem ipv4_typing_partial (keys : jsstring) :
  let v := type_value (Directive.maskHandlers Directive.Ipv4) keys [] in
  ipv4_partial v /\
  (length (JS.split "." v) = 4 -> last (JS.split "." v) [] <> [] ->
   ipv4.validate v = true).
Proof.
  intros v.
  assert (P : ipv4_partial v).
  { apply Ipv4TypingFacts.ipv4_type_value_partial, Ipv4TypingFacts.ipv4_partial_empty. }
  split; [exact P |]. now apply Ipv4TypingFacts.ipv4_partial_validate.
Qed.

Lemma ipv4_typing_partial_witness :
  ipv4.validate
    (type_value (Directive.maskHandlers Directive.Ipv4) (str "10.0.0.1") [])
  = true.
Proof.
  apply (proj2 (ipv4_typing_partial (str "10.0.0.1")));
    vm_compute; [reflexivity | discriminate].
Defined.


(** ** Typing a MAC address *)

Module MacTypingFacts.

Lemma pair_short (p : jsstring) : hex_pair p -> short_hex p.
Proof. intros [L F]. split; [lia | exact F]. Qed.

Lemma partial_short (done : list jsstring) (last : jsstring) :
  Forall hex_pair done -> short_hex last -> Forall short_hex (done ++ [last]).
Proof.
  intros F S. apply Forall_app. split.
  - eapply Forall_impl; [| exact F]. apply pair_short.
  - now constructor.
Qed.

Lemma short_no_colon (segs : list jsstring) :
  Forall short_hex segs -> Forall (fun seg => ~ In ":"%char seg) segs.
Proof.
  intros F. eapply Forall_impl; [| exact F]. apply MacFacts.short_hex_no_colon.
Qed.

Lemma partial_split (done : list jsstring) (last : jsstring) :
  Forall hex_pair done -> short_hex last ->
  JS.split ":" (JS.join ":" (done ++ [last])) = done ++ [last].
Proof.
  intros F S. apply SegmentFacts.split_join; [destruct done; discriminate |].
  now apply short_no_colon, partial_short.
Qed.

Lemma pairs_length (done : list jsstring) :
  Forall hex_pair done -> length (concat done) = 2 * length done.
Proof.
  induction 1 as [|p rest [L _] F IH]; [reflexivity |].
  simpl. rewrite length_app. lia.
Qed.

Lemma partial_hex (done : list jsstring) (last : jsstring) :
  Forall hex_pair done -> short_hex last ->
  filter cls_hex (JS.join ":" (done ++ [last])) = concat done ++ last.
Proof.
  intros F S. rewrite ShapeFacts.filter_hex_join by now apply partial_short.
  rewrite concat_app. simpl. now rewrite app_nil_r.
Qed.

Lemma chunk2_pairs (ps : list jsstring) (t : jsstring) :
  Forall hex_pair ps -> chunk2 (concat ps ++ t) = ps ++ chunk2 t.
Proof.
  induction 1 as [|p rest [L _] F IH]; [reflexivity |].
  destruct p as [|a [|b [|x p]]]; try discriminate.
  simpl. now rewrite IH.
Qed.

Lemma mac_pieces_chars (segs : list jsstring) :
  Forall short_hex segs ->
  Forall (fun c => cls_hex_colon c = true) (JS.join ":" segs).
Proof.
  intros F.
  apply (MacFacts.join_Forall (fun c => cls_hex_colon c = true));
    [reflexivity |].
  eapply Forall_impl; [| exact F]. intros s [_ H].
  eapply Forall_impl; [| exact H]. intros c Hc.
  unfold cls_hex_colon. now rewrite Hc.
Qed.

Lemma mac_step_colon (v : jsstring) :
  mac_partial v ->
  mac.isValidChar [":"%char] v (length v) (Some (length v)) = true ->
  mac_partial (v ++ [":"%char]).
Proof.
  intros (done & last & J & L & F & S) A.
  pose proof (partial_split done last F S) as E. rewrite <- J in E.
  unfold mac.isValidChar in A.
  assert (T : Regex.test (Cls cls_hex_colon) [":"%char] = true)
    by (vm_compute; reflexivity).
  rewrite T in A. change (jsstring_eqb [":"%char] (str ":")) with true in A.
  cbn [negb] in A.
  rewrite !ReplaceFacts.replace_all_class, ReplaceFacts.countChar_count in A.
  rewrite SegmentFacts.getSegmentTextAt_split, firstn_all, skipn_all in A.
  change (before_first ":" []) with (@nil ascii) in A.
  rewrite app_nil_r, (Ipv4TypingFacts.after_last_split ":" v done last E) in A.
  rewrite (SubseqFacts.filter_id cls_hex last (proj2 S)) in A.
  destruct (Nat.eqb_spec (length last) 2) as [L2 | _]; [| discriminate].
  cbn [negb] in A.
  destruct (Nat.leb_spec 5 (count_char v ":")) as [_ | C]; [discriminate |].
  pose proof (SegmentFacts.length_split ":" v) as Sp.
  rewrite E, length_app in Sp. simpl in Sp.
  exists (done ++ [last]), []. split.
  - rewrite J. symmetry. apply SegmentFacts.join_snoc.
    destruct done; discriminate.
  - split; [rewrite length_app; simpl; lia |]. split.
    + apply Forall_app. split; [exact F |]. constructor; [| constructor].
      split; [exact L2 | exact (proj2 S)].
    + split; [simpl; lia | constructor].
Qed.

(** [format] on an address in the making with one more hex digit: the
    digit joins the last group, or starts a group of its own when the last
    group is full. *)
Lemma format_hex (done : list jsstring) (last : jsstring) (c : ascii) :
  Forall hex_pair done -> short_hex last -> cls_hex c = true ->
  length done <= 5 -> 2 * length done + length last < 12 ->
  mac_partial (mac.format (JS.join ":" (done ++ [last ++ [c]]))).
Proof.
  intros F S H L T.
  assert (Hl : Forall (fun x => cls_hex x = true) (last ++ [c])).
  { apply Forall_app. split; [exact (proj2 S) | now constructor]. }
  destruct (Nat.le_gt_cases 2 (length last)) as [Full | Room].
  - assert (L2 : length last = 2) by (destruct S; lia).
    assert (P : hex_pair last) by (split; [exact L2 | exact (proj2 S)]).
    assert (Fp : Forall hex_pair (done ++ [last])).
    { apply Forall_app. split; [exact F | now constructor]. }
    set (x := JS.join ":" (done ++ [last ++ [c]])).
    assert (Nc : Forall (fun seg : jsstring => ~ In ":"%char seg)
                   (done ++ [last ++ [c]])).
    { apply Forall_app. split.
      - apply short_no_colon. eapply Forall_impl; [| exact F].
        apply pair_short.
      - constructor; [| constructor]. intros I.
        rewrite Forall_forall in Hl. specialize (Hl _ I).
        vm_compute in Hl. discriminate. }
    assert (Ch : Forall (fun y => cls_hex_colon y = true) x).
    { apply (MacFacts.join_Forall (fun y => cls_hex_colon y = true));
        [reflexivity |].
      apply Forall_app. split.
      - eapply Forall_impl; [| exact F]. intros s [_ Hs].
        eapply Forall_impl; [| exact Hs]. intros y Hy.
        unfold cls_hex_colon. now rewrite Hy.
      - constructor; [| constructor].
        eapply Forall_impl; [| exact Hl]. intros y Hy.
        unfold cls_hex_colon. now rewrite Hy. }
    assert (Hx : filter cls_hex x = concat (done ++ [last]) ++ [c]).
    { unfold x.
      transitivity (concat (done ++ [last ++ [c]])).
      - clear - F Hl. induction F as [|p rest [_ Hp] F IH].
        + simpl. rewrite app_nil_r. now apply SubseqFacts.filter_id.
        + cbn [app]. rewrite SegmentFacts.join_cons
            by (destruct rest; discriminate).
          rewrite filter_app, (SubseqFacts.filter_id _ _ Hp).
          change (filter cls_hex (":"%char :: ?t)) with (filter cls_hex t).
          rewrite IH. reflexivity.
      - rewrite !concat_app. simpl. now rewrite !app_nil_r, app_assoc. }
    assert (A : mac.colon_aware x = None).
    { rewrite MacFacts.colon_aware_filter.
      rewrite (SubseqFacts.filter_id _ _ Ch).
      unfold x at 2. rewrite SegmentFacts.split_join;
        [| destruct done; discriminate | exact Nc].
      rewrite firstn_all2 by (rewrite length_app; simpl; lia).
      rewrite map_app, forallb_app. cbn [map forallb].
      rewrite (SubseqFacts.filter_id _ _ Hl), length_app, L2.
      cbn [length Nat.add Nat.leb andb]. rewrite andb_false_r.
      now destruct (JS.includes x (str ":")). }
    unfold mac.format. rewrite A, MacFacts.colon_free_chunk2, Hx.
    rewrite firstn_all2.
    + rewrite chunk2_pairs by exact Fp. cbn [chunk2].
      exists (done ++ [last]), [c]. split; [reflexivity |].
      split; [rewrite length_app; simpl; lia |]. split; [exact Fp |].
      split; [simpl; lia | now constructor].
    + rewrite length_app, (pairs_length _ Fp), length_app. simpl. lia.
  - assert (S' : short_hex (last ++ [c])).
    { split; [rewrite length_app; simpl; lia | exact Hl]. }
    exists done, (last ++ [c]).
    split; [| split; [exact L | split; [exact F | exact S']]].
    destruct done as [|p rest].
    + simpl. now apply MacFacts.format_short.
    + unfold mac.format. rewrite MacFacts.format_groups; [reflexivity | |].
      * rewrite length_app. simpl in *. lia.
      * now apply partial_short.
Qed.

Lemma mac_step_hex (v : jsstring) (c : ascii) :
  cls_hex c = true -> mac_partial v ->
  mac.isValidChar [c] v (length v) (Some (length v)) = true ->
  mac_partial (mac.format (v ++ [c])).
Proof.
  intros H (done & last & J & L & F & S) A.
  rewrite (MacKeyFacts.mac_hex_accepted c v (length v) (Some (length v)) H)
    in A.
  rewrite Ipv4TypingFacts.insert_at_end, app_nil_r in A.
  apply Nat.ltb_lt in A.
  rewrite J, (partial_hex done last F S), length_app, (pairs_length _ F) in A.
  rewrite J, Ipv4TypingFacts.join_snoc_char.
  now apply format_hex.
Qed.

Lemma format_partial_colon (v : jsstring) :
  mac_partial v -> 2 <= length (JS.split ":" v) -> mac.format v = v.
Proof.
  intros (done & last & J & L & F & S) L2.
  rewrite J in L2 |- *. rewrite (partial_split done last F S) in L2.
  unfold mac.format. rewrite MacFacts.format_groups; [reflexivity | |].
  - rewrite length_app in *. simpl in *. lia.
  - now apply partial_short.
Qed.

Lemma mac_type_step_partial (v : jsstring) (c : ascii) :
  mac_partial v ->
  mac_partial (type_step (Directive.maskHandlers Directive.Mac) v c).
Proof.
  intros P. unfold type_step.
  cbn [Directive.maskHandlers Directive.isValidChar Directive.format].
  destruct (mac.isValidChar [c] v (length v) (Some (length v))) eqn:A;
    [| exact P].
  destruct (cls_hex c) eqn:H; [now apply mac_step_hex |].
  destruct (Ascii.eqb_spec c ":") as [-> | N].
  - pose proof (mac_step_colon v P A) as P'.
    rewrite format_partial_colon; [exact P' | exact P' |].
    destruct P as (done & last & J & _ & F & S).
    pose proof (partial_split done last F S) as E. rewrite <- J in E.
    rewrite (Ipv4TypingFacts.split_snoc_delim ":" v done last E).
    rewrite !length_app. simpl. lia.
  - exfalso. unfold mac.isValidChar in A.
    rewrite ClassFacts.test_cls, ClassFacts.existsb_one in A.
    unfold cls_hex_colon, is_colon in A. rewrite H in A.
    apply Ascii.eqb_neq in N. rewrite N in A. discriminate.
Qed.

Lemma mac_type_value_partial (keys v : jsstring) :
  mac_partial v ->
  mac_partial (type_value (Directive.maskHandlers Directive.Mac) keys v).
Proof.
  revert v. induction keys as [|c keys IH]; intros v P; [exact P |].
  apply IH. now apply mac_type_step_partial.
Qed.

Lemma mac_partial_empty : mac_partial [].
Proof.
  exists [], []. split; [reflexivity |]. split; [simpl; lia |].
  split; [constructor |]. split; [simpl; lia | constructor].
Qed.

(** An address in the making that holds twelve hex digits is complete. *)
Lemma mac_partial_validate (v : jsstring) :
  mac_partial v -> length (filter cls_hex v) = 12 -> mac.validate v = true.
Proof.
  intros (done & last & J & L & F & S) T.
  rewrite J, (partial_hex done last F S), length_app, (pairs_length _ F) in T.
  destruct S as [Sl Sh].
  apply ShapeFacts.validate_pairs. exists (done ++ [last]).
  split; [exact J |]. split; [rewrite length_app; simpl; lia |].
  apply Forall_app. split; [exact F |]. constructor; [| constructor].
  split; [lia | exact Sh].
Qed.

End MacTypingFacts.

(** X26.  Typing any keys with the cursor behind the text of a MAC field
    that starts empty: the field always holds an address in the making,
    that is up to five pairs of hex digits, each followed by a colon, then
    at most two more hex digits; once it holds twelve hex digits,
    [validate] accepts it. *)
Theorem mac_typing_partial (keys : jsstring) :
  let v := type_value (Directive.maskHandlers Directive.Mac) keys [] in
  mac_partial v /\
  (length (filter cls_hex v) = 12 -> mac.validate v = true).
Proof.
  intros v.
  assert (P : mac_partial v).
  { apply MacTypingFacts.mac_type_value_partial, MacTypingFacts.mac_partial_empty. }
  split; [exact P |]. now apply MacTypingFacts.mac_partial_validate.
Qed.

Lemma mac_typing_partial_witness :
  mac.validate
    (type_value (Directive.maskHandlers Directive.Mac) (str "aabbccddeeff") [])
  = true.
Proof.
  apply (proj2 (mac_typing_partial (str "aabbccddeeff"))).
  vm_compute. reflexivity.
Defined.


(** ** Typing an IPv6 address *)

Module Ipv6TypingFacts.














End Ipv6TypingFacts.



(** ** The language of the IPv6 pattern *)

Module Ipv6GrammarFacts.

Lemma lang_seq (a b : regex) (s : jsstring) :
  lang (Seq a b) s <-> exists s1 s2, s = s1 ++ s2 /\ lang a s1 /\ lang b s2.
Proof. reflexivity. Qed.

Lemma lang_alt (a b : regex) (s : jsstring) :
  lang (Alt a b) s <-> lang a s \/ lang b s.
Proof. reflexivity. Qed.

Lemma lang_chr (c : ascii) (s : jsstring) : lang (Chr c) s <-> s = [c].
Proof.
  split.
  - intros (x & -> & E). apply Ascii.eqb_eq in E. now subst.
  - intros ->. exists c. split; [reflexivity | apply Ascii.eqb_refl].
Qed.

Lemma lang_pow (n : nat) (r : regex) (s : jsstring) :
  lang (Pow n r) s <->
  exists ss, s = concat ss /\ length ss = n /\ Forall (lang r) ss.
Proof.
  revert s. induction n as [|n IH]; intros s.
  - split.
    + intros E. simpl in E. subst. exists []. split; [reflexivity |].
      split; [reflexivity | constructor].
    + intros (ss & -> & L & _). destruct ss; [reflexivity | discriminate].
  - change (Pow (S n) r) with (Seq r (Pow n r)). rewrite lang_seq. split.
    + intros (s1 & s2 & -> & H1 & H2).
      apply IH in H2 as (ss & -> & L & F).
      exists (s1 :: ss). split; [reflexivity |]. split; [simpl; lia |].
      now constructor.
    + intros (ss & -> & L & F). destruct ss as [|s1 ss]; [discriminate |].
      inversion F; subst. exists s1, (concat ss). split; [reflexivity |].
      split; [assumption |]. apply IH. exists ss.
      split; [reflexivity |]. split; [simpl in L; lia | assumption].
Qed.

Lemma lang_upto (n : nat) (r : regex) (s : jsstring) :
  lang (UpTo n r) s <->
  exists ss, s = concat ss /\ length ss <= n /\ Forall (lang r) ss.
Proof.
  revert s. induction n as [|n IH]; intros s.
  - split.
    + intros E. simpl in E. subst. exists []. split; [reflexivity |].
      split; [simpl; lia | constructor].
    + intros (ss & -> & L & _). destruct ss; [reflexivity | simpl in L; lia].
  - change (UpTo (S n) r) with (Alt (Seq r (UpTo n r)) Eps).
    rewrite lang_alt, lang_seq. split.
    + intros [(s1 & s2 & -> & H1 & H2) | E].
      * apply IH in H2 as (ss & -> & L & F).
        exists (s1 :: ss). split; [reflexivity |]. split; [simpl; lia |].
        now constructor.
      * simpl in E. subst. exists []. split; [reflexivity |].
        split; [simpl; lia | constructor].
    + intros (ss & -> & L & F). destruct ss as [|s1 ss]; [now right |].
      left. inversion F; subst. exists s1, (concat ss).
      split; [reflexivity |]. split; [assumption |]. apply IH. exists ss.
      split; [reflexivity |]. split; [simpl in L; lia | assumption].
Qed.

(** [r{lo,hi}] reads [lo] to [hi] words of [r] in a row. *)
Lemma lang_rep (lo hi : nat) (r : regex) (s : jsstring) :
  lo <= hi ->
  (lang (Rep lo hi r) s <->
   exists ss, s = concat ss /\ lo <= length ss <= hi /\ Forall (lang r) ss).
Proof.
  intros L. unfold Rep. rewrite lang_seq. split.
  - intros (s1 & s2 & -> & H1 & H2).
    apply lang_pow in H1 as (ss1 & -> & L1 & F1).
    apply lang_upto in H2 as (ss2 & -> & L2 & F2).
    exists (ss1 ++ ss2). split; [now rewrite concat_app |].
    split; [rewrite length_app; lia | now apply Forall_app].
  - intros (ss & -> & Ls & F).
    rewrite <- (firstn_skipn lo ss) in F. apply Forall_app in F as [F1 F2].
    exists (concat (firstn lo ss)), (concat (skipn lo ss)).
    split; [now rewrite <- concat_app, firstn_skipn |]. split.
    + apply lang_pow. exists (firstn lo ss). split; [reflexivity |].
      split; [rewrite length_firstn; lia | exact F1].
    + apply lang_upto. exists (skipn lo ss). split; [reflexivity |].
      split; [rewrite length_skipn; lia | exact F2].
Qed.

Lemma concat_singles (f : ascii -> bool) (ss : list jsstring) :
  Forall (lang (Cls f)) ss ->
  length (concat ss) = length ss /\
  Forall (fun c => f c = true) (concat ss).
Proof.
  induction 1 as [|s ss (c & -> & Hc) F [IH1 IH2]]; [split; constructor |].
  simpl. split; [now rewrite IH1 | now constructor].
Qed.

Lemma singles_concat (s : jsstring) : concat (map (fun c => [c]) s) = s.
Proof. induction s; simpl; congruence. Qed.

Lemma lang_hextet (s : jsstring) : lang ipv6.hextet s <-> hextet_text s.
Proof.
  unfold ipv6.hextet, hextet_text. rewrite lang_rep by lia. split.
  - intros (ss & -> & L & F).
    destruct (concat_singles cls_hex ss F) as [E G]. rewrite E. now split.
  - intros [L F]. exists (map (fun c => [c]) s).
    split; [now rewrite singles_concat |]. split; [now rewrite length_map |].
    apply Forall_forall. intros x Hx.
    apply in_map_iff in Hx as (c & <- & Hc). exists c. split; [reflexivity |].
    rewrite Forall_forall in F. now apply F.
Qed.

Lemma lang_hextet_colon (s : jsstring) :
  lang ipv6.hextet_colon s <->
  exists h, s = h ++ [":"%char] /\ hextet_text h.
Proof.
  unfold ipv6.hextet_colon. rewrite lang_seq. split.
  - intros (s1 & s2 & -> & H1 & H2). apply lang_chr in H2 as ->.
    exists s1. split; [reflexivity | now apply lang_hextet].
  - intros (h & -> & H). exists h, [":"%char]. split; [reflexivity |].
    split; [now apply lang_hextet | now apply lang_chr].
Qed.

Lemma lang_colon_hextet (s : jsstring) :
  lang ipv6.colon_hextet s <->
  exists h, s = ":"%char :: h /\ hextet_text h.
Proof.
  unfold ipv6.colon_hextet. rewrite lang_seq. split.
  - intros (s1 & s2 & -> & H1 & H2). apply lang_chr in H1 as ->.
    exists s2. split; [reflexivity | now apply lang_hextet].
  - intros (h & -> & H). exists [":"%char], h. split; [reflexivity |].
    split; [now apply lang_chr | now apply lang_hextet].
Qed.

Lemma Forall_images (A B : Type) (f : A -> B) (P : A -> Prop) (l : list B) :
  Forall (fun y => exists x, y = f x /\ P x) l <->
  exists xs, l = map f xs /\ Forall P xs.
Proof.
  split.
  - induction 1 as [|y l (x & -> & Hx) F (xs & -> & Fx)].
    + exists []. split; [reflexivity | constructor].
    + exists (x :: xs). split; [reflexivity | now constructor].
  - intros (xs & -> & F). apply Forall_forall. intros y Hy.
    apply in_map_iff in Hy as (x & <- & Hx). exists x.
    split; [reflexivity |]. rewrite Forall_forall in F. now apply F.
Qed.

Lemma lang_groups_after (lo hi : nat) (s : jsstring) :
  lo <= hi ->
  (lang (Rep lo hi ipv6.hextet_colon) s <->
   exists hs, s = colon_after hs /\ lo <= length hs <= hi /\
              Forall hextet_text hs).
Proof.
  intros L. rewrite lang_rep by exact L. split.
  - intros (ss & -> & Ls & F).
    assert (G : Forall (fun y => exists h, y = h ++ [":"%char] /\
                                           hextet_text h) ss).
    { eapply Forall_impl; [| exact F]. intros y. apply lang_hextet_colon. }
    apply Forall_images in G as (hs & -> & G). exists hs.
    split; [reflexivity |]. split; [now rewrite length_map in Ls | exact G].
  - intros (hs & -> & Ls & F).
    exists (map (fun h => h ++ [":"%char]) hs). split; [reflexivity |].
    split; [now rewrite length_map |].
    eapply Forall_impl; [intros y; apply lang_hextet_colon |].
    apply Forall_images. now exists hs.
Qed.

Lemma lang_groups_before (lo hi : nat) (s : jsstring) :
  lo <= hi ->
  (lang (Rep lo hi ipv6.colon_hextet) s <->
   exists hs, s = colon_before hs /\ lo <= length hs <= hi /\
              Forall hextet_text hs).
Proof.
  intros L. rewrite lang_rep by exact L. split.
  - intros (ss & -> & Ls & F).
    assert (G : Forall (fun y => exists h, y = ":"%char :: h /\
                                           hextet_text h) ss).
    { eapply Forall_impl; [| exact F]. intros y. apply lang_colon_hextet. }
    apply Forall_images in G as (hs & -> & G). exists hs.
    split; [reflexivity |]. split; [now rewrite length_map in Ls | exact G].
  - intros (hs & -> & Ls & F).
    exists (map (fun h => ":"%char :: h) hs). split; [reflexivity |].
    split; [now rewrite length_map |].
    eapply Forall_impl; [intros y; apply lang_colon_hextet |].
    apply Forall_images. now exists hs.
Qed.

Lemma colon_after_join (hs : list jsstring) :
  hs <> [] -> colon_after hs = JS.join ":" hs ++ [":"%char].
Proof.
  unfold colon_after. induction hs as [|h rest IH]; [congruence |]. intros _.
  destruct rest as [|h' rest]; [simpl; now rewrite app_nil_r |].
  rewrite SegmentFacts.join_cons by discriminate.
  cbn [map concat] in *. rewrite IH by discriminate.
  rewrite <- !app_assoc. reflexivity.
Qed.

Lemma colon_before_join (hs : list jsstring) :
  hs <> [] -> colon_before hs = ":"%char :: JS.join ":" hs.
Proof.
  unfold colon_before. induction hs as [|h rest IH]; [congruence |]. intros _.
  destruct rest as [|h' rest]; [simpl; now rewrite app_nil_r |].
  rewrite SegmentFacts.join_cons by discriminate.
  cbn [map concat] in *. rewrite IH by discriminate. reflexivity.
Qed.

Lemma not_nil_length (A : Type) (l : list A) : 1 <= length l -> l <> [].
Proof. destruct l; simpl; [lia | discriminate]. Qed.

(** Groups, then [::], then groups. *)
Lemma lang_two_sides (la ha lb hb : nat) (v : jsstring) :
  1 <= la <= ha -> 1 <= lb <= hb ->
  (lang (Seq (Rep la ha ipv6.hextet_colon) (Rep lb hb ipv6.colon_hextet)) v
   <->
   exists A B, v = JS.join ":" A ++ str "::" ++ JS.join ":" B /\
               la <= length A <= ha /\ lb <= length B <= hb /\
               Forall hextet_text A /\ Forall hextet_text B).
Proof.
  intros La Lb. rewrite lang_seq. split.
  - intros (s1 & s2 & -> & H1 & H2).
    apply lang_groups_after in H1 as (A & -> & LA & FA); [| lia].
    apply lang_groups_before in H2 as (B & -> & LB & FB); [| lia].
    exists A, B.
    rewrite colon_after_join by (apply not_nil_length; lia).
    rewrite colon_before_join by (apply not_nil_length; lia).
    rewrite <- app_assoc. repeat split; tauto || lia.
  - intros (A & B & -> & LA & LB & FA & FB).
    exists (colon_after A), (colon_before B). split.
    + rewrite colon_after_join by (apply not_nil_length; lia).
      rewrite colon_before_join by (apply not_nil_length; lia).
      rewrite <- app_assoc. reflexivity.
    + split; [apply lang_groups_after; [lia |]; now exists A
             | apply lang_groups_before; [lia |]; now exists B].
Qed.

Lemma lang_eight (v : jsstring) :
  lang (Seq (Rep 7 7 ipv6.hextet_colon) ipv6.hextet) v <->
  exists hs, v = JS.join ":" hs /\ length hs = 8 /\ Forall hextet_text hs.
Proof.
  rewrite lang_seq. split.
  - intros (s1 & s2 & -> & H1 & H2).
    apply lang_groups_after in H1 as (A & -> & LA & FA); [| lia].
    apply lang_hextet in H2. exists (A ++ [s2]).
    rewrite colon_after_join by (apply not_nil_length; lia).
    rewrite SegmentFacts.join_snoc by (apply not_nil_length; lia).
    rewrite <- app_assoc. split; [reflexivity |].
    split; [rewrite length_app; simpl; lia |].
    apply Forall_app. split; [exact FA | now constructor].
  - intros (hs & -> & L & F).
    destruct (exists_last (not_nil_length _ hs ltac:(lia))) as (A & h & ->).
    apply Forall_app in F as [FA Fh]. inversion Fh; subst.
    rewrite length_app in L. simpl in L.
    exists (colon_after A), h. split.
    + rewrite colon_after_join by (apply not_nil_length; lia).
      rewrite SegmentFacts.join_snoc by (apply not_nil_length; lia).
      rewrite <- app_assoc. reflexivity.
    + split; [apply lang_groups_after; [lia |]; exists A; repeat split;
              try lia; assumption | now apply lang_hextet].
Qed.

Lemma lang_left_only (v : jsstring) :
  lang (Seq (Rep 1 7 ipv6.hextet_colon) (Chr ":")) v <->
  exists A, v = JS.join ":" A ++ str "::" /\ 1 <= length A <= 7 /\
            Forall hextet_text A.
Proof.
  rewrite lang_seq. split.
  - intros (s1 & s2 & -> & H1 & H2). apply lang_chr in H2 as ->.
    apply lang_groups_after in H1 as (A & -> & LA & FA); [| lia].
    exists A. rewrite colon_after_join by (apply not_nil_length; lia).
    rewrite <- app_assoc. now repeat split.
  - intros (A & -> & LA & FA). exists (colon_after A), [":"%char]. split.
    + rewrite colon_after_join by (apply not_nil_length; lia).
      rewrite <- app_assoc. reflexivity.
    + split; [apply lang_groups_after; [lia |]; now exists A
             | now apply lang_chr].
Qed.

Lemma lang_right_only (v : jsstring) :
  lang (Seq (Chr ":") (Alt (Rep 1 7 ipv6.colon_hextet) (Chr ":"))) v <->
  (exists B, v = str "::" ++ JS.join ":" B /\ 1 <= length B <= 7 /\
             Forall hextet_text B) \/ v = str "::".
Proof.
  rewrite lang_seq. split.
  - intros (s1 & s2 & -> & H1 & H2). apply lang_chr in H1 as ->.
    apply lang_alt in H2 as [H2 | H2].
    + left. apply lang_groups_before in H2 as (B & -> & LB & FB); [| lia].
      exists B. rewrite colon_before_join by (apply not_nil_length; lia).
      now repeat split.
    + right. apply lang_chr in H2 as ->. reflexivity.
  - intros [(B & -> & LB & FB) | ->].
    + exists [":"%char], (colon_before B). split.
      * rewrite colon_before_join by (apply not_nil_length; lia).
        reflexivity.
      * split; [now apply lang_chr |]. apply lang_alt. left.
        apply lang_groups_before; [lia |]. now exists B.
    + exists [":"%char], [":"%char]. split; [reflexivity |].
      split; [now apply lang_chr |]. apply lang_alt. right. now apply lang_chr.
Qed.

Lemma lang_one_right (v : jsstring) :
  lang (Seq (Rep 1 6 ipv6.hextet_colon) (Seq (Chr ":") ipv6.hextet)) v <->
  lang (Seq (Rep 1 6 ipv6.hextet_colon) (Rep 1 1 ipv6.colon_hextet)) v.
Proof.
  rewrite !lang_seq. split.
  - intros (s1 & s2 & -> & H1 & H2). exists s1, s2.
    split; [reflexivity |]. split; [exact H1 |].
    apply lang_rep; [lia |]. exists [s2].
    split; [simpl; now rewrite app_nil_r |]. split; [simpl; lia |].
    constructor; [exact H2 | constructor].
  - intros (s1 & s2 & -> & H1 & H2). exists s1, s2.
    split; [reflexivity |]. split; [exact H1 |].
    apply lang_rep in H2 as (ss & -> & L & F); [| lia].
    destruct ss as [|x [|y ss]]; try (simpl in L; lia).
    inversion F; subst. simpl. now rewrite app_nil_r.
Qed.

Lemma lang_one_left (v : jsstring) :
  lang (Seq ipv6.hextet (Seq (Chr ":") (Rep 1 6 ipv6.colon_hextet))) v <->
  lang (Seq (Rep 1 1 ipv6.hextet_colon) (Rep 1 6 ipv6.colon_hextet)) v.
Proof.
  rewrite !lang_seq. split.
  - intros (s1 & s2 & -> & H1 & H2).
    apply lang_seq in H2 as (s3 & s4 & -> & H3 & H4).
    exists (s1 ++ s3), s4. split; [now rewrite app_assoc |].
    split; [| exact H4]. apply lang_rep; [lia |]. exists [s1 ++ s3].
    split; [simpl; now rewrite app_nil_r |]. split; [simpl; lia |].
    constructor; [| constructor]. now exists s1, s3.
  - intros (s1 & s2 & -> & H1 & H2).
    apply lang_rep in H1 as (ss & -> & L & F); [| lia].
    destruct ss as [|x [|y ss]]; try (simpl in L; lia).
    inversion F as [|? ? Hx _]; subst.
    destruct Hx as (h & c & -> & Hh & Hc).
    exists h, (c ++ s2). split; [simpl; now rewrite app_nil_r, app_assoc |].
    split; [exact Hh |]. now exists c, s2.
Qed.

Lemma lang_double_colon (v : jsstring) :
  lang (Seq (Chr ":") (Chr ":")) v <-> v = str "::".
Proof.
  rewrite lang_seq. split.
  - intros (s1 & s2 & -> & H1 & H2).
    apply lang_chr in H1 as ->. apply lang_chr in H2 as ->. reflexivity.
  - intros ->. exists [":"%char], [":"%char]. split; [reflexivity |].
    split; now apply lang_chr.
Qed.

Lemma validate_text (v : jsstring) :
  ipv6.validate v = true <-> ipv6_text v.
Proof.
  unfold ipv6.validate, test_anchored. rewrite RegexFacts.matches_lang.
  unfold ipv6.ipv6Regex. rewrite !lang_alt.
  rewrite lang_eight, lang_left_only, lang_one_right, lang_one_left,
    lang_right_only, lang_double_colon.
  rewrite !lang_two_sides by lia.
  unfold ipv6_text. split.
  - intros [H | [H | [H | [H | [H | [H | [H | [H | [[H | H] | H]]]]]]]]].
    + now left.
    + right. destruct H as (A & -> & L & F). exists A, [].
      rewrite app_nil_r. split; [reflexivity |]. split; [simpl; lia |].
      split; [exact F | constructor].
    + right. destruct H as (A & B & E & LA & LB & FA & FB).
      exists A, B. split; [exact E |]. split; [lia |]. now split.
    + right. destruct H as (A & B & E & LA & LB & FA & FB).
      exists A, B. split; [exact E |]. split; [lia |]. now split.
    + right. destruct H as (A & B & E & LA & LB & FA & FB).
      exists A, B. split; [exact E |]. split; [lia |]. now split.
    + right. destruct H as (A & B & E & LA & LB & FA & FB).
      exists A, B. split; [exact E |]. split; [lia |]. now split.
    + right. destruct H as (A & B & E & LA & LB & FA & FB).
      exists A, B. split; [exact E |]. split; [lia |]. now split.
    + right. destruct H as (A & B & E & LA & LB & FA & FB).
      exists A, B. split; [exact E |]. split; [lia |]. now split.
    + right. destruct H as (B & -> & L & F). exists [], B.
      split; [reflexivity |]. split; [simpl; lia |].
      split; [constructor | exact F].
    + right. subst v. exists [], [].
      split; [reflexivity |]. split; [simpl; lia |]. split; constructor.
    + right. subst v. exists [], [].
      split; [reflexivity |]. split; [simpl; lia |]. split; constructor.
  - intros [H | (A & B & E & L & FA & FB)]; [now left |]. right.
    destruct A as [|a A'].
    + destruct B as [|b B'].
      * do 8 right. now subst v.
      * do 7 right. left. left. exists (b :: B').
        split; [exact E |]. split; [simpl in *; lia | exact FB].
    + set (A := a :: A') in *.
      assert (LA : 1 <= length A) by (simpl; lia).
      destruct (length B) as [|[|[|[|[|[|[|n]]]]]]] eqn:LB.
      * left. exists A. destruct B; [| discriminate].
        rewrite app_nil_r in E. split; [exact E |]. split; [lia | exact FA].
      * right. left. exists A, B. split; [exact E |].
        split; [lia |]. split; [lia |]. now split.
      * do 2 right. left. exists A, B. split; [exact E |].
        split; [lia |]. split; [lia |]. now split.
      * do 3 right. left. exists A, B. split; [exact E |].
        split; [lia |]. split; [lia |]. now split.
      * do 4 right. left. exists A, B. split; [exact E |].
        split; [lia |]. split; [lia |]. now split.
      * do 5 right. left. exists A, B. split; [exact E |].
        split; [lia |]. split; [lia |]. now split.
      * do 6 right. left. exists A, B. split; [exact E |].
        split; [lia |]. split; [lia |]. now split.
      * lia.
Qed.

End Ipv6GrammarFacts.

(** X28.  [ipv6.validate] accepts exactly the texts of two shapes: eight
    groups of one to four hex digits joined by colons, or [::] between two
    lists of such groups joined by colons, either list possibly empty, with
    seven groups at most in all. *)
Theorem ipv6_validate_grammar (value : jsstring) :
  ipv6.validate value = true <-> ipv6_text value.
Proof. exact (Ipv6GrammarFacts.validate_text value). Qed.


(** ** Keys that are all kept *)

Module KeptFacts.

Lemma step_kept (h : Directive.handler) (u : jsstring) (c : ascii) :
  type_step h u c = u ++ [c] <->
  Directive.isValidChar h [c] u (length u) (Some (length u)) = true /\
  Directive.format h (u ++ [c]) = u ++ [c].
Proof.
  unfold type_step. split.
  - destruct (Directive.isValidChar h [c] u (length u) (Some (length u))).
    + intros E. now split.
    + intros E. apply (f_equal (@length _)) in E.
      rewrite length_app in E. simpl in E. lia.
  - intros [-> E]. exact E.
Qed.

Lemma kept_nil (h : Directive.handler) (v : jsstring) : keys_kept h [] v.
Proof. intros pre c suf E. destruct pre; discriminate. Qed.

Lemma kept_cons (h : Directive.handler) (c : ascii) (ks v : jsstring) :
  keys_kept h (c :: ks) v <->
  type_step h v c = v ++ [c] /\ keys_kept h ks (v ++ [c]).
Proof.
  split.
  - intros K. split.
    + apply step_kept. specialize (K [] c ks eq_refl).
      now rewrite app_nil_r in K.
    + intros pre x suf E. specialize (K (c :: pre) x suf).
      replace ((v ++ [c]) ++ pre) with (v ++ c :: pre)
        by (rewrite <- app_assoc; reflexivity).
      apply K. now rewrite E.
  - intros [S K] pre x suf E. destruct pre as [|y pre].
    + injection E as <- _. rewrite app_nil_r. now apply step_kept.
    + injection E as <- E. specialize (K pre x suf E).
      replace ((v ++ [c]) ++ pre) with (v ++ c :: pre) in K
        by (rewrite <- app_assoc; reflexivity).
      exact K.
Qed.

Lemma kept_app (h : Directive.handler) (a b v : jsstring) :
  keys_kept h a v -> keys_kept h b (v ++ a) -> keys_kept h (a ++ b) v.
Proof.
  revert v. induction a as [|c a IH]; intros v Ka Kb.
  - now rewrite app_nil_r in Kb.
  - apply kept_cons in Ka as [S Ka]. cbn [app]. apply kept_cons.
    split; [exact S |]. apply IH; [exact Ka |].
    now rewrite <- app_assoc.
Qed.

(** Keys that are all kept end up in the field, all of them. *)
Lemma kept_typed (h : Directive.handler) (keys v : jsstring) :
  keys_kept h keys v -> type_value h keys v = v ++ keys.
Proof.
  revert v. induction keys as [|c keys IH]; intros v K.
  - now rewrite app_nil_r.
  - apply kept_cons in K as [S K]. cbn [type_value fold_left]. rewrite S.
    change (fold_left (type_step h) keys (v ++ [c]))
      with (type_value h keys (v ++ [c])).
    rewrite (IH _ K), <- app_assoc. reflexivity.
Qed.

End KeptFacts.

(** ** Typing a whole MAC address *)

Module MacWholeFacts.

Lemma format_groups_fixed (done : list jsstring) (last : jsstring) :
  Forall hex_pair done -> short_hex last -> length done <= 5 ->
  mac.format (JS.join ":" (done ++ [last])) = JS.join ":" (done ++ [last]).
Proof.
  intros F S L. destruct done as [|p rest].
  - simpl. now apply MacFacts.format_short.
  - unfold mac.format. rewrite MacFacts.format_groups; [reflexivity | |].
    + rewrite length_app. simpl in *. lia.
    + now apply MacTypingFacts.partial_short.
Qed.

(** A hex digit for which the last group has room. *)
Lemma type_hex_room (done : list jsstring) (last : jsstring) (c : ascii) :
  Forall hex_pair done -> short_hex last -> length last < 2 ->
  cls_hex c = true -> length done <= 5 ->
  type_step (Directive.maskHandlers Directive.Mac)
    (JS.join ":" (done ++ [last])) c =
  JS.join ":" (done ++ [last ++ [c]]).
Proof.
  intros F S R H L. unfold type_step.
  cbn [Directive.maskHandlers Directive.isValidChar Directive.format].
  rewrite (MacKeyFacts.mac_hex_accepted c _ _ _ H).
  rewrite Ipv4TypingFacts.insert_at_end, app_nil_r.
  rewrite (MacTypingFacts.partial_hex done last F S), length_app,
    (MacTypingFacts.pairs_length _ F).
  destruct (Nat.ltb_spec (2 * length done + length last) 12) as [_ | X];
    [| lia].
  rewrite Ipv4TypingFacts.join_snoc_char.
  apply format_groups_fixed; [exact F | | exact L].
  destruct S as [_ Sh]. split; [rewrite length_app; simpl; lia |].
  apply Forall_app. split; [exact Sh | now constructor].
Qed.

(** The colon behind a full group. *)
Lemma type_colon (done : list jsstring) (p : jsstring) :
  Forall hex_pair done -> hex_pair p -> length done < 5 ->
  type_step (Directive.maskHandlers Directive.Mac)
    (JS.join ":" (done ++ [p])) ":" =
  JS.join ":" ((done ++ [p]) ++ [[]]).
Proof.
  intros F P L. pose proof (MacTypingFacts.pair_short p P) as S.
  set (u := JS.join ":" (done ++ [p])).
  assert (E : JS.split ":" u = done ++ [p])
    by now apply MacTypingFacts.partial_split.
  assert (A : mac.isValidChar [":"%char] u (length u) (Some (length u))
              = true).
  { unfold mac.isValidChar.
    assert (T : Regex.test (Cls cls_hex_colon) [":"%char] = true)
      by (vm_compute; reflexivity).
    rewrite T. change (jsstring_eqb [":"%char] (str ":")) with true.
    cbn [negb].
    rewrite !ReplaceFacts.replace_all_class, ReplaceFacts.countChar_count.
    rewrite SegmentFacts.getSegmentTextAt_split, firstn_all, skipn_all.
    change (before_first ":" []) with (@nil ascii).
    rewrite app_nil_r, (Ipv4TypingFacts.after_last_split ":" u done p E).
    rewrite (SubseqFacts.filter_id cls_hex p (proj2 P)), (proj1 P).
    cbn [Nat.eqb negb].
    pose proof (SegmentFacts.length_split ":" u) as Sp.
    rewrite E, length_app in Sp. simpl in Sp.
    destruct (Nat.leb_spec 5 (count_char u ":")) as [X | _]; [lia |].
    unfold u at 1. rewrite (MacTypingFacts.partial_hex done p F S).
    rewrite length_app, (MacTypingFacts.pairs_length _ F), (proj1 P).
    destruct (Nat.leb_spec 12 (2 * length done + 2)) as [X | _]; [lia |].
    rewrite JSFacts.slice_from_nat, skipn_all.
    change (JS.startsWith [] (str ":")) with false. rewrite orb_false_r.
    destruct (JS.endsWith (JS.slice u 0 (Z.of_nat (length u))) (str ":"))
      eqn:B; [| reflexivity].
    exfalso. change (str ":") with [":"%char] in B.
    apply ColonFacts.endsWith_char_left in B.
    destruct P as [Lp Hp]. destruct p as [|a [|b [|x p]]]; try discriminate.
    unfold char_left in B. rewrite firstn_all in B.
    assert (Q : u = JS.join ":" (done ++ [[a]]) ++ [b]).
    { unfold u. symmetry.
      apply (Ipv4TypingFacts.join_snoc_char ":" b done [a]). }
    rewrite Q, rev_app_distr in B. simpl in B. injection B as ->.
    inversion Hp as [|? ? _ Hb]; subst. inversion Hb as [|? ? Hc _]; subst.
    vm_compute in Hc. discriminate. }
  unfold type_step.
  cbn [Directive.maskHandlers Directive.isValidChar Directive.format].
  rewrite A. unfold u.
  rewrite <- (SegmentFacts.join_snoc ":" (done ++ [p]) [])
    by (destruct done; discriminate).
  apply format_groups_fixed.
  - apply Forall_app. split; [exact F | now constructor].
  - split; [simpl; lia | constructor].
  - rewrite length_app. simpl. lia.
Qed.

Lemma type_pair (done : list jsstring) (p rest : jsstring) :
  Forall hex_pair done -> hex_pair p -> length done <= 5 ->
  type_value (Directive.maskHandlers Directive.Mac) (p ++ rest)
    (JS.join ":" (done ++ [[]])) =
  type_value (Directive.maskHandlers Directive.Mac) rest
    (JS.join ":" (done ++ [p])).
Proof.
  intros F [Lp Hp] L. destruct p as [|a [|b [|x p]]]; try discriminate.
  inversion Hp as [|? ? Ha Hb]; subst. inversion Hb as [|? ? Hb' _]; subst.
  cbn [app type_value fold_left].
  rewrite type_hex_room; [| exact F | split; [simpl; lia | constructor]
                          | simpl; lia | exact Ha | exact L].
  rewrite type_hex_room; [reflexivity | exact F | | simpl; lia | exact Hb'
                          | exact L].
  split; [simpl; lia | now repeat constructor].
Qed.

Lemma type_groups (gs done : list jsstring) :
  gs <> [] -> Forall hex_pair gs -> Forall hex_pair done ->
  length done + length gs <= 6 ->
  type_value (Directive.maskHandlers Directive.Mac) (JS.join ":" gs)
    (JS.join ":" (done ++ [[]])) =
  JS.join ":" (done ++ gs).
Proof.
  revert done. induction gs as [|p gs IH]; [congruence |].
  intros done _ Fg Fd L. inversion Fg as [|? ? P Fg']; subst.
  destruct gs as [|q gs].
  - cbn [JS.join]. rewrite <- (app_nil_r p) at 1.
    rewrite type_pair; [reflexivity | exact Fd | exact P | simpl in L; lia].
  - rewrite SegmentFacts.join_cons by discriminate.
    rewrite type_pair; [| exact Fd | exact P | simpl in L; lia].
    cbn [type_value fold_left].
    rewrite type_colon; [| exact Fd | exact P | simpl in L; lia].
    fold (type_value (Directive.maskHandlers Directive.Mac)
            (JS.join ":" (q :: gs)) (JS.join ":" ((done ++ [p]) ++ [[]]))).
    rewrite IH; [now rewrite <- app_assoc | discriminate | exact Fg' | |].
    + apply Forall_app. split; [exact Fd | now constructor].
    + rewrite length_app. simpl in *. lia.
Qed.

(** The two hex digits of a group, typed behind the colon. *)
Lemma kept_pair (done : list jsstring) (p : jsstring) :
  Forall hex_pair done -> hex_pair p -> length done <= 5 ->
  keys_kept (Directive.maskHandlers Directive.Mac) p
    (JS.join ":" (done ++ [[]])) /\
  JS.join ":" (done ++ [[]]) ++ p = JS.join ":" (done ++ [p]).
Proof.
  intros F [Lp Hp] L. destruct p as [|a [|b [|x p]]]; try discriminate.
  inversion Hp as [|? ? Ha Hb]; subst. inversion Hb as [|? ? Hb' _]; subst.
  pose proof (Ipv4TypingFacts.join_snoc_char ":" a done []) as E1.
  pose proof (Ipv4TypingFacts.join_snoc_char ":" b done [a]) as E2.
  assert (S0 : short_hex []) by (split; [simpl; lia | constructor]).
  assert (Sa : short_hex [a]) by (split; [simpl; lia | now constructor]).
  assert (L0 : length (@nil ascii) < 2) by (simpl; lia).
  assert (La : length [a] < 2) by (simpl; lia).
  pose proof (type_hex_room done [] a F S0 L0 Ha L) as S1.
  pose proof (type_hex_room done [a] b F Sa La Hb' L) as S2.
  cbn [app] in E1, E2, S1, S2. unfold jsstring in *.
  rewrite <- E1 in S1. rewrite <- E2 in S2. rewrite <- E1 in S2.
  split.
  - apply KeptFacts.kept_cons. split; [exact S1 |].
    apply KeptFacts.kept_cons. split; [exact S2 |].
    apply KeptFacts.kept_nil.
  - rewrite <- E2, <- E1, <- app_assoc. reflexivity.
Qed.

Lemma kept_groups (gs done : list jsstring) :
  gs <> [] -> Forall hex_pair gs -> Forall hex_pair done ->
  length done + length gs <= 6 ->
  keys_kept (Directive.maskHandlers Directive.Mac) (JS.join ":" gs)
    (JS.join ":" (done ++ [[]])).
Proof.
  revert done. induction gs as [|p gs IH]; [congruence |].
  intros done _ Fg Fd L. inversion Fg as [|? ? P Fg']; subst.
  destruct (kept_pair done p Fd P ltac:(simpl in L; lia)) as [Kp Ep].
  destruct gs as [|q gs]; [exact Kp |].
  rewrite SegmentFacts.join_cons by discriminate.
  apply KeptFacts.kept_app; [exact Kp |].
  assert (Ec : JS.join ":" (done ++ [p]) ++ [":"%char] =
               JS.join ":" ((done ++ [p]) ++ [[]])).
  { symmetry. apply SegmentFacts.join_snoc. destruct done; discriminate. }
  pose proof (type_colon done p Fd P ltac:(simpl in L; lia)) as Sc.
  assert (Fd' : Forall hex_pair (done ++ [p])).
  { apply Forall_app. split; [exact Fd | now constructor]. }
  pose proof (IH (done ++ [p]) ltac:(discriminate) Fg' Fd'
                ltac:(rewrite length_app; simpl in *; lia)) as Kr.
  unfold jsstring in *.
  rewrite <- Ec in Sc, Kr. rewrite <- Ep in Sc, Kr.
  apply KeptFacts.kept_cons. split; [exact Sc | exact Kr].
Qed.

(** Every key of a valid address is kept. *)
Lemma valid_kept (v : jsstring) :
  mac.validate v = true ->
  keys_kept (Directive.maskHandlers Directive.Mac) v [].
Proof.
  intros H. apply ShapeFacts.validate_pairs in H as (segs & -> & L & F).
  apply (kept_groups segs []); [| exact F | constructor | simpl; lia].
  destruct segs; discriminate.
Qed.

Lemma valid_typable (v : jsstring) :
  mac.validate v = true ->
  type_value (Directive.maskHandlers Directive.Mac) v [] = v.
Proof.
  intros H. apply ShapeFacts.validate_pairs in H as (segs & -> & L & F).
  apply (type_groups segs []); [| exact F | constructor | simpl; lia].
  destruct segs; [discriminate | discriminate].
Qed.

End MacWholeFacts.

(** X29.  Every address that [mac.validate] accepts can be typed: typing its
    characters one after the other, colons included, with the cursor behind
    the text of a field that starts empty, every key is accepted where it
    is pressed, behind the characters in front of it, and [format] leaves
    the text with the key behind it as it is; so no key is dropped, nothing
    is rewritten, and the field ends up holding the address. *)
Theorem mac_valid_typable (value : jsstring) :
  mac.validate value = true ->
  (forall pre c suf, value = pre ++ c :: suf ->
     mac.isValidChar [c] pre (length pre) (Some (length pre)) = true /\
     mac.format (pre ++ [c]) = pre ++ [c]) /\
  type_value (Directive.maskHandlers Directive.Mac) value [] = value.
Proof.
  intros H. pose proof (MacWholeFacts.valid_kept value H) as K. split.
  - intros pre c suf E. exact (K pre c suf E).
  - exact (KeptFacts.kept_typed _ value [] K).
Qed.

Lemma mac_valid_typable_witness :
  (mac.isValidChar [":"%char] (str "00:1A") (length (str "00:1A"))
     (Some (length (str "00:1A"))) = true /\
   mac.format (str "00:1A" ++ [":"%char]) = str "00:1A" ++ [":"%char]) /\
  type_value (Directive.maskHandlers Directive.Mac)
    (str "00:1A:2B:3C:4D:5E") [] = str "00:1A:2B:3C:4D:5E".
Proof.
  assert (V : mac.validate (str "00:1A:2B:3C:4D:5E") = true)
    by (vm_compute; reflexivity).
  split.
  - apply (proj1 (mac_valid_typable (str "00:1A:2B:3C:4D:5E") V)
             (str "00:1A") ":"%char (str "2B:3C:4D:5E")).
    reflexivity.
  - exact (proj2 (mac_valid_typable (str "00:1A:2B:3C:4D:5E") V)).
Defined.

(** ** Typing a whole IPv4 address *)

Module Ipv4WholeFacts.

Lemma decimal_snoc (s : jsstring) (c : ascii) :
  JS.decimal (s ++ [c]) = (10 * JS.decimal s + JS.digit_value c)%Z.
Proof. unfold JS.decimal. now rewrite fold_left_app. Qed.

(** The front part of an octet without a leading zero is such an octet. *)
Lemma canonical_prefix (pre suf : jsstring) :
  canonical_octet (pre ++ suf) -> pre <> [] -> canonical_octet pre.
Proof.
  intros ((L & D & V) & Z0) N. rewrite length_app in L.
  apply Forall_app in D as [Dp Ds].
  assert (Lp : 1 <= length pre) by (destruct pre; [congruence | simpl; lia]).
  split; [split; [lia | split; [exact Dp |]] |].
  - destruct suf as [|x suf]; [now rewrite app_nil_r in V |].
    simpl in L. pose proof (Ipv4ShapeFacts.decimal_short pre Dp). lia.
  - intros L1 H. apply Z0; [rewrite length_app; lia |].
    destruct pre; [discriminate | exact H].
Qed.

(** A proper front part of an octet is not complete. *)
Lemma prefix_not_complete (pre suf : jsstring) :
  canonical_octet (pre ++ suf) -> suf <> [] -> ipv4_complete pre = false.
Proof.
  intros ((L & D & V) & _) N. rewrite length_app in L.
  apply Forall_app in D as [Dp Ds].
  destruct suf as [|c suf]; [congruence |]. simpl in L.
  unfold ipv4_complete.
  destruct (Nat.eqb_spec (length pre) 3) as [X | _]; [lia |]. cbn [orb].
  destruct (Nat.eqb_spec (length pre) 2) as [L2 | _]; [| reflexivity].
  cbn [andb]. destruct suf as [|x suf]; [| simpl in L; lia].
  inversion Ds as [|? ? Hc _]; subst.
  change (str "0") with ["0"%char].
  rewrite Ipv4Facts.parseInt_digits.
  - rewrite decimal_snoc in *. cbn [JS.gt].
    change (JS.digit_value "0") with 0%Z.
    pose proof (Ipv4ShapeFacts.digit_value_digit c Hc).
    apply Z.ltb_ge. lia.
  - apply Forall_app. split; [exact Dp |]. now repeat constructor.
  - destruct pre; discriminate.
Qed.

Lemma pieces_no_dot (segs : list jsstring) :
  Forall (fun s => s = [] \/ octet_text s) segs ->
  Forall (fun seg : jsstring => ~ In "."%char seg) segs.
Proof.
  intros F. eapply Forall_impl; [| exact F]. intros s Hs.
  apply Ipv4Facts.digits_no_dot. now apply Ipv4ShapeFacts.shape_digits.
Qed.

(** What [format] does to an address in the making. *)
Lemma format_exact (done : list jsstring) (last : jsstring) :
  Forall canonical_octet done -> last = [] \/ canonical_octet last ->
  length done <= 3 ->
  ipv4.format (JS.join "." (done ++ [last])) =
  JS.join "."
    ((done ++ [last]) ++
     (if (length done <? 3)%nat && ipv4_complete last then [[]] else [])).
Proof.
  intros F H L.
  pose proof (Ipv4TypingFacts.partial_pieces done last F H) as Sh.
  set (segs := done ++ [last]) in *.
  assert (Ls : length segs = length done + 1).
  { unfold segs. rewrite length_app. reflexivity. }
  assert (N : segs <> []) by (unfold segs; destruct done; discriminate).
  rewrite Ipv4LoopFacts.ipv4_format_filter.
  rewrite (SubseqFacts.filter_id _ _ (Ipv4TypingFacts.ipv4_pieces_chars _ Sh)).
  rewrite (SegmentFacts.split_join "." segs N (pieces_no_dot _ Sh)).
  rewrite Ipv4LoopFacts.format_loop_spec.
  rewrite firstn_all2 by lia.
  rewrite (MacFacts.map_fix _ ipv4_cleanup segs)
    by (eapply Forall_impl; [| exact Sh]; apply Ipv4ShapeFacts.shape_cleanup).
  rewrite Ipv4ShapeFacts.nth_last.
  replace (List.last segs []) with last by (unfold segs; now rewrite last_last).
  assert (Cl : ipv4_cleanup last = last).
  { apply Ipv4ShapeFacts.shape_cleanup. destruct H as [-> | H];
      [now left | now apply Ipv4TypingFacts.canonical_shape]. }
  rewrite Cl. replace (length segs - 1) with (length done) by lia.
  reflexivity.
Qed.

Lemma pieces_split (done : list jsstring) (last : jsstring) :
  Forall canonical_octet done -> last = [] \/ canonical_octet last ->
  JS.split "." (JS.join "." (done ++ [last])) = done ++ [last].
Proof.
  intros F H. apply SegmentFacts.split_join; [destruct done; discriminate |].
  apply pieces_no_dot. now apply Ipv4TypingFacts.partial_pieces.
Qed.

Lemma canonical_last_digit (o : jsstring) (c : ascii) :
  canonical_octet (o ++ [c]) -> cls_digit c = true.
Proof.
  intros ((_ & D & _) & _). apply Forall_app in D as [_ D].
  now inversion D.
Qed.

(** A digit that keeps the last piece an octet is accepted. *)
Lemma type_digit (done : list jsstring) (last : jsstring) (c : ascii) :
  Forall canonical_octet done -> last = [] \/ canonical_octet last ->
  length done <= 3 -> canonical_octet (last ++ [c]) ->
  type_step (Directive.maskHandlers Directive.Ipv4)
    (JS.join "." (done ++ [last])) c =
  ipv4.format (JS.join "." (done ++ [last ++ [c]])).
Proof.
  intros F H L C. pose proof (canonical_last_digit last c C) as D.
  set (u := JS.join "." (done ++ [last])).
  assert (E : JS.split "." u = done ++ [last]) by now apply pieces_split.
  assert (N : c <> "."%char).
  { intros ->. vm_compute in D. discriminate. }
  assert (A : ipv4.isValidChar [c] u (length u) (Some (length u)) = true).
  { apply (Ipv4DigitFacts.ipv4_digit_accepted c u (length u)
             (Some (length u)) D); [| lia |].
    - apply Ipv4TypingFacts.ipv4_pieces_chars.
      now apply Ipv4TypingFacts.partial_pieces.
    - now rewrite (Ipv4TypingFacts.segment_at_end u c "." done last N E). }
  unfold type_step.
  cbn [Directive.maskHandlers Directive.isValidChar Directive.format].
  rewrite A. unfold u. now rewrite Ipv4TypingFacts.join_snoc_char.
Qed.

(** Typing the rest [suf] of an octet behind its front part [pre]. *)
Lemma type_octet_rest (done : list jsstring) (suf pre : jsstring) :
  Forall canonical_octet done -> length done <= 3 -> suf <> [] ->
  canonical_octet (pre ++ suf) ->
  type_value (Directive.maskHandlers Directive.Ipv4) suf
    (JS.join "." (done ++ [pre])) =
  ipv4.format (JS.join "." (done ++ [pre ++ suf])).
Proof.
  intros F L. unfold type_value. revert pre.
  induction suf as [|c suf IH]; [congruence |].
  intros pre _ C.
  assert (P : pre = [] \/ canonical_octet pre).
  { destruct pre as [|x pre]; [now left | right].
    apply (canonical_prefix _ (c :: suf) C). discriminate. }
  cbn [fold_left].
  destruct suf as [|c' suf].
  - cbn [fold_left]. now apply type_digit.
  - assert (C1 : canonical_octet ((pre ++ [c]) ++ c' :: suf))
      by now rewrite <- app_assoc.
    assert (C2 : canonical_octet (pre ++ [c])).
    { apply (canonical_prefix _ (c' :: suf) C1). destruct pre; discriminate. }
    rewrite type_digit; [| exact F | exact P | exact L | exact C2].
    rewrite format_exact; [| exact F | now right | exact L].
    rewrite (prefix_not_complete _ (c' :: suf) C1) by discriminate.
    rewrite andb_false_r, app_nil_r.
    rewrite IH; [now rewrite <- app_assoc | discriminate | exact C1].
Qed.

Lemma canonical_not_nil (o : jsstring) : canonical_octet o -> o <> [].
Proof. intros ((L & _) & _) ->. simpl in L. lia. Qed.

(** The dot behind an octet: typed, or put there by [format] already. *)
Lemma type_dot (done : list jsstring) (o : jsstring) :
  Forall canonical_octet done -> length done < 3 -> canonical_octet o ->
  type_step (Directive.maskHandlers Directive.Ipv4)
    (ipv4.format (JS.join "." (done ++ [o]))) "." =
  JS.join "." ((done ++ [o]) ++ [[]]).
Proof.
  intros F L C.
  rewrite format_exact; [| exact F | now right | lia].
  destruct (Nat.ltb_spec (length done) 3) as [_ | X]; [| lia]. cbn [andb].
  assert (Nn : done ++ [o] <> []) by (destruct done; discriminate).
  unfold type_step.
  cbn [Directive.maskHandlers Directive.isValidChar Directive.format].
  destruct (ipv4_complete o).
  - set (u := JS.join "." ((done ++ [o]) ++ [[]])).
    assert (A : ipv4.isValidChar ["."%char] u (length u) (Some (length u))
                = false).
    { apply not_true_is_false. intros A.
      apply (Ipv4DotFacts.ipv4_dot_accepted u (length u) (Some (length u)))
        in A.
      destruct A as (_ & (c & Hc & Nc) & _).
      unfold char_left in Hc. rewrite firstn_all in Hc.
      assert (Q : u = JS.join "." (done ++ [o]) ++ ["."%char])
        by (unfold u; now apply SegmentFacts.join_snoc).
      rewrite Q, rev_app_distr in Hc. simpl in Hc. congruence. }
    now rewrite A.
  - rewrite app_nil_r. set (u := JS.join "." (done ++ [o])).
    assert (E : JS.split "." u = done ++ [o])
      by (apply pieces_split; [exact F | now right]).
    assert (A : ipv4.isValidChar ["."%char] u (length u) (Some (length u))
                = true).
    { apply (Ipv4DotFacts.ipv4_dot_accepted u (length u) (Some (length u))).
      change (str ".") with ["."%char].
      rewrite Ipv4TypingFacts.insert_at_end, ReplaceFacts.countChar_count.
      split; [| split].
      - pose proof (SegmentFacts.length_split "." (u ++ ["."%char])) as S.
        rewrite (Ipv4TypingFacts.split_snoc_delim "." u done o E) in S.
        rewrite !length_app in S. simpl in S. lia.
      - destruct (exists_last (canonical_not_nil o C)) as (o' & c & ->).
        exists c. split.
        + unfold char_left. rewrite firstn_all.
          assert (Q : u = JS.join "." (done ++ [o']) ++ [c])
            by (unfold u; symmetry; apply Ipv4TypingFacts.join_snoc_char).
          rewrite Q, rev_app_distr. reflexivity.
        + pose proof (canonical_last_digit o' c C) as D.
          intros ->. vm_compute in D. discriminate.
      - unfold char_right. now rewrite skipn_all. }
    rewrite A. unfold u.
    rewrite <- (SegmentFacts.join_snoc "." _ [] Nn).
    rewrite format_exact.
    + change (ipv4_complete []) with false. rewrite andb_false_r.
      now rewrite app_nil_r.
    + apply Forall_app. split; [exact F | now constructor].
    + now left.
    + rewrite length_app. simpl. lia.
Qed.

Lemma type_value_app (h : Directive.handler) (a b u : jsstring) :
  type_value h (a ++ b) u = type_value h b (type_value h a u).
Proof. unfold type_value. apply fold_left_app. Qed.

Lemma type_value_cons (h : Directive.handler) (c : ascii) (b u : jsstring) :
  type_value h (c :: b) u = type_value h b (type_step h u c).
Proof. reflexivity. Qed.

(** An octet and the dot behind it. *)
Lemma type_octet_dot (done : list jsstring) (o rest : jsstring) :
  Forall canonical_octet done -> length done < 3 -> canonical_octet o ->
  type_value (Directive.maskHandlers Directive.Ipv4)
    (o ++ "."%char :: rest) (JS.join "." (done ++ [[]])) =
  type_value (Directive.maskHandlers Directive.Ipv4) rest
    (JS.join "." ((done ++ [o]) ++ [[]])).
Proof.
  intros F L C.
  pose proof (type_octet_rest done o [] F ltac:(lia)
                (canonical_not_nil o C) C) as R.
  rewrite type_value_app. unfold jsstring in *. rewrite R.
  rewrite type_value_cons. cbn [app]. now rewrite type_dot.
Qed.

Lemma type_octet_last (done : list jsstring) (o : jsstring) :
  Forall canonical_octet done -> length done = 3 -> canonical_octet o ->
  type_value (Directive.maskHandlers Directive.Ipv4) o
    (JS.join "." (done ++ [[]])) =
  JS.join "." (done ++ [o]).
Proof.
  intros F L C.
  pose proof (type_octet_rest done o [] F ltac:(lia)
                (canonical_not_nil o C) C) as R.
  pose proof (format_exact done o F (or_intror C) ltac:(lia)) as X.
  cbn [app] in R. unfold jsstring in *. rewrite R, X.
  match goal with
  | |- context [(?a <? 3)%nat] => destruct (Nat.ltb_spec a 3); [lia |]
  end.
  cbn [andb]. now rewrite app_nil_r.
Qed.

Lemma canonical_typable (v : jsstring) :
  dotted_quad canonical_octet v ->
  type_value (Directive.maskHandlers Directive.Ipv4) v [] = v.
Proof.
  intros (a & b & c & d & E & Ha & Hb & Hc & Hd).
  destruct (Ipv4TypingFacts.split_parts "." v _ E) as [J _].
  rewrite J at 1. cbn [JS.join].
  pose proof (fun rest => type_octet_dot [] a rest (Forall_nil _)
                ltac:(simpl; lia) Ha) as R1.
  pose proof (fun rest => type_octet_dot [a] b rest
                (Forall_cons _ Ha (Forall_nil _)) ltac:(simpl; lia) Hb) as R2.
  pose proof (fun rest => type_octet_dot [a; b] c rest
                (Forall_cons _ Ha (Forall_cons _ Hb (Forall_nil _)))
                ltac:(simpl; lia) Hc) as R3.
  pose proof (type_octet_last [a; b; c] d
                (Forall_cons _ Ha (Forall_cons _ Hb
                   (Forall_cons _ Hc (Forall_nil _)))) eq_refl Hd) as R4.
  cbn [app] in R1, R2, R3, R4.
  change (JS.join "." [[]]) with (@nil ascii) in R1. unfold jsstring in *.
  rewrite R1, R2, R3, R4. now rewrite J.
Qed.

End Ipv4WholeFacts.

(** X30.  Every dotted quad of octets without leading zeros can be typed:
    typing its characters one after the other with the cursor behind the
    text of a field that starts empty, the field ends up holding the
    address.  Every digit is accepted; a dot is accepted, or dropped where
    [format] has put the dot already. *)
Theorem ipv4_canonical_typable (value : jsstring) :
  dotted_quad canonical_octet value ->
  type_value (Directive.maskHandlers Directive.Ipv4) value [] = value.
Proof. exact (Ipv4WholeFacts.canonical_typable value). Qed.

Lemma ipv4_canonical_typable_witness :
  type_value (Directive.maskHandlers Directive.Ipv4) (str "192.168.1.25") []
  = str "192.168.1.25".
Proof.
  apply (ipv4_canonical_typable (str "192.168.1.25")).
  exists (str "192"), (str "168"), (str "1"), (str "25").
  split; [reflexivity |].
  repeat split; try (simpl; lia); try (vm_compute; discriminate);
    try (repeat (apply Forall_cons; [vm_compute; reflexivity |]);
         apply Forall_nil);
    try (intros _; discriminate).
Defined.
